(** * EPUB readability analysis (LIX): a shallow embedding of the analysis
      pipeline and its statistics helpers.

    The development follows the TypeScript sources:
    - [utils]        : getMedian, getMean, getStandardDeviation,
                       getMedianWithStandardDeviation, getUniqueStrings,
                       compareArrays;
    - [analyzeEpub]  : extractItemPathsFromManifest, getSpineItemStats,
                       searchForLixInItems, extractContentFromText,
                       searchForLixInText, calculateLixFromStats,
                       filterItemsUsingStandardDeviation, cleanUpFormatting,
                       expandAbbreviations, getTotalStats and the assembly
                       of the Analysis record;
    - [handleAnalyzeEpub] : the test of the material identifier.

    Conventions of the model.
    - A JavaScript string is the list of its UTF-16 code units ([str]).
    - A JavaScript [number] is [NaN], an infinity, or an exact rational:
      the rounding error of IEEE doubles and the sign of zero are not
      modelled.
    - [Math.sqrt] is kept symbolic ([root]); the three comparisons the
      program makes with a standard deviation are decided exactly by
      squaring ([gt_bound_exact], [lt_bound_exact] and [root_gt_exact]
      relate them to the real square root).
    - A thrown exception is the [Throw] result of the [result] monad.
    - Regular expressions are abstract syntax run by a backtracking
      matcher that follows the ECMAScript matching rules. *)

From Stdlib Require Import List Bool Arith ZArith NArith QArith Qround Qabs Lia.
From Stdlib Require Import Permutation Sorted String Ascii.
From Stdlib Require Import Reals Qreals Lra.
Import ListNotations.

Local Open Scope nat_scope.

(** ** Strings *)

Definition str := list N.

Definition codes (s : string) : str :=
  List.map N_of_ascii (list_ascii_of_string s).

Definition code (c : ascii) : N := N_of_ascii c.

(** [s.substring(i, j)] for [i <= j]. *)
Definition substring (s : str) (i j : nat) : str :=
  firstn (j - i) (skipn i s).

(** ** Exceptions *)

Inductive error :=
| TypeError
| Error (message : string).

Inductive result (A : Type) :=
| OK (a : A)
| Throw (e : error).
Arguments OK {A} a.
Arguments Throw {A} e.

Definition bind {A B} (r : result A) (k : A -> result B) : result B :=
  match r with
  | OK a => k a
  | Throw e => Throw e
  end.

Notation "'let*' x ':=' r 'in' k" := (bind r (fun x => k))
  (at level 10, x name, r at level 100, k at level 200).

(** [try { body } catch (error) { throw Error(msg) }] *)
Definition rethrow {A} (message : string) (r : result A) : result A :=
  match r with
  | OK a => OK a
  | Throw _ => Throw (Error message)
  end.

(** ** Numbers *)

Module Num.

Inductive number :=
| NaN
| PInf
| NInf
| Fin (q : Q).

Definition Qltb (x y : Q) : bool := negb (Qle_bool y x).

Definition of_Z (z : Z) : number := Fin (inject_Z z).
Definition of_nat (n : nat) : number := of_Z (Z.of_nat n).

Definition neg (a : number) : number :=
  match a with
  | NaN => NaN
  | PInf => NInf
  | NInf => PInf
  | Fin q => Fin (- q)
  end.

Definition add (a b : number) : number :=
  match a, b with
  | NaN, _ | _, NaN => NaN
  | PInf, NInf | NInf, PInf => NaN
  | PInf, _ | _, PInf => PInf
  | NInf, _ | _, NInf => NInf
  | Fin x, Fin y => Fin (x + y)
  end.

Definition sub (a b : number) : number := add a (neg b).

Definition mul (a b : number) : number :=
  match a, b with
  | NaN, _ | _, NaN => NaN
  | Fin x, Fin y => Fin (x * y)
  | Fin x, PInf | PInf, Fin x =>
      if Qeq_bool x 0 then NaN else if Qltb x 0 then NInf else PInf
  | Fin x, NInf | NInf, Fin x =>
      if Qeq_bool x 0 then NaN else if Qltb x 0 then PInf else NInf
  | PInf, PInf | NInf, NInf => PInf
  | PInf, NInf | NInf, PInf => NInf
  end.

Definition div (a b : number) : number :=
  match a, b with
  | NaN, _ | _, NaN => NaN
  | Fin x, Fin y =>
      if Qeq_bool y 0
      then (if Qeq_bool x 0 then NaN else if Qltb x 0 then NInf else PInf)
      else Fin (x / y)
  | Fin _, _ => Fin 0
  | PInf, Fin y => if Qltb y 0 then NInf else PInf
  | NInf, Fin y => if Qltb y 0 then PInf else NInf
  | _, _ => NaN
  end.

(** [a > b], [a < b] and [a === b] on numbers; every comparison with
    [NaN] is false. *)
Definition gt (a b : number) : bool :=
  match a, b with
  | NaN, _ | _, NaN => false
  | PInf, PInf => false
  | PInf, _ => true
  | _, PInf => false
  | NInf, _ => false
  | Fin _, NInf => true
  | Fin x, Fin y => Qltb y x
  end.


Definition eqb (a b : number) : bool :=
  match a, b with
  | PInf, PInf | NInf, NInf => true
  | Fin x, Fin y => Qeq_bool x y
  | _, _ => false
  end.

(** Truthiness of a number: [NaN] and [0] are falsy. *)
Definition truthy (a : number) : bool :=
  match a with
  | NaN => false
  | Fin q => negb (Qeq_bool q 0)
  | _ => true
  end.

Definition is_finite (a : number) : bool :=
  match a with
  | Fin _ => true
  | _ => false
  end.

(** [Number(x.toFixed())]: the nearest integer, the larger one in
    magnitude on a tie; values of magnitude 1e21 and above, [NaN] and the
    infinities are printed and read back unchanged. *)
Definition Qround_half_up (q : Q) : Z := Qfloor (q + (1 # 2)).

Definition toFixed0 (a : number) : number :=
  match a with
  | Fin q =>
      if Qle_bool (inject_Z (10 ^ 21)) (Qabs q) then Fin q
      else if Qltb q 0 then of_Z (- Qround_half_up (- q))
      else of_Z (Qround_half_up q)
  | _ => a
  end.

(** [Number(x.toPrecision())]: with no precision given, [toPrecision]
    is [ToString], which [Number] reads back exactly. *)
Definition toPrecision_roundtrip (a : number) : number := a.

(** *** Square roots, kept symbolic *)

(** The value of [Math.sqrt(x)]: [NaN], [+Infinity], or the square root of
    a non-negative rational. *)
Inductive root :=
| RNaN
| RInf
| Root (radicand : Q).

Definition Math_sqrt (x : number) : root :=
  match x with
  | NaN | NInf => RNaN
  | PInf => RInf
  | Fin q => if Qltb q 0 then RNaN else Root q
  end.

(** The value of [m + s] or [m - s] for a number [m] and a root [s]. *)
Inductive bound :=
| BNaN
| BPInf
| BNInf
| Surd (base : Q) (minus : bool) (radicand : Q).

Definition add_root (m : number) (s : root) : bound :=
  match m, s with
  | NaN, _ | _, RNaN => BNaN
  | PInf, _ => BPInf
  | NInf, RInf => BNaN
  | NInf, Root _ => BNInf
  | Fin _, RInf => BPInf
  | Fin b, Root r => Surd b false r
  end.

Definition sub_root (m : number) (s : root) : bound :=
  match m, s with
  | NaN, _ | _, RNaN => BNaN
  | PInf, RInf => BNaN
  | PInf, Root _ => BPInf
  | NInf, _ => BNInf
  | Fin _, RInf => BNInf
  | Fin b, Root r => Surd b true r
  end.

(** [x > b]: for [b = base + sqrt r] this is [0 < x - base] and
    [r < (x - base)^2]; for [b = base - sqrt r] it is [base - x < 0] or
    [(base - x)^2 < r]. *)
Definition gt_bound (x : number) (b : bound) : bool :=
  match x, b with
  | NaN, _ | _, BNaN => false
  | PInf, BPInf => false
  | PInf, _ => true
  | NInf, _ => false
  | Fin _, BPInf => false
  | Fin _, BNInf => true
  | Fin q, Surd base false r =>
      Qltb 0 (q - base) && Qltb r ((q - base) * (q - base))
  | Fin q, Surd base true r =>
      Qltb (base - q) 0 || Qltb ((base - q) * (base - q)) r
  end.

(** [x < b], symmetrically. *)
Definition lt_bound (x : number) (b : bound) : bool :=
  match x, b with
  | NaN, _ | _, BNaN => false
  | NInf, BNInf => false
  | NInf, _ => true
  | PInf, _ => false
  | Fin _, BNInf => false
  | Fin _, BPInf => true
  | Fin q, Surd base false r =>
      Qltb (q - base) 0 || Qltb ((q - base) * (q - base)) r
  | Fin q, Surd base true r =>
      Qltb 0 (base - q) && Qltb r ((base - q) * (base - q))
  end.

(** [s > cap] for a root [s] and a number [cap]. *)
Definition root_gt (s : root) (cap : number) : bool :=
  match s, cap with
  | RNaN, _ | _, NaN => false
  | RInf, PInf => false
  | RInf, _ => true
  | Root _, PInf => false
  | Root _, NInf => true
  | Root r, Fin c => Qltb c 0 || Qltb (c * c) r
  end.

End Num.
Import Num.

(** ** Arrays *)

Section ArraySort.
Context {A : Type}.
Variable comparefn : A -> A -> number.

(** [Array.prototype.sort(comparefn)] is a stable sort: [b] goes before
    [a] only when [comparefn(a, b) > 0] (a [NaN] result counts as [0]).
    For a consistent comparator every stable sort gives the same array;
    insertion from the right is the model. *)
Fixpoint insert (x : A) (l : list A) : list A :=
  match l with
  | [] => [x]
  | y :: l' => if gt (comparefn x y) (Fin 0) then y :: insert x l' else x :: l
  end.

Fixpoint sort (l : list A) : list A :=
  match l with
  | [] => []
  | x :: l' => insert x (sort l')
  end.
End ArraySort.

(** [array[i]] for an index that may be negative or out of range:
    [None] is [undefined]. *)
Definition get {A} (array : list A) (i : Z) : option A :=
  if (i <? 0)%Z then None else nth_error array (Z.to_nat i).

(** [array.splice(i, 1)] for [0 <= i]. *)
Definition splice1 {A} (array : list A) (i : Z) : list A :=
  firstn (Z.to_nat i) array ++ skipn (S (Z.to_nat i)) array.

(** ** utils *)

Module Utils.

Definition compareNumbers (a b : number) : number := sub a b.

(** [getMedian]; [None] is the [undefined] read from an empty array. *)
Definition getMedian (array : list number) : option number :=
  let sortedArr := sort compareNumbers array in
  let midIndex := List.length sortedArr / 2 in
  if (List.length sortedArr mod 2 =? 0) && (1 <? List.length sortedArr)
  then
    match nth_error sortedArr (midIndex - 1), nth_error sortedArr midIndex with
    | Some a, Some b => Some (div (add a b) (of_nat 2))
    | _, _ => Some NaN
    end
  else nth_error sortedArr midIndex.

Definition getMean (array : list number) : number :=
  match array with
  | [] => Fin 0
  | x :: l =>
      let sum := fold_left add l x in
      div sum (of_nat (List.length array))
  end.

Definition getStandardDeviation (array : list number) : root :=
  match array with
  | [] => Root 0
  | x :: l =>
      let length := of_nat (List.length array) in
      let mean := div (fold_left add l x) length in
      let deviations := List.map (fun num => sub num mean) array in
      let deviationsSq := List.map (fun devi => mul devi devi) deviations in
      let variance := div (fold_left add deviationsSq (Fin 0)) length in
      Math_sqrt variance
  end.

End Utils.
Import Utils.

(** ** Regular expressions *)

Module Regex.

(** Members of a character class. *)
Inductive citem :=
| Chr (c : N)
| Range (lo hi : N)
| Space
| Digit.

Inductive regex :=
| Empty
| Class (negated : bool) (items : list citem)
| Seq (r1 r2 : regex)
| Alt (r1 r2 : regex)
| Star (r : regex)
| Group (r : regex)
| LookAhead (negated : bool) (r : regex)
| LookBehind (negated : bool) (r : regex).

(** Derived forms: [r+], [r?], [r{1,2}], [r{1,3}], a literal character
    and a literal word. All quantifiers are greedy. *)
Definition chr (c : ascii) : regex := Class false [Chr (code c)].
Definition plus (r : regex) : regex := Seq r (Star r).
Definition opt (r : regex) : regex := Alt r Empty.
Definition rep12 (r : regex) : regex := Seq r (opt r).
Definition rep13 (r : regex) : regex := Seq r (opt (Seq r (opt r))).
Definition chars (s : string) : list citem :=
  List.map (fun c => Chr (code c)) (list_ascii_of_string s).
Definition lit (s : string) : regex :=
  fold_right (fun c r => Seq (chr c) r) Empty (list_ascii_of_string s).

Local Open Scope N_scope.

(** [\s]: WhiteSpace and LineTerminator code points. *)
Definition is_space (c : N) : bool :=
  ((9 <=? c) && (c <=? 13)) || (c =? 32) || (c =? 160) || (c =? 5760)
  || ((8192 <=? c) && (c <=? 8202)) || (c =? 8232) || (c =? 8233)
  || (c =? 8239) || (c =? 8287) || (c =? 12288) || (c =? 65279).

Definition is_digit (c : N) : bool := (48 <=? c) && (c <=? 57).

(** [toUpperCase] of one code unit, for Basic Latin and Latin-1, which are
    the blocks the patterns below take their characters from. Code units
    above U+00FF are left unchanged: the only ones whose upper case lies in
    these blocks (U+0131 and U+017F) have it in Basic Latin, where
    [Canonicalize] does not follow it. *)
Definition toUpperCase (c : N) : N :=
  if (97 <=? c) && (c <=? 122) then c - 32
  else if c =? 181 then 924
  else if (224 <=? c) && (c <=? 254) && negb (c =? 247) then c - 32
  else if c =? 255 then 376
  else c.

(** Canonicalize (ch) of the ECMAScript specification, without the
    unicode flag. *)
Definition Canonicalize (ignoreCase : bool) (ch : N) : N :=
  if ignoreCase then
    let cu := toUpperCase ch in
    if (128 <=? ch) && (cu <? 128) then ch else cu
  else ch.

Definition range (lo hi : N) : list N :=
  List.map (fun k => lo + N.of_nat k) (seq 0 (N.to_nat (hi + 1 - lo))).

Definition in_item (ignoreCase : bool) (ch : N) (item : citem) : bool :=
  match item with
  | Chr a => Canonicalize ignoreCase a =? Canonicalize ignoreCase ch
  | Range lo hi =>
      if ignoreCase
      then existsb (fun a => Canonicalize true a =? Canonicalize true ch)
                   (range lo hi)
      else (lo <=? ch) && (ch <=? hi)
  | Space => is_space ch
  | Digit => is_digit ch
  end.

Local Close Scope N_scope.

Section Matcher.
Variable ignoreCase : bool.
Variable input : str.

(** The span of capture group 1, when it took part in the match. *)
Definition captures := option (nat * nat).
Definition state := (nat * captures)%type.
Definition continuation := nat -> captures -> option state.

(** The greedy loop of [r*]: [step] matches [r] once. One more
    iteration is tried before the continuation, and an iteration that
    matches the empty string is rejected. Every iteration that counts
    moves the index forward, so [length input - i] rounds are enough
    ([star_loop_fuel] below). *)
Fixpoint star_loop (step : continuation -> nat -> captures -> option state)
  (k : continuation) (fuel i : nat) (cap : captures) : option state :=
  match fuel with
  | O => k i cap
  | S fuel' =>
      match step (fun j c => if j =? i then None
                             else star_loop step k fuel' j c) i cap with
      | Some s => Some s
      | None => k i cap
      end
  end.

(** The backtracking matcher: [m r k i cap] matches [r] at index [i]
    and hands the end index to the continuation [k]; [None] is failure.
    A lookbehind holds at [i] when its pattern matches a substring that
    ends at [i]. (ECMAScript matches it backwards; without capture groups
    inside the lookbehind the answer is the same.) *)
Fixpoint m (r : regex) (k : continuation) (i : nat) (cap : captures)
  {struct r} : option state :=
  match r with
  | Empty => k i cap
  | Class negated items =>
      match nth_error input i with
      | None => None
      | Some ch =>
          if xorb negated (existsb (in_item ignoreCase ch) items)
          then k (S i) cap
          else None
      end
  | Seq r1 r2 => m r1 (fun j c => m r2 k j c) i cap
  | Alt r1 r2 =>
      match m r1 k i cap with
      | Some s => Some s
      | None => m r2 k i cap
      end
  | Star r1 => star_loop (m r1) k (List.length input - i) i cap
  | Group r1 => m r1 (fun j _ => k j (Some (i, j))) i cap
  | LookAhead negated r1 =>
      match m r1 (fun j c => Some (j, c)) i cap with
      | Some (_, c) => if negated then None else k i c
      | None => if negated then k i cap else None
      end
  | LookBehind negated r1 =>
      let ends_here q :=
        match m r1 (fun j c => if j =? i then Some (j, c) else None) q cap with
        | Some _ => true
        | None => false
        end in
      if xorb negated (existsb ends_here (seq 0 (S i)))
      then k i cap
      else None
  end.

(** A match that starts exactly at [i] (a sticky match). *)
Definition match_at (r : regex) (i : nat) : option state :=
  m r (fun j c => Some (j, c)) i None.

(** [RegExpBuiltinExec]: the first index from [lastIndex] on at which
    the pattern matches, with the state of that match. *)
Fixpoint search (r : regex) (fuel i : nat) : option (nat * state) :=
  match match_at r i with
  | Some st => Some (i, st)
  | None =>
      match fuel with
      | O => None
      | S fuel' => search r fuel' (S i)
      end
  end.

Definition exec (r : regex) (lastIndex : nat) : option (nat * state) :=
  if List.length input <? lastIndex then None
  else search r (List.length input - lastIndex) lastIndex.

(** [regex.test(input)] for a regex without the global flag. *)
Definition test (r : regex) : bool :=
  match exec r 0 with
  | Some _ => true
  | None => false
  end.

(** [input.match(regex)] for a global regex: every match from left to
    right, stepping over an empty match. [None] is [null]. The index
    grows at every step, so [length input + 1] steps are enough
    ([match_loop_fuel] below). *)
Fixpoint match_loop (r : regex) (fuel lastIndex : nat) : list str :=
  match fuel with
  | O => []
  | S fuel' =>
      match exec r lastIndex with
      | None => []
      | Some (start, (e, _)) =>
          substring input start e
            :: match_loop r fuel' (if e =? start then S e else e)
      end
  end.

Definition match_global (r : regex) : option (list str) :=
  match match_loop r (S (List.length input)) 0 with
  | [] => None
  | l => Some l
  end.

(** [input.split(regex)] for a regex without capture groups: [p] is the
    start of the current piece and [q] the index where a separator is
    tried. After at most two steps [q] has grown, so [2 * length input]
    steps are enough ([split_loop_fuel] below). *)
Fixpoint split_loop (r : regex) (fuel p q : nat) : list str :=
  match fuel with
  | O => [substring input p (List.length input)]
  | S fuel' =>
      if List.length input <=? q
      then [substring input p (List.length input)]
      else
        match match_at r q with
        | None => split_loop r fuel' p (S q)
        | Some (e0, _) =>
            let e := Nat.min e0 (List.length input) in
            if e =? p then split_loop r fuel' p (S q)
            else substring input p q :: split_loop r fuel' e e
        end
  end.

Definition split (r : regex) : list str :=
  if List.length input =? 0 then
    match match_at r 0 with
    | Some _ => []
    | None => [input]
    end
  else split_loop r (2 * List.length input) 0 0.
End Matcher.

(** [s.trim()] *)
Fixpoint trimStart (s : str) : str :=
  match s with
  | c :: s' => if is_space c then trimStart s' else s
  | [] => []
  end.

Definition trim (s : str) : str := rev (trimStart (rev (trimStart s))).

End Regex.
Import Regex.

(** ** analyzeEpub *)

Module Analyze.

Record ManifestItem := {
  media_type : str;
  href : str
}.

Record SpineItem := {
  path : str;
  text : str
}.

Record TextContent := {
  words : list str;
  long_words : list str;
  sentences : list str
}.

Record TextContentStats := {
  word_count : nat;
  long_word_count : nat;
  sentence_count : nat
}.

(** [SpineItemContent]: a title, a score and the fields of TextContent. *)
Record SpineItemContent := {
  title : str;
  generated_lix : number;
  content : TextContent
}.

(** [SpineItemStats]: a title, a score and the fields of TextContentStats. *)
Record SpineItemStats := {
  stats_title : str;
  stats_generated_lix : number;
  counts : TextContentStats
}.

Record AnalysisStats := {
  lix_found : option number;
  lix_median : option number;
  lix_generated : number;
  totals : TextContentStats
}.

Record Analysis := {
  file_bytes : N;
  lix : number;
  stats : AnalysisStats;
  items : list SpineItemStats
}.

Definition str_eqb (a b : str) : bool :=
  if list_eq_dec N.eq_dec a b then true else false.

(** Every array is truthy, the empty one too. *)
Definition array_truthy {A} (array : list A) : bool := true.

(** [a ?? b]: [None] is [null] or [undefined]. *)
Definition nullish {A} (a : option A) (b : A) : A :=
  match a with
  | Some v => v
  | None => b
  end.

(** *** extractItemPathsFromManifest

    [item] is the value of [opfJson.package.manifest[0].item]: an array of
    entries, or [undefined] ([None]) when the manifest element has no
    [item] child. *)
Definition XHTML : str := codes "application/xhtml+xml".

Definition extractItemPathsFromManifest
  (item : option (list ManifestItem)) (opfRoot : str) : result (list str) :=
  rethrow "Unable to extract item paths from manifest"
    match item with
    | None => Throw TypeError
    | Some manifest =>
        let htmlItemPaths :=
          List.map
            (fun item =>
               if 1 <? List.length opfRoot
               then opfRoot ++ codes "/" ++ href item
               else href item)
            (List.filter (fun item => str_eqb (media_type item) XHTML) manifest) in
        if negb (array_truthy htmlItemPaths)
        then Throw (Error "Invalid EPUB format. Could not find any HTML content in manifest")
        else OK htmlItemPaths
    end.

(** *** extractContentFromText *)

Definition EXCEPTIONS : list string := ["pc"; "wc"]%string.

(** [EXCEPTIONS.join('|')] read as a pattern: the alternation of the
    words. *)
Fixpoint alternation (words : list string) : regex :=
  match words with
  | [] => Empty
  | [w] => lit w
  | w :: rest => Alt (lit w) (alternation rest)
  end.

(** [CONSONTANTS] is a RegExp object; in the template string it is turned
    into its source text between two slashes. *)
Definition CONSONTANTS : string :=
  "/bcdfghjklmnpqrstvwxzBCDFGHJKLMNPQRSTVWXZ]/"%string.

(** The members of the class that the text [[${CONSONTANTS}]{1,3}] opens:
    the class ends at the first closing bracket, which is the one inside
    [CONSONTANTS] ([consonants_pattern_text] below). *)
Definition CONSONTANTS_class : string :=
  "/bcdfghjklmnpqrstvwxzBCDFGHJKLMNPQRSTVWXZ"%string.

(** The pattern text of [SENTENCE_REGEX] is therefore
    - a negative lookbehind
      [(?<!\s(?!pc|wc)[/bcdfghjklmnpqrstvwxzBCDFGHJKLMNPQRSTVWXZ]/]{1,3}\.)]:
      white space, not followed by one of the exceptions, one member of
      the class, a literal slash, one to three literal closing brackets
      and a period;
    - a lookbehind for one of the characters . ! ? ' and the double quote;
    - [\s+];
    - a lookahead [(?=[^a-z\u00E0-\u00FF.(])]. *)
Definition SENTENCE_REGEX : regex :=
  Seq (LookBehind true
         (Seq (Class false [Space])
         (Seq (LookAhead true (alternation EXCEPTIONS))
         (Seq (Class false (chars CONSONTANTS_class))
         (Seq (chr "/")
         (Seq (rep13 (chr "]"))
              (chr ".")))))))
  (Seq (LookBehind false (Class false (chars ".!?'" ++ [Chr 34%N])))
  (Seq (plus (Class false [Space]))
       (LookAhead false
          (Class true [Range (code "a") (code "z"); Range 224 255;
                       Chr (code "."); Chr (code "(")])))).

(** One or more of [a-z], [A-Z], U+00C0 to U+00FF and [0-9], then any
    number of groups made of a period or an apostrophe and one or more
    letters of the first three ranges. *)
Definition WORD_REGEX : regex :=
  Seq (plus (Class false [Range (code "a") (code "z");
                          Range (code "A") (code "Z");
                          Range 192 255;
                          Range (code "0") (code "9")]))
      (Star (Seq (Class false [Chr (code "."); Chr (code "'")])
                 (plus (Class false [Range (code "a") (code "z");
                                     Range (code "A") (code "Z");
                                     Range 192 255])))).

(** Nothing in the body of the source function throws, so its
    [try]/[catch] is left out. *)
Definition extractContentFromText (text : str) : TextContent :=
  let sentences :=
    List.filter (fun s => 0 <? List.length (trim s))
                (split false (trim text) SENTENCE_REGEX) in
  let words :=
    match match_global false text WORD_REGEX with
    | Some found => List.filter (fun word => 0 <? List.length word) found
    | None => []
    end in
  let long_words := List.filter (fun word => 6 <? List.length word) words in
  {| words := words; long_words := long_words; sentences := sentences |}.

(** *** searchForLixInText *)

(** Flags [gim]: a negative lookbehind for [A-Z] and U+00C0 to U+00FF,
    [LIX], optional white space, an optional hyphen, an optional [TAL], an
    optional colon, optional white space, one or two digits (group 1) and
    a negative lookahead for an optional digit and a minus or plus sign. *)
Definition LIX_REGEX : regex :=
  Seq (LookBehind true (Class false [Range (code "A") (code "Z"); Range 192 255]))
  (Seq (lit "LIX")
  (Seq (Star (Class false [Space]))
  (Seq (opt (chr "-"))
  (Seq (opt (lit "TAL"))
  (Seq (opt (chr ":"))
  (Seq (Star (Class false [Space]))
  (Seq (Group (rep12 (Class false [Digit])))
       (LookAhead true
          (Seq (opt (Class false [Digit]))
               (Class false [Chr (code "-"); Chr (code "+")])))))))))).

(** [parseInt] of a string of decimal digits. *)
Definition parseInt (digits : str) : number :=
  match digits with
  | [] => NaN
  | _ => of_Z (fold_left (fun acc d => acc * 10 + (Z.of_N d - 48))%Z digits 0%Z)
  end.

(** [None] is [null]. A fresh regex starts at [lastIndex = 0]; nothing in
    the [try] block throws. *)
Definition searchForLixInText (text : str) : option number :=
  match exec true text LIX_REGEX 0 with
  | None => None
  | Some (_, (_, Some (i, j))) => Some (parseInt (substring text i j))
  | Some (_, (_, None)) => Some NaN
  end.

(** *** calculateLixFromStats *)

Definition calculateLixFromStats (stats : TextContentStats) : number :=
  let sentenceLength := div (of_nat (word_count stats)) (of_nat (sentence_count stats)) in
  let longWordRatio :=
    div (mul (of_nat (long_word_count stats)) (of_Z 100)) (of_nat (word_count stats)) in
  let lix := add sentenceLength longWordRatio in
  toFixed0 lix.

(** *** filterItemsUsingStandardDeviation *)

Definition compareLix (a b : SpineItemContent) : number :=
  sub (generated_lix a) (generated_lix b).

(** The removal loop, on the array [sortedArr] and the index [i] as the
    source mutates them. Reading [generated_lix] of [undefined] raises a
    TypeError, which the enclosing [catch] answers by returning the array
    as it is at that moment. Every turn makes [length sortedArr - i] one
    smaller, so [fuel = length sortedArr] turns reach the exit test. *)
Fixpoint removeOutliers (fuel : nat) (upperBound lowerBound : bound)
  (sortedArr : list SpineItemContent) (i : Z) : list SpineItemContent :=
  match fuel with
  | O => sortedArr
  | S fuel' =>
      if (i <? Z.of_nat (List.length sortedArr))%Z then
        match get sortedArr i with
        | None => sortedArr
        | Some item =>
            let '(arr1, i1) :=
              if gt_bound (generated_lix item) upperBound
              then (splice1 sortedArr i, (i - 1)%Z)
              else (sortedArr, i) in
            match get arr1 i1 with
            | None => arr1
            | Some item' =>
                let '(arr2, i2) :=
                  if lt_bound (generated_lix item') lowerBound
                  then (splice1 arr1 i1, (i1 - 1)%Z)
                  else (arr1, i1) in
                removeOutliers fuel' upperBound lowerBound arr2 (i2 + 1)%Z
            end
        end
      else sortedArr
  end.

(** [sortedArr[midIndex].generated_lix] is read before the [try]: on an
    empty array the TypeError leaves the function. *)
Definition filterItemsUsingStandardDeviation
  (items : list SpineItemContent) (maxStdDev : number)
  : result (list SpineItemContent) :=
  let sortedArr := sort compareLix items in
  let midIndex := List.length sortedArr / 2 in
  match nth_error sortedArr midIndex with
  | None => Throw TypeError
  | Some midItem =>
      let midValue := generated_lix midItem in
      let stdDev :=
        getStandardDeviation
          (List.map (fun item => toFixed0 (generated_lix item)) sortedArr) in
      let upperBound := add_root (toPrecision_roundtrip midValue) stdDev in
      let lowerBound := sub_root (toPrecision_roundtrip midValue) stdDev in
      if root_gt stdDev maxStdDev
      then OK (removeOutliers (List.length sortedArr) upperBound lowerBound
                 sortedArr 0%Z)
      else OK sortedArr
  end.

(** *** getTotalStats *)

Definition getTotalStats (items : list SpineItemStats) : TextContentStats :=
  fold_left
    (fun prev curr =>
       {| word_count := word_count prev + word_count (counts curr);
          long_word_count := long_word_count prev + long_word_count (counts curr);
          sentence_count := sentence_count prev + sentence_count (counts curr) |})
    items
    {| word_count := 0; long_word_count := 0; sentence_count := 0 |}.

(** *** searchForLixInItems *)

(** [/colophon|kolofon/i] and [/chapter|kapitel/i] *)
Definition COLOPHON_REGEX : regex := Alt (lit "colophon") (lit "kolofon").
Definition CHAPTER_REGEX : regex := Alt (lit "chapter") (lit "kapitel").

(** [if (result)]: a result that is neither [null], [0] nor [NaN]. *)
Definition found (r : option number) : option number :=
  match r with
  | Some v => if truthy v then Some v else None
  | None => None
  end.

Fixpoint searchItems (items : list SpineItem) : option number :=
  match items with
  | [] => None
  | item :: rest =>
      match found (searchForLixInText (text item)) with
      | Some v => Some v
      | None => searchItems rest
      end
  end.

Definition searchForLixInItems (items : list SpineItem) : option number :=
  let colophon :=
    List.find (fun item => test true (path item) COLOPHON_REGEX) items in
  let inColophon :=
    match colophon with
    | Some c => found (searchForLixInText (text c))
    | None => None
    end in
  match inColophon with
  | Some v => Some v
  | None => searchItems items
  end.

(** *** getSpineItemStats and analyzeEpub

    [path.basename] and [String.prototype.localeCompare] (called with
    [numeric: true] and [sensitivity: 'base']) belong to the platform and
    are parameters of the model. *)
Section Pipeline.
Variable basename : str -> str.
Variable localeCompare : str -> str -> number.

Definition STANDARD_DEVIATION_FACTOR : number := of_Z 6.

Definition contentStats (c : TextContent) : TextContentStats :=
  {| word_count := List.length (words c);
     long_word_count := List.length (long_words c);
     sentence_count := List.length (sentences c) |}.

(** The items the scores are computed from: the chapters when there is
    one, every item otherwise. *)
Definition contentItems (spineItems : list SpineItem) : list SpineItem :=
  let chapters :=
    List.filter (fun item => test true (path item) CHAPTER_REGEX) spineItems in
  if 0 <? List.length chapters then chapters else spineItems.

Definition scoreItem (item : SpineItem) : SpineItemContent :=
  let c := extractContentFromText (text item) in
  {| title := basename (path item);
     generated_lix := calculateLixFromStats (contentStats c);
     content := c |}.

(** [filteredSpineItemContent]: the scored items whose score is truthy. *)
Definition filteredSpineItemContent (spineItems : list SpineItem)
  : list SpineItemContent :=
  List.filter (fun item => truthy (generated_lix item))
              (List.map scoreItem (contentItems spineItems)).

Definition itemStats (item : SpineItemContent) : SpineItemStats :=
  {| stats_title := title item;
     stats_generated_lix := generated_lix item;
     counts := contentStats (content item) |}.

Definition compareTitle (a b : SpineItemStats) : number :=
  localeCompare (stats_title a) (stats_title b).

Definition getSpineItemStats (spineItems : list SpineItem)
  : result (list SpineItemStats) :=
  rethrow "Unable to get spine item stats"
    (let* filteredSpineItems :=
       filterItemsUsingStandardDeviation
         (filteredSpineItemContent spineItems) STANDARD_DEVIATION_FACTOR in
     OK (sort compareTitle (List.map itemStats filteredSpineItems))).

(** The analysis from the extracted spine items on; reading the archive
    and the markup (JSZip, xml2js, JSDOM) is outside the model, and
    [file_bytes] is the size the archive reports. *)
Definition analyzeEpub (file_bytes : N) (spineItems : list SpineItem)
  : result Analysis :=
  rethrow "Failed to analyze EPUB file"
    (let* spineItemStats := getSpineItemStats spineItems in
     let totalStats := getTotalStats spineItemStats in
     let lixValues := List.map stats_generated_lix spineItemStats in
     let lixMedian := getMedian lixValues in
     let lixMean := getMean lixValues in
     let lixGenerated := calculateLixFromStats totalStats in
     let lixFound := searchForLixInItems spineItems in
     OK {| file_bytes := file_bytes;
           lix := nullish lixFound (nullish lixMedian lixGenerated);
           stats := {| lix_found := lixFound;
                       lix_median := lixMedian;
                       lix_generated := lixGenerated;
                       totals := totalStats |};
           items := spineItemStats |}).
End Pipeline.

End Analyze.
Import Analyze.

(** * Vocabulary of the statements *)

(** The real number that [Surd base minus radicand] stands for. *)
Definition bound_value (base : Q) (minus : bool) (radicand : Q) : R :=
  if minus then (Q2R base - sqrt (Q2R radicand))%R
  else (Q2R base + sqrt (Q2R radicand))%R.

(** Ascending order of a rational key. *)
Definition key_le {A} (key : A -> Q) (a b : A) : Prop := (key a <= key b)%Q.

(** The comparator of [getMedian] on finite numbers. *)
Definition compareQ (a b : Q) : number := compareNumbers (Fin a) (Fin b).

(** [a === b] for two results that are both numbers. *)
Definition same_number (a b : option number) : Prop :=
  match a, b with
  | Some x, Some y => eqb x y = true
  | _, _ => False
  end.

(** The median read off an ascending sequence: the middle value, or the
    average of the two middle values when the length is even. *)
Definition middle (sorted : list Q) : Q :=
  let n := List.length sorted in
  if Nat.even n
  then ((nth (n / 2 - 1) sorted 0 + nth (n / 2) sorted 0) / 2)%Q
  else nth (n / 2) sorted 0%Q.

(** [l1] is [l2] with some elements left out, order kept. *)
Inductive subsequence {A : Type} : list A -> list A -> Prop :=
| subsequence_nil : subsequence [] []
| subsequence_take (x : A) (l1 l2 : list A) :
    subsequence l1 l2 -> subsequence (x :: l1) (x :: l2)
| subsequence_skip (x : A) (l1 l2 : list A) :
    subsequence l1 l2 -> subsequence l1 (x :: l2).

Definition str_dec : forall a b : str, {a = b} + {a <> b} :=
  list_eq_dec N.eq_dec.

(** A manifest whose only entry is a style sheet. *)
Definition stylesheet_manifest : list ManifestItem :=
  [{| media_type := codes "text/css"; href := codes "style.css" |}].

(** The rounded scores of the sorted array, their standard deviation and
    the score in the middle of the sorted array, as
    [filterItemsUsingStandardDeviation] computes them. *)
Definition roundedScores (items : list SpineItemContent) : list number :=
  List.map (fun item => toFixed0 (generated_lix item)) (sort compareLix items).

Definition stdDevOf (items : list SpineItemContent) : root :=
  getStandardDeviation (roundedScores items).

Definition midValueOf (items : list SpineItemContent) : number :=
  match nth_error (sort compareLix items)
                  (List.length (sort compareLix items) / 2) with
  | Some midItem => generated_lix midItem
  | None => NaN
  end.

(** An item whose score is neither above the upper nor below the lower
    bound. *)
Definition within (upperBound lowerBound : bound) (item : SpineItemContent)
  : bool :=
  negb (gt_bound (generated_lix item) upperBound)
  && negb (lt_bound (generated_lix item) lowerBound).

(** The sorted items that lie within one standard deviation of [mid]. *)
Definition keptAround (mid : number) (items : list SpineItemContent)
  : list SpineItemContent :=
  List.filter
    (within (add_root mid (stdDevOf items)) (sub_root mid (stdDevOf items)))
    (sort compareLix items).

(** The outlier filter as C2 states it, around the median of [getMedian]. *)
Definition keptAroundMedian (items : list SpineItemContent)
  : list SpineItemContent :=
  match getMedian (List.map generated_lix items) with
  | Some median => keptAround median items
  | None => sort compareLix items
  end.

Definition finite_lix (item : SpineItemContent) : Prop :=
  is_finite (generated_lix item) = true.

Definition qlix (item : SpineItemContent) : Q :=
  match generated_lix item with
  | Fin q => q
  | _ => 0%Q
  end.

(** What the removal loop needs of the part of the array it has not
    visited yet, as long as it has kept nothing: no item is above the upper
    bound before the first item that is kept. *)
Fixpoint safe (upperBound lowerBound : bound) (rest : list SpineItemContent)
  : Prop :=
  match rest with
  | [] => True
  | item :: rest' =>
      gt_bound (generated_lix item) upperBound = false
      /\ (lt_bound (generated_lix item) lowerBound = true ->
          safe upperBound lowerBound rest')
  end.

(** An item with a score and no text, for the examples. *)
Definition scored (t : string) (lix : Z) : SpineItemContent :=
  {| title := codes t;
     generated_lix := of_Z lix;
     content := {| words := []; long_words := []; sentences := [] |} |}.

(** Four scores, 1, 39, 1 and 39: their standard deviation is 19. *)
Definition two_low_two_high : list SpineItemContent :=
  [scored "a" 1; scored "b" 39; scored "c" 1; scored "d" 39].

(** The items whose path matches [/chapter|kapitel/i]. *)
Definition chaptersOf (spineItems : list SpineItem) : list SpineItem :=
  List.filter (fun item => test true (path item) CHAPTER_REGEX) spineItems.

(** The resolution of the [lix] field in words: the first of the three
    values that is not null. *)
Definition firstNonNull (lixFound lixMedian : option number)
  (lixGenerated : number) : number :=
  match lixFound with
  | Some v => v
  | None =>
      match lixMedian with
      | Some v => v
      | None => lixGenerated
      end
  end.

(** A chapter of punctuation only, and a chapter of two sentences. *)
Definition dots_chapter : SpineItem :=
  {| path := codes "OEBPS/chapter1.xhtml"; text := codes "... !" |}.

Definition prose_chapter : SpineItem :=
  {| path := codes "OEBPS/chapter2.xhtml";
     text := codes "The weather was bad. We stayed at home." |}.

Definition title_chapter : SpineItem :=
  {| path := codes "OEBPS/Kapitel_03.xhtml";
     text := codes "Vi blev hjemme hele dagen. Det regnede nemlig." |}.

(** An item that is not a chapter and prints a LIX value. *)
Definition colophon_item : SpineItem :=
  {| path := codes "OEBPS/kolofon.xhtml";
     text := codes "Forlaget. Lix: 23" |}.

(** Stand-ins for the two platform functions in the examples. *)
Definition whole_path (p : str) : str := p.
Definition no_order (a b : str) : number := Fin 0.

(** A continuation is only entered at an index between the start of the
    match and the end of the input. *)
Definition reaches (s : str)
  (step : continuation -> nat -> captures -> option state) : Prop :=
  forall k i cap st,
    i <= List.length s -> step k i cap = Some st ->
    exists j c, i <= j <= List.length s /\ k j c = Some st.

(** Only the values of the continuation at these indices matter. *)
Definition local (s : str)
  (step : continuation -> nat -> captures -> option state) : Prop :=
  forall k1 k2 i cap,
    i <= List.length s ->
    (forall j c, i <= j <= List.length s -> k1 j c = k2 j c) ->
    step k1 i cap = step k2 i cap.

(** The sum of one count over the items. *)
Definition sumCounts (count : TextContentStats -> nat)
  (items : list SpineItemStats) : nat :=
  list_sum (List.map (fun item => count (counts item)) items).


(** Sum, mean and population variance of rationals. *)
Definition sumQ (qs : list Q) : Q := fold_right Qplus 0%Q qs.

Definition meanQ (qs : list Q) : Q :=
  (sumQ qs / inject_Z (Z.of_nat (List.length qs)))%Q.

Definition varianceQ (qs : list Q) : Q :=
  (sumQ (List.map (fun x => (x - meanQ qs) * (x - meanQ qs)) qs)
   / inject_Z (Z.of_nat (List.length qs)))%Q.

(** * More of utils *)







(** [array.includes(s)] and [array.indexOf(s)] on strings ([-1] when the
    string is not in the array). *)
Definition includes (array : list str) (s : str) : bool :=
  existsb (str_eqb s) array.

Fixpoint indexOf (array : list str) (s : str) : Z :=
  match array with
  | [] => (-1)%Z
  | x :: rest =>
      if str_eqb x s then 0%Z
      else
        let i := indexOf rest s in
        if (i =? -1)%Z then (-1)%Z else (i + 1)%Z
  end.

(** [getUniqueStrings]; the two locale functions of the platform are
    variables. *)
Section UniqueStrings.
Variable toLocaleLowerCase : str -> str.
Variable localeCompare : str -> str -> number.

Definition getUniqueStrings (strings : list str) : list str :=
  let uniqueStrings :=
    fold_left
      (fun uniqueStrings string =>
         if negb (includes uniqueStrings (toLocaleLowerCase string))
         then uniqueStrings ++ [toLocaleLowerCase string]
         else uniqueStrings)
      strings [] in
  sort localeCompare uniqueStrings.
End UniqueStrings.

(** [compareArrays] returns nothing; the result here is the list of the
    lines it prints, in order. *)
Definition compareArrays (array1 array2 : list str) : list str :=
  let uniqueValues :=
    fold_left
      (fun uniqueValues x =>
         if (indexOf array2 x =? -1)%Z
         then uniqueValues ++ [codes "only in new: " ++ x]
         else uniqueValues)
      array1 [] in
  fold_left
    (fun uniqueValues x =>
       if (indexOf array1 x =? -1)%Z
       then uniqueValues ++ [codes "only in old: " ++ x]
       else uniqueValues)
    array2 uniqueValues.

(** * The guard of handleAnalyzeEpubAPI *)

(** [r{n}] *)
Fixpoint times (n : nat) (r : regex) : regex :=
  match n with
  | O => Empty
  | S n' => Seq r (times n' r)
  end.

(** [/(?<![0-9])[0-9]{13}(?![0-9])/] *)
Definition MATERIAL_REGEX : regex :=
  Seq (LookBehind true (Class false [Range (code "0") (code "9")]))
  (Seq (times 13 (Class false [Range (code "0") (code "9")]))
       (LookAhead true (Class false [Range (code "0") (code "9")]))).

(** [!material_id || !MATERIAL_REGEX.test(material_id)], the test under
    which [handleAnalyzeEpubAPI] answers that the identifier is missing or
    invalid; [None] is a missing identifier. What the handler does with an
    identifier that passes (Firestore, Storage) is outside the model. *)
Definition materialIdRejected (material_id : option str) : bool :=
  match material_id with
  | None => true
  | Some id =>
      negb (0 <? List.length id) || negb (test false id MATERIAL_REGEX)
  end.

(** A decimal digit at index [i]. *)
Definition digit_at (s : str) (i : nat) : bool :=
  match nth_error s i with
  | Some ch => is_digit ch
  | None => false
  end.

(** Thirteen digits from index [i] on, with no digit before or after
    them. *)
Definition isolated_run (s : str) (i : nat) : Prop :=
  (forall j, j < 13 -> digit_at s (i + j) = true)
  /\ (i = 0 \/ digit_at s (i - 1) = false)
  /\ digit_at s (i + 13) = false.

(** * Cleaning up the text of an item *)

(** [input.replace(regex, replacer)] for a global regex: every match, from
    left to right, is replaced by what [replacer] gives for the matched
    text, and an empty match is stepped over. [p] is the end of the last
    match and [lastIndex] the index where the next one is looked for. The
    index grows at every step, so [length input + 1] steps are enough
    ([replace_loop_fuel] below). *)
Fixpoint replace_loop (ignoreCase : bool) (input : str) (r : regex)
  (replacer : str -> str) (fuel p lastIndex : nat) : str :=
  match fuel with
  | O => substring input p (List.length input)
  | S fuel' =>
      match exec ignoreCase input r lastIndex with
      | None => substring input p (List.length input)
      | Some (start, (e, _)) =>
          substring input p start ++ replacer (substring input start e)
          ++ replace_loop ignoreCase input r replacer fuel' e
               (if e =? start then S e else e)
      end
  end.

Definition replace (ignoreCase : bool) (input : str) (r : regex)
  (replacer : str -> str) : str :=
  replace_loop ignoreCase input r replacer (S (List.length input)) 0 0.

(** [cleanUpFormatting]: nothing in the [try] block throws. The patterns
    are a line feed; the two typographic apostrophes U+2018 and U+2019;
    the quotation marks U+00AB, U+00BB, U+201E, U+201D and U+201C; a soft
    hyphen U+00AD or an en dash U+2013 with an optional white space; a
    colon, an apostrophe and an opening parenthesis behind a white space;
    two or more white spaces. *)
Definition cleanUpFormatting (text : str) : str :=
  let emojiRegex := Seq (LookBehind false (Class false [Space])) (lit ":'(") in
  let s1 := replace false (trim text) (Class false [Chr 10%N])
              (fun _ => codes " ") in
  let s2 := replace false s1 (Class false [Chr 8216%N; Chr 8217%N])
              (fun _ => codes "'") in
  let s3 := replace false s2
              (Class false [Chr 171%N; Chr 187%N; Chr 8222%N; Chr 8221%N;
                            Chr 8220%N])
              (fun _ => [34%N]) in
  let s4 := replace false s3
              (Seq (Class false [Chr 173%N; Chr 8211%N])
                   (opt (Class false [Space])))
              (fun _ => []) in
  let s5 := replace false s4 emojiRegex (fun _ => []) in
  replace false s5
    (Seq (Class false [Space])
         (Seq (Class false [Space]) (Star (Class false [Space]))))
    (fun _ => codes " ").

(** A pattern every match of which takes at least one character. *)
Fixpoint consuming (r : regex) : bool :=
  match r with
  | Class _ _ => true
  | Seq r1 r2 => consuming r1 || consuming r2
  | Alt r1 r2 => consuming r1 && consuming r2
  | Group r1 => consuming r1
  | _ => false
  end.

(** A white space at index [i]; a string that starts with a white space;
    a string with two white spaces in a row. *)
Definition space_at (s : str) (i : nat) : bool :=
  match nth_error s i with
  | Some ch => is_space ch
  | None => false
  end.

Definition starts_with_space (s : str) : bool :=
  match s with
  | c :: _ => is_space c
  | [] => false
  end.

Fixpoint double_space (s : str) : bool :=
  match s with
  | [] => false
  | a :: rest => (is_space a && starts_with_space rest) || double_space rest
  end.

(** The characters that [cleanUpFormatting] replaces one by one. *)
Definition REPLACED : list N :=
  [10; 8216; 8217; 171; 187; 8222; 8221; 8220; 173; 8211]%N.

(** * Expanding abbreviations *)

(** [ABBREVIATIONS_LIST], in the order of its keys; the full term of
    [o.s.v.] holds the letter U+00E5. *)
Definition ABBREVIATIONS_LIST : list (string * str) :=
  [("f.eks."%string, codes "for eksempel");
   ("fx"%string, codes "for eksempel");
   ("bl.a."%string, codes "blandt andet");
   ("Bl.a."%string, codes "Blandt andet");
   ("m.fl."%string, codes "med flere");
   ("o.a."%string, codes "og andre");
   ("s."%string, codes "side");
   ("o.s.v."%string, (codes "og s" ++ [229%N] ++ codes " videre")%list);
   ("m.m."%string, codes "med mere");
   ("vol."%string, codes "volumen")].

(** [abbreviationsList[key]]; a key that is not in the list gives
    [undefined], which [replace] prints. *)
Definition abbreviation (key : str) : str :=
  match List.find (fun entry => str_eqb (codes (fst entry)) key)
                  ABBREVIATIONS_LIST with
  | Some entry => snd entry
  | None => codes "undefined"
  end.

(** The characters an abbreviation must stand behind, and in front of. *)
Definition BEHIND : list citem := [Space; Chr (code "(")].
Definition AHEAD : list citem :=
  [Space; Chr (code "$"); Chr (code ","); Chr (code "."); Chr (code "!");
   Chr (code "?"); Chr (code ")")].

(** The keys are joined by [|] and every period is escaped, so each key
    is matched literally: a lookbehind for a member of [BEHIND], the
    alternation of the keys as group 1, a lookahead for a member of
    [AHEAD]. *)
Definition abbreviationRegex : regex :=
  Seq (LookBehind false (Class false BEHIND))
  (Seq (Group (alternation (List.map fst ABBREVIATIONS_LIST)))
       (LookAhead false (Class false AHEAD))).

(** [expandAbbreviations]: nothing in the [try] block throws. *)
Definition expandAbbreviations (text : str) : str :=
  replace false text abbreviationRegex abbreviation.

(** A member of the class [items] at index [i]. *)
Definition class_at (s : str) (items : list citem) (i : nat) : bool :=
  match nth_error s i with
  | Some ch => existsb (in_item false ch) items
  | None => false
  end.

(** The string [l] stands at index [i] of [s]. *)
Fixpoint has_at (s : str) (i : nat) (l : str) : bool :=
  match l with
  | [] => true
  | c :: l' =>
      match nth_error s i with
      | Some ch => (c =? ch)%N && has_at s (S i) l'
      | None => false
      end
  end.

(** The abbreviation [w] stands at index [i], directly behind a member of
    [BEHIND] and directly in front of a member of [AHEAD]. *)
Definition abbreviation_at (s : str) (i : nat) (w : string) : Prop :=
  In w (List.map fst ABBREVIATIONS_LIST)
  /\ 1 <= i
  /\ class_at s BEHIND (i - 1) = true
  /\ has_at s i (codes w) = true
  /\ class_at s AHEAD (i + List.length (codes w)) = true.

(** * The shape of a word *)

(** The characters a word of [WORD_REGEX] starts with, and the ones it may
    hold. *)
Definition WORD_CHARS : list citem :=
  [Range (code "a") (code "z"); Range (code "A") (code "Z"); Range 192 255;
   Range (code "0") (code "9")].

Definition INNER_CHARS : list citem :=
  WORD_CHARS ++ [Chr (code "."); Chr (code "'")].

(** When [step] is entered at an index where [Pre] holds and the match
    succeeds, the continuation was entered at an index where [Post]
    holds. *)
Definition triple (s : str) (Pre Post : nat -> Prop)
  (step : continuation -> nat -> captures -> option state) : Prop :=
  forall k i cap st,
    i <= List.length s -> Pre i -> step k i cap = Some st ->
    exists j c, j <= List.length s /\ Post j /\ k j c = Some st.

(** From [start] to [j] there are only members of [INNER_CHARS], the first
    of them a member of [WORD_CHARS]; and the last of them is one too. *)
Definition inner_span (s : str) (start j : nat) : Prop :=
  start < j
  /\ class_at s WORD_CHARS start = true
  /\ forall q, start <= q < j -> class_at s INNER_CHARS q = true.

Definition word_span (s : str) (start j : nat) : Prop :=
  inner_span s start j /\ class_at s WORD_CHARS (j - 1) = true.

(** * Properties *)

(** ** Rational comparisons *)

Lemma Qltb_lt (x y : Q) : Qltb x y = true <-> (x < y)%Q.
Proof.
  unfold Qltb. rewrite negb_true_iff.
  split; intro H.
  - apply Qnot_le_lt. intro Hle. apply Qle_bool_iff in Hle. congruence.
  - destruct (Qle_bool y x) eqn:E; [|reflexivity].
    apply Qle_bool_iff in E. exfalso. exact (Qlt_not_le _ _ H E).
Qed.

Lemma Qltb_ge (x y : Q) : Qltb x y = false <-> (y <= x)%Q.
Proof.
  unfold Qltb. rewrite negb_false_iff. apply Qle_bool_iff.
Qed.

Lemma Qltb_irrefl (x : Q) : Qltb x x = false.
Proof. apply Qltb_ge, Qle_refl. Qed.

Lemma Qltb_sub_pos (x y : Q) : Qltb 0 (x + - y) = Qltb y x.
Proof.
  destruct (Qltb y x) eqn:E.
  - apply Qltb_lt in E. apply Qltb_lt.
    apply (Qplus_lt_l _ _ y). ring_simplify. exact E.
  - apply Qltb_ge in E. apply Qltb_ge.
    apply (Qplus_le_l _ _ y). ring_simplify. exact E.
Qed.

(** The comparator [a - b] on two finite numbers. *)
Lemma compare_finite (x y : Q) :
  gt (sub (Fin x) (Fin y)) (Fin 0) = Qltb y x.
Proof. simpl. apply Qltb_sub_pos. Qed.

(** ** The comparisons with a square root are exact *)

Lemma sqrt_lt_iff (v d : R) :
  (0 <= v -> (sqrt v < d <-> 0 < d /\ v < d * d))%R.
Proof.
  intro Hv. split.
  - intro H. assert (Hs := sqrt_pos v). split; [lra|].
    rewrite <- (sqrt_sqrt v Hv) at 1. nra.
  - intros [Hd Hlt]. rewrite <- (sqrt_square d) by lra.
    apply sqrt_lt_1; nra.
Qed.

Lemma lt_sqrt_iff (v d : R) :
  (0 <= v -> (d < sqrt v <-> d < 0 \/ d * d < v))%R.
Proof.
  intro Hv. split.
  - intro H. destruct (Rlt_dec d 0) as [|Hd]; [left; assumption | right].
    rewrite <- (sqrt_sqrt v Hv). assert (Hs := sqrt_pos v). nra.
  - intros [Hd|Hlt].
    + assert (Hs := sqrt_pos v). lra.
    + destruct (Rlt_dec d 0) as [|Hd]; [assert (Hs := sqrt_pos v); lra|].
      rewrite <- (sqrt_square d) by lra. apply sqrt_lt_1; nra.
Qed.

Lemma Qltb_Rlt (x y : Q) : Qltb x y = true <-> (Q2R x < Q2R y)%R.
Proof.
  rewrite Qltb_lt. split; [apply Qlt_Rlt | apply Rlt_Qlt].
Qed.

Lemma Q2R_nonneg (v : Q) : (0 <= v)%Q -> (0 <= Q2R v)%R.
Proof. intro H. apply Qle_Rle in H. rewrite RMicromega.Q2R_0 in H. exact H. Qed.

(** [x > base + sqrt r] and [x > base - sqrt r], as real numbers. *)
Lemma gt_bound_exact (q base : Q) (minus : bool) (r : Q) :
  (0 <= r)%Q ->
  gt_bound (Fin q) (Surd base minus r) = true
  <-> (bound_value base minus r < Q2R q)%R.
Proof.
  intro Hr. apply Q2R_nonneg in Hr. destruct minus; cbn [gt_bound bound_value].
  - rewrite orb_true_iff, !Qltb_Rlt, Q2R_mult, Q2R_minus, RMicromega.Q2R_0.
    rewrite <- (lt_sqrt_iff _ (Q2R base - Q2R q) Hr). lra.
  - rewrite andb_true_iff, !Qltb_Rlt, Q2R_mult, Q2R_minus, RMicromega.Q2R_0.
    rewrite <- (sqrt_lt_iff _ (Q2R q - Q2R base) Hr). lra.
Qed.

(** [x < base + sqrt r] and [x < base - sqrt r], as real numbers. *)
Lemma lt_bound_exact (q base : Q) (minus : bool) (r : Q) :
  (0 <= r)%Q ->
  lt_bound (Fin q) (Surd base minus r) = true
  <-> (Q2R q < bound_value base minus r)%R.
Proof.
  intro Hr. apply Q2R_nonneg in Hr. destruct minus; cbn [lt_bound bound_value].
  - rewrite andb_true_iff, !Qltb_Rlt, Q2R_mult, Q2R_minus, RMicromega.Q2R_0.
    rewrite <- (sqrt_lt_iff _ (Q2R base - Q2R q) Hr). lra.
  - rewrite orb_true_iff, !Qltb_Rlt, Q2R_mult, Q2R_minus, RMicromega.Q2R_0.
    rewrite <- (lt_sqrt_iff _ (Q2R q - Q2R base) Hr). lra.
Qed.


(** [Math.sqrt] yields [Root r] for non-negative [r] only. *)
Lemma Math_sqrt_Root (x : number) (r : Q) :
  Math_sqrt x = Root r -> (0 <= r)%Q.
Proof.
  destruct x as [| | |q]; cbn [Math_sqrt]; try discriminate.
  destruct (Qltb q 0) eqn:E; [discriminate|].
  intro H. injection H as <-. apply Qltb_ge, E.
Qed.

Lemma getStandardDeviation_Root (array : list number) (r : Q) :
  getStandardDeviation array = Root r -> (0 <= r)%Q.
Proof.
  destruct array as [|x l].
  - intro H. injection H as <-. apply Qle_refl.
  - apply Math_sqrt_Root.
Qed.

(** ** Sorting *)

Section SortFacts.
Context {A : Type}.
Variable comparefn : A -> A -> number.

Lemma insert_perm (x : A) (l : list A) :
  Permutation (insert comparefn x l) (x :: l).
Proof.
  induction l as [|y l IH]; simpl.
  - apply Permutation_refl.
  - destruct (gt (comparefn x y) (Fin 0)).
    + eapply perm_trans; [apply perm_skip, IH | apply perm_swap].
    + apply Permutation_refl.
Qed.

Lemma sort_perm (l : list A) : Permutation (sort comparefn l) l.
Proof.
  induction l as [|x l IH]; simpl.
  - apply perm_nil.
  - eapply perm_trans; [apply insert_perm | apply perm_skip, IH].
Qed.

Lemma sort_length (l : list A) :
  List.length (sort comparefn l) = List.length l.
Proof. apply Permutation_length, sort_perm. Qed.

Lemma sort_nil_inv (l : list A) : sort comparefn l = [] -> l = [].
Proof.
  intro H. apply length_zero_iff_nil.
  rewrite <- sort_length, H. reflexivity.
Qed.

(** Sortedness, for a comparator that is the difference of a rational
    key on the elements that satisfy [P]. *)
Variable key : A -> Q.
Variable P : A -> Prop.
Hypothesis compare_key :
  forall a b, P a -> P b -> gt (comparefn a b) (Fin 0) = Qltb (key b) (key a).

Lemma insert_sorted (x : A) (l : list A) :
  P x -> Forall P l ->
  StronglySorted (key_le key) l -> StronglySorted (key_le key) (insert comparefn x l).
Proof.
  intros Px Pl Hs. induction Hs as [|y l Hs IH Hy]; simpl.
  - constructor; constructor.
  - inversion Pl as [|? ? Py Pl']; subst.
    rewrite (compare_key x y Px Py).
    destruct (Qltb (key y) (key x)) eqn:E'.
    + apply Qltb_lt in E'. constructor; [apply IH; assumption|].
      eapply Permutation_Forall; [apply Permutation_sym, insert_perm|].
      constructor; [apply Qlt_le_weak, E' | exact Hy].
    + apply Qltb_ge in E'. constructor; [constructor; assumption|].
      constructor; [exact E'|].
      eapply Forall_impl; [|exact Hy].
      intros z Hz. unfold key_le in *. eapply Qle_trans; eassumption.
Qed.

Lemma sort_sorted (l : list A) :
  Forall P l -> StronglySorted (key_le key) (sort comparefn l).
Proof.
  induction 1 as [|x l Px Pl IH]; simpl.
  - constructor.
  - apply insert_sorted; [exact Px| |exact IH].
    eapply Permutation_Forall; [apply Permutation_sym, sort_perm | exact Pl].
Qed.
End SortFacts.

Lemma sort_map {A B} (f : A -> B) (cmpA : A -> A -> number)
  (cmpB : B -> B -> number) (l : list A) :
  (forall a b, cmpB (f a) (f b) = cmpA a b) ->
  sort cmpB (List.map f l) = List.map f (sort cmpA l).
Proof.
  intro H.
  assert (Hins : forall x s,
             insert cmpB (f x) (List.map f s) = List.map f (insert cmpA x s)).
  { intros x s. induction s as [|y s IH]; simpl; [reflexivity|].
    rewrite H. destruct (gt (cmpA x y) (Fin 0)); simpl; [rewrite IH|]; reflexivity. }
  induction l as [|x l IH]; simpl; [reflexivity|].
  rewrite IH. apply Hins.
Qed.

(** ** The median *)

Section Median.
Local Open Scope Q_scope.

Notation "l1 =q= l2" := (Forall2 Qeq l1 l2) (at level 70).

Lemma eqs_refl (l : list Q) : l =q= l.
Proof. induction l; constructor; [reflexivity | assumption]. Qed.

Lemma eqs_trans (l1 l2 l3 : list Q) : l1 =q= l2 -> l2 =q= l3 -> l1 =q= l3.
Proof.
  intro H. revert l3. induction H; intros l3 H3; inversion H3; subst;
    constructor; [etransitivity; eassumption | auto].
Qed.

Lemma compareQ_gt (x y : Q) : gt (compareQ x y) (Fin 0) = Qltb y x.
Proof. apply compare_finite. Qed.

Lemma Qltb_compat (x x' y y' : Q) :
  x == x' -> y == y' -> Qltb x y = Qltb x' y'.
Proof.
  intros Hx Hy. unfold Qltb. f_equal. rewrite Hx, Hy. reflexivity.
Qed.

Lemma insert_eqs (x x' : Q) (s s' : list Q) :
  x == x' -> s =q= s' -> insert compareQ x s =q= insert compareQ x' s'.
Proof.
  intros Hx Hs. induction Hs as [|y y' s s' Hy Hs IH]; cbn [insert sort].
  - constructor; [exact Hx | constructor].
  - rewrite !compareQ_gt, (Qltb_compat y y' x x' Hy Hx).
    destruct (Qltb y' x').
    + constructor; assumption.
    + constructor; [exact Hx|]. constructor; assumption.
Qed.

Lemma insert_insert (x y : Q) (s : list Q) :
  insert compareQ y (insert compareQ x s)
  =q= insert compareQ x (insert compareQ y s).
Proof.
  assert (Hbase : forall t,
    (if Qltb x y then x :: y :: t else y :: x :: t)
    =q= (if Qltb y x then y :: x :: t else x :: y :: t)).
  { intro t. destruct (Qltb x y) eqn:Exy, (Qltb y x) eqn:Eyx;
      try apply eqs_refl.
    - apply Qltb_lt in Exy, Eyx. exfalso.
      exact (Qlt_irrefl _ (Qlt_trans _ _ _ Exy Eyx)).
    - apply Qltb_ge in Exy, Eyx.
      assert (x == y) by (apply Qle_antisym; assumption).
      constructor; [symmetry; assumption|].
      constructor; [assumption | apply eqs_refl]. }
  induction s as [|z s IH]; cbn [insert].
  - rewrite !compareQ_gt. apply Hbase.
  - rewrite !compareQ_gt.
    destruct (Qltb z x) eqn:Ezx, (Qltb z y) eqn:Ezy; cbn [insert];
      rewrite !compareQ_gt, ?Ezx, ?Ezy.
    + constructor; [reflexivity | exact IH].
    + assert (Hyx : Qltb y x = true).
      { apply Qltb_lt in Ezx. apply Qltb_ge in Ezy.
        apply Qltb_lt. eapply Qle_lt_trans; eassumption. }
      rewrite Hyx. apply eqs_refl.
    + assert (Hxy : Qltb x y = true).
      { apply Qltb_lt in Ezy. apply Qltb_ge in Ezx.
        apply Qltb_lt. eapply Qle_lt_trans; eassumption. }
      rewrite Hxy. apply eqs_refl.
    + apply Hbase.
Qed.

(** Sorting two permutations of one sequence gives the same numbers at
    every index. *)
Lemma sort_permutation (l l' : list Q) :
  Permutation l l' -> sort compareQ l =q= sort compareQ l'.
Proof.
  induction 1 as [|x l l' _ IH|x y l|l1 l2 l3 _ IH1 _ IH2]; cbn [insert sort].
  - constructor.
  - apply insert_eqs; [reflexivity | exact IH].
  - apply insert_insert.
  - eapply eqs_trans; eassumption.
Qed.




Lemma eqs_nth (l l' : list Q) (i : nat) :
  l =q= l' -> nth i l 0 == nth i l' 0.
Proof.
  intro H. revert i. induction H; intros [|i]; simpl;
    try reflexivity; auto.
Qed.

Lemma eqs_length (l l' : list Q) : l =q= l' -> List.length l = List.length l'.
Proof. induction 1; simpl; congruence. Qed.

Lemma middle_eqs (l l' : list Q) : l =q= l' -> middle l == middle l'.
Proof.
  intro H. unfold middle. rewrite <- (eqs_length _ _ H).
  destruct (Nat.even (List.length l)).
  - rewrite (eqs_nth _ _ (List.length l / 2 - 1) H),
            (eqs_nth _ _ (List.length l / 2) H). reflexivity.
  - apply eqs_nth, H.
Qed.

Lemma even_mod2 (n : nat) : (n mod 2 =? 0)%nat = Nat.even n.
Proof.
  destruct (Nat.even n) eqn:E.
  - apply Nat.even_spec in E. destruct E as [k ->].
    apply Nat.eqb_eq. rewrite Nat.mul_comm. apply Nat.Div0.mod_mul.
  - apply Nat.eqb_neq. intro H.
    assert (Nat.even n = true); [|congruence].
    apply Nat.even_spec. exists (n / 2)%nat.
    rewrite (Nat.div_mod_eq n 2) at 1. lia.
Qed.

(** [getMedian] on finite numbers is the middle of the sorted array. *)
Lemma getMedian_finite (array : list Q) :
  array <> [] ->
  getMedian (List.map Fin array) = Some (Fin (middle (sort compareQ array))).
Proof.
  intro Hne. unfold getMedian, middle.
  rewrite (sort_map Fin compareQ compareNumbers array (fun a b => eq_refl)).
  rewrite length_map, !nth_error_map, even_mod2.
  set (s := sort compareQ array).
  assert (Hlen : List.length s = List.length array) by apply sort_length.
  assert (Hpos : (0 < List.length s)%nat).
  { rewrite Hlen. destruct array; [congruence | simpl; lia]. }
  assert (Hmid : (List.length s / 2 < List.length s)%nat)
    by (apply Nat.div_lt; lia).
  destruct (Nat.even (List.length s)) eqn:Ev.
  - assert (H1 : (1 <? List.length s)%nat = true).
    { apply Nat.ltb_lt. destruct (List.length s) as [|[|n]]; [lia| |lia].
      discriminate. }
    rewrite H1. cbn [andb].
    rewrite (nth_error_nth' s 0 Hmid).
    rewrite (nth_error_nth' s 0 (n := (List.length s / 2 - 1)%nat)) by lia.
    reflexivity.
  - cbn [andb]. rewrite (nth_error_nth' s 0 Hmid). reflexivity.
Qed.
End Median.



(** ** The tokenizer *)

Lemma filter_subsequence {A} (f : A -> bool) (l : list A) :
  subsequence (List.filter f l) l.
Proof.
  induction l as [|x l IH]; simpl.
  - constructor.
  - destruct (f x); constructor; exact IH.
Qed.

Lemma filter_count_occ (f : str -> bool) (l : list str) (w : str) :
  f w = true ->
  count_occ str_dec (List.filter f l) w = count_occ str_dec l w.
Proof.
  intro Hw. induction l as [|x l IH]; simpl; [reflexivity|].
  destruct (f x) eqn:E; simpl.
  - destruct (str_dec x w); congruence.
  - destruct (str_dec x w) as [->|]; congruence.
Qed.

(** C10. For every input text, every long word is longer than 6 code
    units, the long words are the words filtered by that test (a
    subsequence of the words that keeps every occurrence of a long word),
    and there are at most as many long words as words. *)
Theorem long_words_of_words (text : str) :
  Forall (fun w => 6 < List.length w) (long_words (extractContentFromText text))
  /\ long_words (extractContentFromText text)
     = List.filter (fun w => 6 <? List.length w)
         (words (extractContentFromText text))
  /\ subsequence (long_words (extractContentFromText text))
                 (words (extractContentFromText text))
  /\ (forall w, 6 < List.length w ->
        count_occ str_dec (long_words (extractContentFromText text)) w
        = count_occ str_dec (words (extractContentFromText text)) w)
  /\ List.length (long_words (extractContentFromText text))
     <= List.length (words (extractContentFromText text)).
Proof.
  unfold extractContentFromText. cbn [long_words words].
  set (ws := match match_global false text WORD_REGEX with
             | Some found => List.filter (fun word => 0 <? List.length word) found
             | None => []
             end).
  repeat split.
  - apply Forall_forall. intros w Hw.
    apply filter_In in Hw. apply Nat.ltb_lt, Hw.
  - apply filter_subsequence.
  - intros w Hw. apply filter_count_occ. apply Nat.ltb_lt, Hw.
  - apply filter_length_le.
Qed.

Lemma long_words_of_words_witness :
  count_occ str_dec
    (long_words (extractContentFromText (codes "reading readers reading")))
    (codes "reading")
  = count_occ str_dec
      (words (extractContentFromText (codes "reading readers reading")))
      (codes "reading").
Proof.
  apply (long_words_of_words (codes "reading readers reading")).
  vm_compute. lia.
Defined.

(** The sentences of the sample text: the period after the abbreviation
    ends a sentence. *)
Example sentences_of_sample :
  sentences (extractContentFromText (codes "Mr. Smith went home. He left."))
  = List.map codes ["Mr."; "Smith went home."; "He left."]%string.
Proof. vm_compute. reflexivity. Qed.

(** C5, as stated, fails: the sample text does not give two sentences,
    and its word list does not hold the abbreviation with its period. *)
Lemma sample_tokens_counterexample :
  ~ (List.length
       (sentences (extractContentFromText (codes "Mr. Smith went home. He left.")))
     = 2
     /\ In (codes "Mr.")
          (words (extractContentFromText (codes "Mr. Smith went home. He left.")))
     /\ In (codes "Smith")
          (words (extractContentFromText (codes "Mr. Smith went home. He left.")))).
Proof.
  intros [H _]. vm_compute in H. discriminate H.
Qed.

(** C5, amended. For the input text "Mr. Smith went home. He left." the
    word list is Mr, Smith, went, home, He, left: the abbreviation (without
    its period, which no letter follows) and Smith are distinct word
    tokens. *)
Theorem sample_words :
  words (extractContentFromText (codes "Mr. Smith went home. He left."))
  = List.map codes ["Mr"; "Smith"; "went"; "home"; "He"; "left"]%string.
Proof. vm_compute. reflexivity. Qed.

(** ** The in-text search *)

(** C6, as stated, fails: the search finds a value in the second text. *)
Lemma searchForLixInText_counterexample :
  ~ (searchForLixInText (codes "Forfatterens LIX-tal: 42.") = Some (of_Z 42)
     /\ searchForLixInText (codes "LIX142") = None).
Proof.
  intros [_ H]. vm_compute in H. discriminate H.
Qed.

(** C6, amended. The search returns 42 on "Forfatterens LIX-tal: 42." and
    14 on "LIX142": the lookahead refuses the captured digits only when an
    optional digit and then a minus or plus sign follow them, as in
    "LIX 14-20", where nothing is found. *)
Theorem searchForLixInText_samples :
  searchForLixInText (codes "Forfatterens LIX-tal: 42.") = Some (of_Z 42)
  /\ searchForLixInText (codes "LIX142") = Some (of_Z 14)
  /\ searchForLixInText (codes "LIX 14-20") = None.
Proof. vm_compute. repeat split. Qed.

(** ** The manifest *)

(** C8 at a manifest without markup content: an empty array is truthy, so
    the guard does not fire and the empty list of paths is returned. *)
Example extractItemPathsFromManifest_no_markup :
  extractItemPathsFromManifest (Some stylesheet_manifest) (codes "OEBPS") = OK [].
Proof. reflexivity. Qed.

(** The guard never fires: whenever the manifest has entries the function
    returns. *)
Lemma extractItemPathsFromManifest_returns
  (manifest : list ManifestItem) (opfRoot : str) :
  exists paths, extractItemPathsFromManifest (Some manifest) opfRoot = OK paths.
Proof. eexists. reflexivity. Qed.

(** ** Sums and the standard deviation *)

Lemma add_finite_inv (a b : number) (q : Q) :
  add a b = Fin q -> is_finite a = true /\ is_finite b = true.
Proof. destruct a, b; simpl; intro H; try discriminate H; auto. Qed.

Lemma add_NaN_r (a : number) : add a NaN = NaN.
Proof. destruct a; reflexivity. Qed.

Lemma fold_add_NaN (l : list number) : fold_left add l NaN = NaN.
Proof. induction l as [|x l IH]; simpl; [reflexivity | exact IH]. Qed.

Lemma fold_add_In_NaN (l : list number) (acc : number) :
  In NaN l -> fold_left add l acc = NaN.
Proof.
  revert acc. induction l as [|x l IH]; intros acc Hin; [destruct Hin|].
  destruct Hin as [Hx|Hin]; simpl.
  - subst x. rewrite add_NaN_r. apply fold_add_NaN.
  - apply IH, Hin.
Qed.

Lemma fold_add_finite_inv (l : list number) (acc : number) (q : Q) :
  fold_left add l acc = Fin q ->
  is_finite acc = true /\ Forall (fun x => is_finite x = true) l.
Proof.
  revert acc. induction l as [|x l IH]; simpl; intros acc H.
  - rewrite H. split; [reflexivity | constructor].
  - destruct (IH _ H) as [Ha Hl].
    destruct acc, x; simpl in Ha; try discriminate Ha.
    split; [reflexivity|]. constructor; [reflexivity | exact Hl].
Qed.

Lemma fold_add_finite (l : list number) (acc : number) :
  is_finite acc = true -> Forall (fun x => is_finite x = true) l ->
  is_finite (fold_left add l acc) = true.
Proof.
  intros Ha Hl. revert acc Ha.
  induction Hl as [|x l Hx Hl IH]; simpl; intros acc Ha; [exact Ha|].
  apply IH. destruct acc, x; try discriminate; reflexivity.
Qed.

Lemma fold_add_PInf (l : list number) (acc : number) :
  fold_left add l acc = PInf -> acc = PInf \/ In PInf l.
Proof.
  revert acc. induction l as [|x l IH]; simpl; intros acc H; [auto|].
  destruct (IH _ H) as [Ha|Hin]; [|auto].
  destruct acc, x; simpl in Ha; try discriminate Ha; auto.
Qed.

Lemma fold_add_NInf (l : list number) (acc : number) :
  fold_left add l acc = NInf -> acc = NInf \/ In NInf l.
Proof.
  revert acc. induction l as [|x l IH]; simpl; intros acc H; [auto|].
  destruct (IH _ H) as [Ha|Hin]; [|auto].
  destruct acc, x; simpl in Ha; try discriminate Ha; auto.
Qed.

Lemma of_nat_S_nonzero (n : nat) : Qeq_bool (inject_Z (Z.of_nat (S n))) 0 = false.
Proof.
  destruct (Qeq_bool (inject_Z (Z.of_nat (S n))) 0) eqn:E; [|reflexivity].
  apply Qeq_bool_iff in E. unfold Qeq in E. simpl in E. lia.
Qed.

Lemma of_nat_S_positive (n : nat) : Qltb (inject_Z (Z.of_nat (S n))) 0 = false.
Proof.
  apply Qltb_ge. unfold Qle. simpl. lia.
Qed.

Lemma div_by_length (a : number) (n : nat) :
  div a (of_nat (S n)) =
  match a with
  | Fin x => Fin (x / inject_Z (Z.of_nat (S n)))
  | _ => a
  end.
Proof.
  destruct a; unfold div, of_nat, of_Z;
    rewrite ?of_nat_S_nonzero, ?of_nat_S_positive; reflexivity.
Qed.

(** The standard deviation is [NaN] unless every number is finite. *)
Lemma getStandardDeviation_finite (array : list number) :
  getStandardDeviation array <> RNaN ->
  Forall (fun x => is_finite x = true) array
  /\ exists v, getStandardDeviation array = Root v.
Proof.
  destruct array as [|x l]; [intros _; split; [constructor | exists 0%Q; reflexivity]|].
  unfold getStandardDeviation.
  change (List.length (x :: l)) with (S (List.length l)).
  rewrite !div_by_length.
  set (mean := match fold_left add l x with
               | Fin x0 => Fin (x0 / inject_Z (Z.of_nat (S (List.length l))))
               | _ => fold_left add l x
               end).
  set (sq := List.map (fun devi => mul devi devi)
               (List.map (fun num => sub num mean) (x :: l))).
  intro Hsd.
  assert (Hnan : forall y, In y (x :: l) -> sub y mean = NaN ->
                           fold_left add sq (Fin 0) = NaN).
  { intros y Hy E. apply fold_add_In_NaN. unfold sq.
    apply in_map_iff. exists NaN. split; [reflexivity|].
    apply in_map_iff. exists y. split; assumption. }
  destruct (fold_left add l x) as [| | |q] eqn:Hsum.
  - exfalso. apply Hsd.
    rewrite (Hnan x (or_introl eq_refl)); [reflexivity|].
    unfold mean. destruct x; reflexivity.
  - exfalso. apply Hsd.
    destruct (fold_add_PInf _ _ Hsum) as [Hx|Hin].
    + rewrite (Hnan x (or_introl eq_refl)); [reflexivity|].
      unfold mean. rewrite Hx. reflexivity.
    + rewrite (Hnan PInf (or_intror Hin)); reflexivity.
  - exfalso. apply Hsd.
    destruct (fold_add_NInf _ _ Hsum) as [Hx|Hin].
    + rewrite (Hnan x (or_introl eq_refl)); [reflexivity|].
      unfold mean. rewrite Hx. reflexivity.
    + rewrite (Hnan NInf (or_intror Hin)); reflexivity.
  - destruct (fold_add_finite_inv _ _ _ Hsum) as [Hx Hl].
    assert (Hall : Forall (fun y => is_finite y = true) (x :: l))
      by (constructor; assumption).
    split; [exact Hall|].
    assert (Hsq : Forall (fun y => is_finite y = true) sq).
    { unfold sq. rewrite map_map. apply Forall_map.
      eapply Forall_impl; [|exact Hall].
      intros y Hy. unfold mean. destruct y; try discriminate Hy. reflexivity. }
    assert (Hvar := fold_add_finite sq (Fin 0) eq_refl Hsq).
    destruct (fold_left add sq (Fin 0)) as [| | |t] eqn:Ht; try discriminate Hvar.
    unfold Math_sqrt in *.
    destruct (Qltb (t / inject_Z (Z.of_nat (S (List.length l)))) 0).
    + congruence.
    + eauto.
Qed.

(** ** The outlier filter *)

Lemma get_app_length {A} (kept rest : list A) (x : A) :
  get (kept ++ x :: rest) (Z.of_nat (List.length kept)) = Some x.
Proof.
  unfold get. destruct (Z.ltb_spec (Z.of_nat (List.length kept)) 0); [lia|].
  rewrite Nat2Z.id, nth_error_app2, Nat.sub_diag by lia. reflexivity.
Qed.

Lemma splice1_app_length {A} (kept rest : list A) (x : A) :
  splice1 (kept ++ x :: rest) (Z.of_nat (List.length kept)) = kept ++ rest.
Proof.
  unfold splice1. rewrite Nat2Z.id.
  rewrite firstn_app, firstn_all, Nat.sub_diag, app_nil_r.
  rewrite skipn_app, skipn_all2 by lia.
  replace (S (List.length kept) - List.length kept) with 1 by lia.
  reflexivity.
Qed.

Lemma get_before_length {A} (kept rest : list A) :
  kept <> [] ->
  exists y, In y kept
            /\ get (kept ++ rest) (Z.of_nat (List.length kept) - 1) = Some y.
Proof.
  intro Hne. destruct (exists_last Hne) as (k & y & ->).
  exists y. split; [apply in_or_app; right; left; reflexivity|].
  rewrite length_app, <- app_assoc. simpl.
  replace (Z.of_nat (List.length k + 1) - 1)%Z with (Z.of_nat (List.length k)) by lia.
  apply get_app_length.
Qed.

(** The loop is a filter: started behind the items [kept] it has decided to
    keep, it returns them followed by the items of [rest] that are within
    the bounds. *)
Lemma removeOutliers_filter (upperBound lowerBound : bound)
  (rest kept : list SpineItemContent) (fuel : nat) :
  List.length rest <= fuel ->
  Forall (fun item => within upperBound lowerBound item = true) kept ->
  kept <> [] \/ safe upperBound lowerBound rest ->
  removeOutliers fuel upperBound lowerBound (kept ++ rest)
    (Z.of_nat (List.length kept))
  = kept ++ List.filter (within upperBound lowerBound) rest.
Proof.
  revert kept fuel.
  induction rest as [|x rest IH]; intros kept fuel Hfuel Hkept Hsafe.
  - destruct fuel; cbn [removeOutliers List.filter]; [reflexivity|].
    rewrite app_nil_r.
    destruct (Z.ltb_spec (Z.of_nat (List.length kept))
                         (Z.of_nat (List.length kept))); [lia | reflexivity].
  - destruct fuel as [|fuel]; [simpl in Hfuel; lia|].
    simpl in Hfuel. cbn [removeOutliers].
    destruct (Z.ltb_spec (Z.of_nat (List.length kept))
                (Z.of_nat (List.length (kept ++ x :: rest)))) as [_|Hge];
      [|rewrite length_app in Hge; simpl in Hge; lia].
    rewrite get_app_length.
    cbn [List.filter].
    assert (Hwx : within upperBound lowerBound x
                  = negb (gt_bound (generated_lix x) upperBound)
                    && negb (lt_bound (generated_lix x) lowerBound))
      by reflexivity.
    destruct (gt_bound (generated_lix x) upperBound) eqn:Hgt.
    + assert (Hne : kept <> []).
      { destruct Hsafe as [Hne|[Hs _]]; [exact Hne | congruence]. }
      rewrite splice1_app_length.
      destruct (get_before_length kept rest Hne) as (y & Hy & ->).
      assert (Hw : within upperBound lowerBound y = true)
        by (exact (proj1 (Forall_forall _ _) Hkept y Hy)).
      unfold within in Hw. apply andb_true_iff in Hw. destruct Hw as [_ Hlt].
      apply negb_true_iff in Hlt. rewrite Hlt.
      replace (Z.of_nat (List.length kept) - 1 + 1)%Z
        with (Z.of_nat (List.length kept)) by lia.
      rewrite Hwx. cbn [negb andb].
      apply IH; [lia | exact Hkept | left; exact Hne].
    + rewrite get_app_length.
      destruct (lt_bound (generated_lix x) lowerBound) eqn:Hlt.
      * rewrite splice1_app_length.
        replace (Z.of_nat (List.length kept) - 1 + 1)%Z
          with (Z.of_nat (List.length kept)) by lia.
        rewrite Hwx. cbn [negb andb]. apply IH; [lia | exact Hkept|].
        destruct Hsafe as [Hne|[_ Hs]]; [left; exact Hne | right; auto].
      * rewrite Hwx. cbn [negb andb].
        replace (kept ++ x :: rest) with ((kept ++ [x]) ++ rest)
          by (rewrite <- app_assoc; reflexivity).
        replace (Z.of_nat (List.length kept) + 1)%Z
          with (Z.of_nat (List.length (kept ++ [x])))
          by (rewrite length_app; simpl; lia).
        rewrite IH; [rewrite <- app_assoc; reflexivity | lia | |].
        -- apply Forall_app. split; [exact Hkept|].
           constructor; [|constructor].
           unfold within. rewrite Hgt, Hlt. reflexivity.
        -- left. destruct kept; discriminate.
Qed.

Lemma splice1_length {A} (array : list A) (i : Z) (x : A) :
  get array i = Some x ->
  (0 <= i)%Z /\ S (List.length (splice1 array i)) = List.length array.
Proof.
  unfold get, splice1. destruct (Z.ltb_spec i 0) as [|Hi]; [discriminate|].
  intro Hx. split; [lia|].
  assert (Hlt : Z.to_nat i < List.length array)
    by (apply nth_error_Some; congruence).
  rewrite length_app, length_firstn, length_skipn. lia.
Qed.

(** Any fuel from [length sortedArr - i] on gives the same array. *)
Lemma removeOutliers_fuel (upperBound lowerBound : bound) (f1 f2 : nat) :
  forall (arr : list SpineItemContent) (i : Z),
    (Z.of_nat (List.length arr) - i <= Z.of_nat f1)%Z ->
    (Z.of_nat (List.length arr) - i <= Z.of_nat f2)%Z ->
    removeOutliers f1 upperBound lowerBound arr i
    = removeOutliers f2 upperBound lowerBound arr i.
Proof.
  assert (Hend : forall f (arr : list SpineItemContent) i,
             (Z.of_nat (List.length arr) <= i)%Z ->
             removeOutliers f upperBound lowerBound arr i = arr).
  { intros [|f] arr i Hi; cbn [removeOutliers]; [reflexivity|].
    destruct (Z.ltb_spec i (Z.of_nat (List.length arr))); [lia | reflexivity]. }
  revert f2. induction f1 as [|f1 IH]; intros f2 arr i H1 H2.
  - rewrite !Hend by lia. reflexivity.
  - destruct f2 as [|f2]; [rewrite !Hend by lia; reflexivity|].
    cbn [removeOutliers].
    destruct (i <? Z.of_nat (List.length arr))%Z; [|reflexivity].
    destruct (get arr i) as [item|] eqn:E; [|reflexivity].
    destruct (splice1_length _ _ _ E) as [Hi Hlen].
    destruct (gt_bound (generated_lix item) upperBound).
    + destruct (get (splice1 arr i) (i - 1)) as [item'|] eqn:E';
        [|reflexivity].
      destruct (splice1_length _ _ _ E') as [Hi' Hlen'].
      destruct (lt_bound (generated_lix item') lowerBound); apply IH; lia.
    + rewrite E.
      destruct (lt_bound (generated_lix item) lowerBound); apply IH; lia.
Qed.

(** The loop only removes items. *)
Lemma removeOutliers_incl (upperBound lowerBound : bound) (fuel : nat) :
  forall (arr : list SpineItemContent) (i : Z) (x : SpineItemContent),
    In x (removeOutliers fuel upperBound lowerBound arr i) -> In x arr.
Proof.
  assert (Hsplice : forall (arr : list SpineItemContent) i x,
             In x (splice1 arr i) -> In x arr).
  { intros arr i x H. unfold splice1 in H. apply in_app_or in H.
    rewrite <- (firstn_skipn (Z.to_nat i) arr). apply in_or_app.
    destruct H as [H|H]; [left; exact H | right].
    change (S (Z.to_nat i)) with (1 + Z.to_nat i) in H.
    rewrite <- skipn_skipn in H.
    destruct (skipn (Z.to_nat i) arr); [exact H | right; exact H]. }
  induction fuel as [|fuel IH]; intros arr i x H; cbn [removeOutliers] in H;
    [exact H|].
  destruct (i <? Z.of_nat (List.length arr))%Z; [|exact H].
  destruct (get arr i) as [item|]; [|exact H].
  destruct (gt_bound (generated_lix item) upperBound).
  - destruct (get (splice1 arr i) (i - 1)) as [item'|];
      [|exact (Hsplice _ _ _ H)].
    destruct (lt_bound (generated_lix item') lowerBound);
      apply IH in H; eauto.
  - destruct (get arr i) as [item'|]; [|exact H].
    destruct (lt_bound (generated_lix item') lowerBound);
      apply IH in H; eauto.
Qed.

Lemma finite_lix_qlix (item : SpineItemContent) :
  finite_lix item -> generated_lix item = Fin (qlix item).
Proof.
  unfold finite_lix, qlix. destruct (generated_lix item); try discriminate.
  reflexivity.
Qed.

Lemma compareLix_key (a b : SpineItemContent) :
  finite_lix a -> finite_lix b ->
  gt (compareLix a b) (Fin 0) = Qltb (qlix b) (qlix a).
Proof.
  intros Ha Hb. unfold compareLix.
  rewrite (finite_lix_qlix a Ha), (finite_lix_qlix b Hb).
  apply compare_finite.
Qed.

Lemma sort_compareLix_sorted (items : list SpineItemContent) :
  Forall finite_lix items ->
  StronglySorted (key_le qlix) (sort compareLix items).
Proof. apply sort_sorted, compareLix_key. Qed.

Lemma gt_upper_le (x mid : SpineItemContent) (v : Q) :
  finite_lix x -> (qlix x <= qlix mid)%Q ->
  gt_bound (generated_lix x) (Surd (qlix mid) false v) = false.
Proof.
  intros Hx Hle. rewrite (finite_lix_qlix x Hx). cbn [gt_bound].
  unfold Qminus. rewrite Qltb_sub_pos.
  apply Qltb_ge in Hle. rewrite Hle. reflexivity.
Qed.

Lemma lt_lower_lt (x mid : SpineItemContent) (v : Q) :
  finite_lix x ->
  lt_bound (generated_lix x) (Surd (qlix mid) true v) = true ->
  (qlix x < qlix mid)%Q.
Proof.
  intros Hx. rewrite (finite_lix_qlix x Hx). cbn [lt_bound].
  unfold Qminus. rewrite Qltb_sub_pos. intro H.
  apply andb_true_iff in H. apply Qltb_lt, H.
Qed.

(** In the sorted array no item above the upper bound comes before the
    middle item, which is kept. *)
Lemma safe_sorted (mid : SpineItemContent) (v : Q) (l : list SpineItemContent) :
  StronglySorted (key_le qlix) l ->
  Forall finite_lix l ->
  In mid l ->
  safe (Surd (qlix mid) false v) (Surd (qlix mid) true v) l.
Proof.
  induction 1 as [|x l Hs IH Hx]; intros Hfin Hin; [exact I|].
  inversion Hfin as [|? ? Hfx Hfl]; subst.
  assert (Hle : (qlix x <= qlix mid)%Q).
  { destruct Hin as [->|Hin]; [apply Qle_refl|].
    exact (proj1 (Forall_forall _ _) Hx mid Hin). }
  split; [apply gt_upper_le; assumption|].
  intro Hlt. apply IH; [exact Hfl|].
  destruct Hin as [->|Hin]; [|exact Hin].
  apply lt_lower_lt in Hlt; [|exact Hfx].
  exfalso. exact (Qlt_irrefl _ Hlt).
Qed.

Lemma toFixed0_finite (a : number) :
  is_finite (toFixed0 a) = true -> is_finite a = true.
Proof. destruct a; simpl; auto. Qed.

Lemma middle_item (items : list SpineItemContent) :
  items <> [] ->
  exists midItem,
    nth_error (sort compareLix items)
              (List.length (sort compareLix items) / 2) = Some midItem
    /\ In midItem (sort compareLix items).
Proof.
  intro Hne.
  destruct (nth_error (sort compareLix items)
              (List.length (sort compareLix items) / 2)) as [m|] eqn:E.
  - exists m. split; [reflexivity|]. eapply nth_error_In, E.
  - exfalso. apply nth_error_None in E.
    assert (0 < List.length (sort compareLix items)).
    { rewrite sort_length. destruct items; [congruence | simpl; lia]. }
    assert (List.length (sort compareLix items) / 2
            < List.length (sort compareLix items)) by (apply Nat.div_lt; lia).
    lia.
Qed.


(** An item is within the bounds when its score lies between
    [mid - sqrt r] and [mid + sqrt r], ends included. *)
Lemma within_exact (item : SpineItemContent) (mid r q : Q) :
  (0 <= r)%Q ->
  generated_lix item = Fin q ->
  within (Surd mid false r) (Surd mid true r) item = true
  <-> (bound_value mid true r <= Q2R q <= bound_value mid false r)%R.
Proof.
  intros Hr Hq. unfold within. rewrite Hq, andb_true_iff, !negb_true_iff.
  rewrite <- !not_true_iff_false.
  rewrite (gt_bound_exact q mid false r Hr), (lt_bound_exact q mid true r Hr).
  lra.
Qed.

(** When the standard deviation exceeds the cap, every score is finite,
    the middle item is within the bounds and the loop is the filter. *)
Lemma filter_is_keptAround (items : list SpineItemContent) (maxStdDev : number) :
  items <> [] ->
  root_gt (stdDevOf items) maxStdDev = true ->
  filterItemsUsingStandardDeviation items maxStdDev
  = OK (keptAround (midValueOf items) items)
  /\ keptAround (midValueOf items) items <> [].
Proof.
  intros Hne Hgt.
  destruct (middle_item items Hne) as (midItem & Hmid & Hin).
  unfold filterItemsUsingStandardDeviation, keptAround, midValueOf.
  rewrite Hmid. fold (roundedScores items). fold (stdDevOf items).
  rewrite Hgt.
  assert (Hsd : stdDevOf items <> RNaN).
  { intro E. rewrite E in Hgt. discriminate Hgt. }
  destruct (getStandardDeviation_finite _ Hsd) as [Hfin [v Hv]].
  fold (stdDevOf items) in Hv. rewrite Hv.
  assert (Hfin' : Forall finite_lix (sort compareLix items)).
  { unfold roundedScores in Hfin. rewrite Forall_map in Hfin.
    eapply Forall_impl; [|exact Hfin].
    intros a Ha. apply toFixed0_finite, Ha. }
  assert (Hitems : Forall finite_lix items).
  { eapply Permutation_Forall; [apply sort_perm | exact Hfin']. }
  assert (Hfm : finite_lix midItem)
    by (exact (proj1 (Forall_forall _ _) Hfin' midItem Hin)).
  unfold toPrecision_roundtrip. rewrite (finite_lix_qlix midItem Hfm).
  cbn [add_root sub_root].
  split.
  - f_equal.
    apply (removeOutliers_filter _ _ (sort compareLix items) []);
      [lia | constructor|].
    right. apply safe_sorted; [|exact Hfin' | exact Hin].
    apply sort_compareLix_sorted, Hitems.
  - intro E.
    assert (Hk : In midItem
                   (List.filter
                      (within (Surd (qlix midItem) false v)
                              (Surd (qlix midItem) true v))
                      (sort compareLix items))).
    { apply filter_In. split; [exact Hin|].
      unfold within.
      rewrite (gt_upper_le midItem midItem v Hfm (Qle_refl _)).
      destruct (lt_bound (generated_lix midItem) (Surd (qlix midItem) true v))
        eqn:Elt; [|reflexivity].
      apply lt_lower_lt in Elt; [|exact Hfm].
      exfalso. exact (Qlt_irrefl _ Elt). }
    rewrite E in Hk. exact Hk.
Qed.



(** What is kept of the four scores: the two items of score 39. *)
Example outliers_of_two_low_two_high :
  filterItemsUsingStandardDeviation two_low_two_high STANDARD_DEVIATION_FACTOR
  = OK [scored "b" 39; scored "d" 39]
  /\ keptAroundMedian two_low_two_high
     = [scored "a" 1; scored "c" 1; scored "b" 39; scored "d" 39].
Proof. vm_compute. split; reflexivity. Qed.




(** ** The matcher: the fuel of its loops is enough *)

Section MatcherFacts.
Variable ic : bool.
Variable s : str.

Lemma star_loop_reaches
  (step : continuation -> nat -> captures -> option state) :
  reaches s step -> forall fuel, reaches s (fun k => star_loop step k fuel).
Proof.
  intros Hstep fuel. induction fuel as [|fuel IH]; intros k i cap st Hi H;
    cbn [star_loop] in H.
  - exists i, cap. split; [lia | exact H].
  - destruct (step _ i cap) as [s0|] eqn:E.
    + injection H as ->.
      destruct (Hstep _ _ _ _ Hi E) as (j & c & Hj & Hk).
      destruct (Nat.eqb_spec j i) as [->|Hne]; [discriminate Hk|].
      assert (Hj2 : j <= List.length s) by lia.
      destruct (IH k j c st Hj2 Hk) as (j' & c' & Hj' & Hk').
      exists j', c'. split; [lia | exact Hk'].
    + exists i, cap. split; [lia | exact H].
Qed.

Lemma star_loop_local
  (step : continuation -> nat -> captures -> option state) :
  local s step -> forall fuel, local s (fun k => star_loop step k fuel).
Proof.
  intros Hstep fuel. induction fuel as [|fuel IH]; intros k1 k2 i cap Hi Hk;
    cbn [star_loop].
  - apply Hk. lia.
  - rewrite (Hstep _ (fun j c => if j =? i then None
                                 else star_loop step k2 fuel j c) i cap Hi).
    + rewrite (Hk i cap) by lia. reflexivity.
    + intros j c Hj. destruct (j =? i); [reflexivity|].
      apply IH; [lia|]. intros j' c' Hj'. apply Hk. lia.
Qed.

Lemma m_reaches (r : regex) : reaches s (m ic s r).
Proof.
  induction r as [|negated items|r1 IH1 r2 IH2|r1 IH1 r2 IH2|r1 IH1|r1 IH1
                  |negated r1 IH1|negated r1 IH1];
    intros k i cap st Hi H; cbn [m] in H.
  - exists i, cap. split; [lia | exact H].
  - destruct (nth_error s i) as [ch|] eqn:E; [|discriminate H].
    assert (i < List.length s) by (apply nth_error_Some; congruence).
    destruct (xorb _ _); [|discriminate H].
    exists (S i), cap. split; [lia | exact H].
  - destruct (IH1 _ _ _ _ Hi H) as (j & c & Hj & H2).
    assert (Hj2 : j <= List.length s) by lia.
    destruct (IH2 _ _ _ _ Hj2 H2) as (j' & c' & Hj' & Hk).
    exists j', c'. split; [lia | exact Hk].
  - destruct (m ic s r1 k i cap) as [s0|] eqn:E.
    + injection H as ->. exact (IH1 _ _ _ _ Hi E).
    + exact (IH2 _ _ _ _ Hi H).
  - exact (star_loop_reaches _ IH1 _ k i cap st Hi H).
  - destruct (IH1 _ _ _ _ Hi H) as (j & c & Hj & Hk). eauto.
  - destruct (m ic s r1 _ i cap) as [[e c]|]; destruct negated;
      try discriminate H; eexists i, _; (split; [lia | exact H]).
  - destruct (xorb _ _); [|discriminate H].
    exists i, cap. split; [lia | exact H].
Qed.

Lemma m_local (r : regex) : local s (m ic s r).
Proof.
  induction r as [|negated items|r1 IH1 r2 IH2|r1 IH1 r2 IH2|r1 IH1|r1 IH1
                  |negated r1 IH1|negated r1 IH1];
    intros k1 k2 i cap Hi Hk; cbn [m].
  - apply Hk. lia.
  - destruct (nth_error s i) as [ch|] eqn:E; [|reflexivity].
    assert (i < List.length s) by (apply nth_error_Some; congruence).
    destruct (xorb _ _); [|reflexivity]. apply Hk. lia.
  - apply IH1; [exact Hi|]. intros j c Hj.
    apply IH2; [lia|]. intros j' c' Hj'. apply Hk. lia.
  - rewrite (IH1 k1 k2 i cap Hi Hk), (IH2 k1 k2 i cap Hi Hk). reflexivity.
  - exact (star_loop_local _ IH1 _ k1 k2 i cap Hi Hk).
  - apply IH1; [exact Hi|]. intros j c Hj. apply Hk. lia.
  - destruct (m ic s r1 _ i cap) as [[e c]|]; destruct negated;
      try reflexivity; apply Hk; lia.
  - destruct (xorb _ _); [|reflexivity]. apply Hk. lia.
Qed.

(** Any fuel from [length input - i] on gives the same result as the fuel
    the matcher uses. *)
Lemma star_loop_fuel
  (step : continuation -> nat -> captures -> option state) (k : continuation) :
  reaches s step -> local s step ->
  forall f1 f2 i cap,
    i <= List.length s ->
    List.length s - i <= f1 -> List.length s - i <= f2 ->
    star_loop step k f1 i cap = star_loop step k f2 i cap.
Proof.
  intros Hreach Hlocal.
  assert (Hend : forall f i cap,
             i = List.length s ->
             star_loop step k f i cap = k i cap).
  { intros [|f] i cap Hi; cbn [star_loop]; [reflexivity|].
    destruct (step _ i cap) as [st|] eqn:E; [|reflexivity].
    assert (Hi2 : i <= List.length s) by lia.
    destruct (Hreach _ _ _ _ Hi2 E) as (j & c & Hj & Hk).
    replace j with i in Hk by lia. rewrite Nat.eqb_refl in Hk.
    discriminate Hk. }
  induction f1 as [|f1 IH]; intros f2 i cap Hi H1 H2.
  - rewrite !Hend by lia. reflexivity.
  - destruct f2 as [|f2]; [rewrite !Hend by lia; reflexivity|].
    cbn [star_loop].
    rewrite (Hlocal _ (fun j c => if j =? i then None
                                  else star_loop step k f2 j c) i cap Hi);
      [reflexivity|].
    intros j c Hj. destruct (Nat.eqb_spec j i); [reflexivity|].
    apply IH; lia.
Qed.

Lemma m_Star_fuel (r : regex) (k : continuation) (fuel i : nat) (cap : captures) :
  i <= List.length s -> List.length s - i <= fuel ->
  m ic s (Star r) k i cap = star_loop (m ic s r) k fuel i cap.
Proof.
  intros Hi Hf. cbn [m].
  apply star_loop_fuel; [apply m_reaches | apply m_local | lia..].
Qed.

Lemma match_at_bounds (r : regex) (i e : nat) (c : captures) :
  i <= List.length s -> match_at ic s r i = Some (e, c) ->
  i <= e <= List.length s.
Proof.
  intros Hi H. destruct (m_reaches r _ _ _ _ Hi H) as (j & c' & Hj & E).
  injection E as -> _. exact Hj.
Qed.

Lemma search_bounds (r : regex) (fuel i start e : nat) (c : captures) :
  i + fuel <= List.length s ->
  search ic s r fuel i = Some (start, (e, c)) ->
  i <= start /\ start <= e <= List.length s.
Proof.
  revert i. induction fuel as [|fuel IH]; intros i Hi H; cbn [search] in H;
    destruct (match_at ic s r i) as [[e' c']|] eqn:E.
  - injection H as <- <- <-. split; [lia|]. eapply match_at_bounds, E. lia.
  - discriminate H.
  - injection H as <- <- <-. split; [lia|]. eapply match_at_bounds, E. lia.
  - apply IH in H; lia.
Qed.

Lemma exec_bounds (r : regex) (lastIndex start e : nat) (c : captures) :
  exec ic s r lastIndex = Some (start, (e, c)) ->
  lastIndex <= start /\ start <= e <= List.length s.
Proof.
  unfold exec. destruct (Nat.ltb_spec (List.length s) lastIndex);
    [discriminate|].
  apply search_bounds. lia.
Qed.

(** [match_loop]: any fuel from [length input + 1 - lastIndex] on gives the
    same list. *)
Lemma match_loop_fuel (r : regex) (f1 f2 lastIndex : nat) :
  S (List.length s) - lastIndex <= f1 ->
  S (List.length s) - lastIndex <= f2 ->
  match_loop ic s r f1 lastIndex = match_loop ic s r f2 lastIndex.
Proof.
  assert (Hend : forall f i, List.length s < i -> match_loop ic s r f i = []).
  { intros [|f] i Hi; cbn [match_loop]; [reflexivity|].
    unfold exec. destruct (Nat.ltb_spec (List.length s) i); [reflexivity | lia]. }
  revert f2 lastIndex. induction f1 as [|f1 IH]; intros f2 i H1 H2.
  - rewrite !Hend by lia. reflexivity.
  - destruct f2 as [|f2]; [rewrite !Hend by lia; reflexivity|].
    cbn [match_loop].
    destruct (exec ic s r i) as [[start [e c]]|] eqn:E; [|reflexivity].
    apply exec_bounds in E. f_equal.
    destruct (Nat.eqb_spec e start); apply IH; lia.
Qed.

(** [split_loop]: twice the distance to the end of the input, and one more
    step when a piece is open, is enough fuel. *)
Lemma split_loop_fuel (r : regex) (f1 f2 p q : nat) :
  p <= q ->
  2 * (List.length s - q) + (if p <? q then 1 else 0) <= f1 ->
  2 * (List.length s - q) + (if p <? q then 1 else 0) <= f2 ->
  split_loop ic s r f1 p q = split_loop ic s r f2 p q.
Proof.
  assert (Hend : forall f p q, List.length s <= q ->
             split_loop ic s r f p q = [substring s p (List.length s)]).
  { intros [|f] p' q' Hq; cbn [split_loop]; [reflexivity|].
    destruct (Nat.leb_spec (List.length s) q'); [reflexivity | lia]. }
  revert f2 p q. induction f1 as [|f1 IH]; intros f2 p q Hpq H1 H2.
  - rewrite !Hend by lia. reflexivity.
  - destruct f2 as [|f2]; [rewrite !Hend by lia; reflexivity|].
    cbn [split_loop].
    destruct (Nat.leb_spec (List.length s) q) as [|Hq]; [reflexivity|].
    assert (Hnext : split_loop ic s r f1 p (S q) = split_loop ic s r f2 p (S q)).
    { apply IH; [lia | |];
        destruct (Nat.ltb_spec p q), (Nat.ltb_spec p (S q)); lia. }
    destruct (match_at ic s r q) as [[e0 c]|] eqn:E; [|exact Hnext].
    apply match_at_bounds in E; [|lia].
    destruct (Nat.eqb_spec (Nat.min e0 (List.length s)) p) as [Hp|Hp];
      [exact Hnext|].
    f_equal.
    apply IH; [lia | rewrite Nat.ltb_irrefl | rewrite Nat.ltb_irrefl];
      destruct (Nat.ltb_spec p q); lia.
Qed.
End MatcherFacts.

(** ** Sentences and words of a text *)

(** The text of the quantified class in [SENTENCE_REGEX], split where the
    pattern parser splits it. *)
Example consonants_pattern_text :
  ("[" ++ CONSONTANTS ++ "]{1,3}")%string
  = ("[" ++ CONSONTANTS_class ++ "]" ++ "/" ++ "]{1,3}")%string.
Proof. reflexivity. Qed.

Lemma m_Seq (ic : bool) (s : str) (r1 r2 : regex) (k : continuation)
  (i : nat) (cap : captures) :
  m ic s (Seq r1 r2) k i cap = m ic s r1 (fun j c => m ic s r2 k j c) i cap.
Proof. reflexivity. Qed.

Lemma m_Class (ic : bool) (s : str) (negated : bool) (items : list citem)
  (k : continuation) (i : nat) (cap : captures) :
  m ic s (Class negated items) k i cap =
  match nth_error s i with
  | None => None
  | Some ch =>
      if xorb negated (existsb (in_item ic ch) items) then k (S i) cap else None
  end.
Proof. reflexivity. Qed.

(** A lookbehind for one character fails at the start of the input. *)
Lemma lookbehind_at_start (ic : bool) (s : str) (negated : bool)
  (items : list citem) (k : continuation) (cap : captures) :
  m ic s (LookBehind false (Class negated items)) k 0 cap = None.
Proof.
  cbn [m seq existsb]. destruct (nth_error s 0) as [ch|]; [|reflexivity].
  destruct (xorb negated (existsb (in_item ic ch) items)); reflexivity.
Qed.

(** No sentence boundary is found at index 0. *)
Lemma no_boundary_at_start (s : str) : match_at false s SENTENCE_REGEX 0 = None.
Proof.
  unfold match_at, SENTENCE_REGEX. rewrite m_Seq.
  match goal with
  | |- m _ _ (LookBehind true ?r) ?k 0 None = None =>
      change (m false s (LookBehind true r) k 0 None)
        with (if xorb true
                   (existsb
                      (fun q =>
                         match m false s r
                                 (fun j c => if j =? 0 then Some (j, c) else None)
                                 q None with
                         | Some _ => true
                         | None => false
                         end) (seq 0 1))
              then k 0 None else None)
  end.
  match goal with
  | |- (if ?b then _ else _) = _ => destruct b; [|reflexivity]
  end.
  rewrite m_Seq. apply lookbehind_at_start.
Qed.

(** As long as no piece has been cut, the first piece that [split] cuts
    starts at index 0 and is not empty. *)
Lemma split_loop_first (s : str) (r : regex) (fuel q : nat) :
  1 <= q -> 1 <= List.length s ->
  exists q' rest,
    1 <= q' /\ split_loop false s r fuel 0 q = substring s 0 q' :: rest.
Proof.
  intros Hq Hlen. revert q Hq.
  induction fuel as [|fuel IH]; intros q Hq; cbn [split_loop].
  - exists (List.length s), []. split; [exact Hlen | reflexivity].
  - destruct (List.length s <=? q).
    + exists (List.length s), []. split; [exact Hlen | reflexivity].
    + destruct (match_at false s r q) as [[e0 c]|]; [|apply IH; lia].
      destruct (Nat.min e0 (List.length s) =? 0); [apply IH; lia|].
      eexists q, _. split; [exact Hq | reflexivity].
Qed.

Lemma trimStart_end (l : str) (c : N) :
  is_space c = false -> exists l', trimStart (l ++ [c]) = l' ++ [c].
Proof.
  intro Hc. induction l as [|x l IH]; simpl.
  - rewrite Hc. exists []. reflexivity.
  - destruct (is_space x); [exact IH|]. exists (x :: l). reflexivity.
Qed.

Lemma trimStart_head (s : str) :
  trimStart s = [] \/ exists c x, trimStart s = c :: x /\ is_space c = false.
Proof.
  induction s as [|c s IH]; simpl; [left; reflexivity|].
  destruct (is_space c) eqn:E; [exact IH|]. right. eauto.
Qed.

Lemma trimStart_nil (s : str) :
  trimStart s = [] -> Forall (fun c => is_space c = true) s.
Proof.
  induction s as [|c s IH]; simpl; intro H; [constructor|].
  destruct (is_space c) eqn:E; [|discriminate H].
  constructor; [exact E | exact (IH H)].
Qed.

(** A trimmed string is empty or starts with a character that is not
    white space. *)
Lemma trim_head (s : str) :
  trim s = [] \/ exists c x, trim s = c :: x /\ is_space c = false.
Proof.
  unfold trim. destruct (trimStart_head s) as [->|(c & x & -> & Hc)].
  - left. reflexivity.
  - right. simpl rev at 2.
    destruct (trimStart_end (rev x) c Hc) as [l' ->].
    rewrite rev_app_distr. simpl. eauto.
Qed.

Lemma trim_nil (s : str) :
  trim s = [] -> Forall (fun c => is_space c = true) s.
Proof.
  intro H. apply trimStart_nil. unfold trim in H.
  destruct (trimStart_head s) as [E|(c & x & E & Hc)]; [exact E|].
  exfalso. rewrite E in H. simpl rev at 2 in H.
  destruct (trimStart_end (rev x) c Hc) as [l' El]. rewrite El in H.
  rewrite rev_app_distr in H. discriminate H.
Qed.

Lemma trim_not_space (c : N) (x : str) :
  is_space c = false -> trim (c :: x) <> [].
Proof.
  intros Hc H. unfold trim in H. simpl trimStart at 2 in H.
  rewrite Hc in H. simpl rev at 2 in H.
  destruct (trimStart_end (rev x) c Hc) as [l' El]. rewrite El in H.
  rewrite rev_app_distr in H. discriminate H.
Qed.

(** A text without sentences is white space only. *)
Lemma sentences_nil (text : str) :
  sentences (extractContentFromText text) = [] ->
  Forall (fun c => is_space c = true) text.
Proof.
  unfold extractContentFromText. cbn [sentences]. intro H.
  apply trim_nil.
  destruct (trim_head text) as [E|(c & x & E & Hc)]; [exact E|].
  exfalso. rewrite E in H. unfold split in H.
  cbn [List.length Nat.eqb] in H.
  destruct (2 * S (List.length x)) as [|fuel] eqn:Ef; [lia|].
  cbn [split_loop] in H.
  cbn [List.length Nat.leb] in H.
  rewrite no_boundary_at_start in H.
  destruct (split_loop_first (c :: x) SENTENCE_REGEX fuel 1)
    as (q' & rest & Hq' & Es); [lia | simpl; lia|].
  rewrite Es in H. cbn [List.filter] in H.
  assert (Hp : substring (c :: x) 0 q' = c :: firstn (q' - 1) x).
  { unfold substring. destruct q' as [|q']; [lia|].
    simpl. rewrite Nat.sub_0_r. reflexivity. }
  rewrite Hp in H.
  destruct (trim (c :: firstn (q' - 1) x)) eqn:Et.
  - exact (trim_not_space c _ Hc Et).
  - discriminate H.
Qed.

(** White space starts no word. *)
Lemma space_starts_no_word (ch : N) :
  is_space ch = true ->
  existsb (in_item false ch)
    [Range (code "a") (code "z"); Range (code "A") (code "Z");
     Range 192 255; Range (code "0") (code "9")] = false.
Proof.
  unfold is_space. intro H.
  cbn [existsb in_item].
  change (code "a") with 97%N. change (code "z") with 122%N.
  change (code "A") with 65%N. change (code "Z") with 90%N.
  change (code "0") with 48%N. change (code "9") with 57%N.
  apply not_true_is_false. intro G.
  rewrite !orb_true_iff in H. rewrite !andb_true_iff in H.
  rewrite !N.leb_le in H. rewrite !N.eqb_eq in H.
  rewrite !orb_true_iff in G. rewrite !andb_true_iff in G.
  rewrite !N.leb_le in G.
  lia.
Qed.

Lemma no_word_at (text : str) (i : nat) :
  Forall (fun c => is_space c = true) text ->
  match_at false text WORD_REGEX i = None.
Proof.
  intro Hs. unfold match_at, WORD_REGEX, plus.
  rewrite !m_Seq, m_Class.
  destruct (nth_error text i) as [ch|] eqn:E; [|reflexivity].
  apply nth_error_In in E.
  rewrite (space_starts_no_word ch (proj1 (Forall_forall _ _) Hs ch E)).
  reflexivity.
Qed.

(** A text of white space has no words. *)
Lemma words_of_white_space (text : str) :
  Forall (fun c => is_space c = true) text ->
  words (extractContentFromText text) = [].
Proof.
  intro Hs. unfold extractContentFromText. cbn [words].
  assert (Hsearch : forall fuel i, search false text WORD_REGEX fuel i = None).
  { induction fuel as [|fuel IH]; intro i; cbn [search];
      rewrite (no_word_at text i Hs); [reflexivity | apply IH]. }
  unfold match_global. cbn [match_loop]. unfold exec.
  cbn [Nat.ltb Nat.leb]. rewrite Hsearch. reflexivity.
Qed.

(** The score of a text without words is [NaN]. *)
Lemma calculateLixFromStats_no_words (sentenceCount : nat) :
  calculateLixFromStats
    {| word_count := 0; long_word_count := 0; sentence_count := sentenceCount |}
  = NaN.
Proof.
  unfold calculateLixFromStats. cbn [word_count long_word_count sentence_count].
  change (div (mul (of_nat 0) (of_Z 100)) (of_nat 0)) with NaN.
  rewrite add_NaN_r. reflexivity.
Qed.

Lemma score_of_empty_item (basename : str -> str) (item : SpineItem) :
  sentence_count (contentStats (extractContentFromText (text item))) = 0
  \/ word_count (contentStats (extractContentFromText (text item))) = 0 ->
  generated_lix (scoreItem basename item) = NaN.
Proof.
  intro H.
  assert (Hw : words (extractContentFromText (text item)) = []).
  { destruct H as [H|H]; cbn [contentStats sentence_count word_count] in H.
    - apply words_of_white_space, sentences_nil.
      apply length_zero_iff_nil, H.
    - apply length_zero_iff_nil, H. }
  unfold scoreItem. cbn [generated_lix]. unfold contentStats.
  assert (Hl : long_words (extractContentFromText (text item)) = []).
  { change (long_words (extractContentFromText (text item)))
      with (List.filter (fun word => 6 <? List.length word)
              (words (extractContentFromText (text item)))).
    rewrite Hw. reflexivity. }
  rewrite Hw, Hl. apply calculateLixFromStats_no_words.
Qed.

(** ** Items without sentences or words *)

Lemma filterItemsUsingStandardDeviation_incl
  (items kept : list SpineItemContent) (maxStdDev : number) :
  filterItemsUsingStandardDeviation items maxStdDev = OK kept ->
  incl kept items.
Proof.
  unfold filterItemsUsingStandardDeviation.
  destruct (nth_error (sort compareLix items)
              (List.length (sort compareLix items) / 2)); [|discriminate].
  intros H x Hx.
  apply (Permutation_in x (sort_perm compareLix items)).
  destruct (root_gt _ maxStdDev); injection H as <-; [|exact Hx].
  eapply removeOutliers_incl, Hx.
Qed.

Lemma getSpineItemStats_inv (basename : str -> str)
  (localeCompare : str -> str -> number) (spineItems : list SpineItem)
  (stats : list SpineItemStats) :
  getSpineItemStats basename localeCompare spineItems = OK stats ->
  exists kept,
    filterItemsUsingStandardDeviation
      (filteredSpineItemContent basename spineItems) STANDARD_DEVIATION_FACTOR
    = OK kept
    /\ stats = sort (compareTitle localeCompare) (List.map itemStats kept).
Proof.
  unfold getSpineItemStats.
  destruct (filterItemsUsingStandardDeviation _ _) as [kept|e];
    cbn [bind rethrow]; [|discriminate].
  intro H. injection H as <-. exists kept. split; reflexivity.
Qed.

(** C3. A content item without sentences or without words has the
    undefined score [NaN]; it is not in the list of scored items that the
    outlier filter receives, and every entry of the statistics that the
    median and the totals are computed from has both counts above zero. *)
Theorem items_without_text_excluded (basename : str -> str)
  (localeCompare : str -> str -> number) (spineItems : list SpineItem)
  (item : SpineItem) :
  sentence_count (contentStats (extractContentFromText (text item))) = 0
  \/ word_count (contentStats (extractContentFromText (text item))) = 0 ->
  generated_lix (scoreItem basename item) = NaN
  /\ ~ In (scoreItem basename item) (filteredSpineItemContent basename spineItems)
  /\ (forall stats,
        getSpineItemStats basename localeCompare spineItems = OK stats ->
        Forall (fun st => 0 < word_count (counts st)
                          /\ 0 < sentence_count (counts st)) stats).
Proof.
  intro Hzero.
  assert (Hnan := score_of_empty_item basename item Hzero).
  split; [exact Hnan|]. split.
  - unfold filteredSpineItemContent. intro Hin.
    apply filter_In in Hin. destruct Hin as [_ Ht].
    rewrite Hnan in Ht. discriminate Ht.
  - intros stats Hstats.
    destruct (getSpineItemStats_inv _ _ _ _ Hstats) as (kept & Hkept & ->).
    apply Forall_forall. intros st Hst.
    apply (Permutation_in st (sort_perm _ _)) in Hst.
    apply in_map_iff in Hst. destruct Hst as (c & <- & Hc).
    apply (filterItemsUsingStandardDeviation_incl _ _ _ Hkept) in Hc.
    unfold filteredSpineItemContent in Hc. apply filter_In in Hc.
    destruct Hc as [Hc Ht]. apply in_map_iff in Hc.
    destruct Hc as (it & <- & _).
    cbn [itemStats counts scoreItem content].
    destruct (word_count (contentStats (extractContentFromText (text it))))
      as [|w] eqn:Ew.
    + rewrite (score_of_empty_item basename it (or_intror Ew)) in Ht.
      discriminate Ht.
    + destruct (sentence_count (contentStats (extractContentFromText (text it))))
        as [|n] eqn:En.
      * rewrite (score_of_empty_item basename it (or_introl En)) in Ht.
        discriminate Ht.
      * lia.
Qed.

Lemma items_without_text_excluded_witness :
  generated_lix (scoreItem whole_path dots_chapter) = NaN
  /\ ~ In (scoreItem whole_path dots_chapter)
          (filteredSpineItemContent whole_path [dots_chapter; prose_chapter]).
Proof.
  destruct (items_without_text_excluded whole_path no_order
              [dots_chapter; prose_chapter] dots_chapter)
    as (H1 & H2 & _).
  - right. vm_compute. reflexivity.
  - split; assumption.
Defined.

(** ** Chapters *)

Lemma filter_filter {A} (f : A -> bool) (l : list A) :
  List.filter f (List.filter f l) = List.filter f l.
Proof.
  induction l as [|x l IH]; simpl; [reflexivity|].
  destruct (f x) eqn:E; simpl; rewrite ?E, IH; reflexivity.
Qed.

Lemma contentItems_chapters (spineItems : list SpineItem) :
  chaptersOf spineItems <> [] ->
  contentItems spineItems = chaptersOf spineItems
  /\ contentItems (chaptersOf spineItems) = chaptersOf spineItems.
Proof.
  unfold contentItems, chaptersOf. rewrite filter_filter.
  destruct (List.filter _ spineItems); [congruence|]. split; reflexivity.
Qed.

Lemma analyzeEpub_inv (basename : str -> str)
  (localeCompare : str -> str -> number) (bytes : N)
  (spineItems : list SpineItem) (a : Analysis) :
  analyzeEpub basename localeCompare bytes spineItems = OK a ->
  exists spineItemStats,
    getSpineItemStats basename localeCompare spineItems = OK spineItemStats
    /\ items a = spineItemStats
    /\ totals (stats a) = getTotalStats spineItemStats
    /\ lix_generated (stats a)
       = calculateLixFromStats (getTotalStats spineItemStats)
    /\ lix_median (stats a)
       = getMedian (List.map stats_generated_lix spineItemStats)
    /\ lix_found (stats a) = searchForLixInItems spineItems
    /\ lix a = nullish (lix_found (stats a))
                 (nullish (lix_median (stats a)) (lix_generated (stats a))).
Proof.
  unfold analyzeEpub.
  destruct (getSpineItemStats basename localeCompare spineItems) as [st|e];
    cbn [bind rethrow]; [|discriminate].
  intro H. injection H as <-. exists st. cbn. repeat split; reflexivity.
Qed.

(** C4. When the path of at least one item matches chapter or kapitel
    (in any letter case), the input of the outlier filter, the per-item
    statistics, the totals and the generated LIX are those of the matching
    items alone: the run gives what it gives on the chapters with every
    other item left out. When no path matches, all items are used. *)
Theorem chapters_only (basename : str -> str)
  (localeCompare : str -> str -> number) (spineItems : list SpineItem) :
  (chaptersOf spineItems <> [] ->
   contentItems spineItems = chaptersOf spineItems
   /\ filteredSpineItemContent basename spineItems
      = filteredSpineItemContent basename (chaptersOf spineItems)
   /\ getSpineItemStats basename localeCompare spineItems
      = getSpineItemStats basename localeCompare (chaptersOf spineItems)
   /\ forall bytes a,
        analyzeEpub basename localeCompare bytes spineItems = OK a ->
        exists chapterStats,
          getSpineItemStats basename localeCompare (chaptersOf spineItems)
          = OK chapterStats
          /\ items a = chapterStats
          /\ totals (stats a) = getTotalStats chapterStats
          /\ lix_generated (stats a)
             = calculateLixFromStats (getTotalStats chapterStats))
  /\ (chaptersOf spineItems = [] -> contentItems spineItems = spineItems).
Proof.
  split.
  - intro Hne. destruct (contentItems_chapters spineItems Hne) as [E1 E2].
    assert (Ef : filteredSpineItemContent basename spineItems
                 = filteredSpineItemContent basename (chaptersOf spineItems)).
    { unfold filteredSpineItemContent. rewrite E1, E2. reflexivity. }
    assert (Eg : getSpineItemStats basename localeCompare spineItems
                 = getSpineItemStats basename localeCompare (chaptersOf spineItems)).
    { unfold getSpineItemStats. rewrite Ef. reflexivity. }
    repeat split; try assumption.
    intros bytes a Ha.
    destruct (analyzeEpub_inv _ _ _ _ _ Ha) as (st & Hst & Hi & Ht & Hg & _).
    exists st. rewrite <- Eg. repeat split; assumption.
  - intro Hnil. unfold contentItems. fold (chaptersOf spineItems).
    rewrite Hnil. reflexivity.
Qed.

Lemma chapters_only_witness :
  contentItems [colophon_item; title_chapter; prose_chapter]
  = [title_chapter; prose_chapter]
  /\ contentItems [colophon_item] = [colophon_item].
Proof.
  split.
  - apply (chapters_only whole_path no_order
             [colophon_item; title_chapter; prose_chapter]).
    vm_compute. discriminate.
  - apply (chapters_only whole_path no_order [colophon_item]).
    vm_compute. reflexivity.
Defined.

(** ** The resolved score *)

(** The outlier filter never returns an empty array. *)
Lemma filterItemsUsingStandardDeviation_nonempty
  (items kept : list SpineItemContent) (maxStdDev : number) :
  filterItemsUsingStandardDeviation items maxStdDev = OK kept -> kept <> [].
Proof.
  intro H.
  assert (Hne : items <> []).
  { intro E. rewrite E in H. discriminate H. }
  destruct (root_gt (stdDevOf items) maxStdDev) eqn:Egt.
  - destruct (filter_is_keptAround items maxStdDev Hne Egt) as [E Hk].
    rewrite E in H. injection H as <-. exact Hk.
  - unfold filterItemsUsingStandardDeviation in H.
    destruct (middle_item items Hne) as (midItem & Hmid & _).
    rewrite Hmid in H. fold (roundedScores items) in H.
    fold (stdDevOf items) in H. rewrite Egt in H. injection H as <-.
    intro E. apply Hne. eapply sort_nil_inv, E.
Qed.

(** A run that succeeds has at least one scored item, hence a median. *)
Lemma median_of_successful_run (basename : str -> str)
  (localeCompare : str -> str -> number) (bytes : N)
  (spineItems : list SpineItem) (a : Analysis) :
  analyzeEpub basename localeCompare bytes spineItems = OK a ->
  lix_median (stats a) <> None.
Proof.
  intro Ha.
  destruct (analyzeEpub_inv _ _ _ _ _ Ha) as (st & Hst & _ & _ & _ & Hm & _).
  destruct (getSpineItemStats_inv _ _ _ _ Hst) as (kept & Hkept & ->).
  apply filterItemsUsingStandardDeviation_nonempty in Hkept.
  rewrite Hm. unfold getMedian.
  set (scores := sort compareNumbers _).
  assert (Hlen : 0 < List.length scores).
  { unfold scores. rewrite sort_length, length_map, sort_length, length_map.
    destruct kept; [congruence | simpl; lia]. }
  assert (Hmid : List.length scores / 2 < List.length scores)
    by (apply Nat.div_lt; lia).
  destruct ((List.length scores mod 2 =? 0) && (1 <? List.length scores)).
  - destruct (nth_error scores (List.length scores / 2 - 1)),
             (nth_error scores (List.length scores / 2)); discriminate.
  - intro E. apply nth_error_None in E. lia.
Qed.

(** C1. In every analysis the [lix] field is the value found in the text
    when there is one, otherwise the median of the scores of the surviving
    items when there is one, otherwise the LIX generated from the summed
    totals. *)
Theorem lix_resolution (basename : str -> str)
  (localeCompare : str -> str -> number) (bytes : N)
  (spineItems : list SpineItem) (a : Analysis) :
  analyzeEpub basename localeCompare bytes spineItems = OK a ->
  exists spineItemStats,
    getSpineItemStats basename localeCompare spineItems = OK spineItemStats
    /\ lix a
       = firstNonNull
           (searchForLixInItems spineItems)
           (getMedian (List.map stats_generated_lix spineItemStats))
           (calculateLixFromStats (getTotalStats spineItemStats)).
Proof.
  intro Ha.
  destruct (analyzeEpub_inv _ _ _ _ _ Ha)
    as (st & Hst & _ & _ & Hg & Hm & Hf & Hl).
  exists st. split; [exact Hst|].
  rewrite Hl, Hf, Hm, Hg. unfold firstNonNull, nullish.
  destruct (searchForLixInItems spineItems); [reflexivity|].
  destruct (getMedian _); reflexivity.
Qed.

Lemma lix_resolution_witness :
  (exists a,
      analyzeEpub whole_path no_order 4096 [prose_chapter; colophon_item] = OK a
      /\ lix a = of_Z 23)
  /\ (exists a,
         analyzeEpub whole_path no_order 4096 [prose_chapter; title_chapter] = OK a
         /\ eqb (lix a) (of_Z 17) = true).
Proof.
  split.
  - destruct (analyzeEpub whole_path no_order 4096 [prose_chapter; colophon_item])
      as [a|e] eqn:E; [|vm_compute in E; discriminate E].
    exists a. split; [reflexivity|].
    destruct (lix_resolution _ _ _ _ _ E) as (st & Hst & ->).
    vm_compute in Hst. injection Hst as <-. vm_compute. reflexivity.
  - destruct (analyzeEpub whole_path no_order 4096 [prose_chapter; title_chapter])
      as [a|e] eqn:E; [|vm_compute in E; discriminate E].
    exists a. split; [reflexivity|].
    destruct (lix_resolution _ _ _ _ _ E) as (st & Hst & ->).
    vm_compute in Hst. injection Hst as <-. vm_compute. reflexivity.
Defined.

(** * Further properties of the code *)

(** ** getTotalStats *)

Lemma getTotalStats_fold (items : list SpineItemStats) (acc : TextContentStats) :
  fold_left
    (fun prev curr =>
       {| word_count := word_count prev + word_count (counts curr);
          long_word_count := long_word_count prev + long_word_count (counts curr);
          sentence_count := sentence_count prev + sentence_count (counts curr) |})
    items acc
  = {| word_count := word_count acc + sumCounts word_count items;
       long_word_count := long_word_count acc + sumCounts long_word_count items;
       sentence_count := sentence_count acc + sumCounts sentence_count items |}.
Proof.
  revert acc. induction items as [|x items IH]; intro acc; cbn [fold_left].
  - unfold sumCounts. cbn. rewrite !Nat.add_0_r. destruct acc; reflexivity.
  - rewrite IH. unfold sumCounts, list_sum.
    cbn [List.map fold_right word_count long_word_count sentence_count].
    f_equal; lia.
Qed.

Lemma getTotalStats_sumCounts (items : list SpineItemStats) :
  getTotalStats items
  = {| word_count := sumCounts word_count items;
       long_word_count := sumCounts long_word_count items;
       sentence_count := sumCounts sentence_count items |}.
Proof. unfold getTotalStats. rewrite getTotalStats_fold. reflexivity. Qed.




(** ** calculateLixFromStats *)


Lemma lix_value_nonneg (pw ps : positive) (L : Z) :
  (0 <= L)%Z ->
  (0 <= (Z.pos pw # 1) / (Z.pos ps # 1)
        + (inject_Z L * inject_Z 100) / (Z.pos pw # 1))%Q.
Proof.
  intro HL. unfold Qle, Qdiv, Qinv, Qmult, Qplus, inject_Z. cbn [Qnum Qden].
  rewrite !Pos2Z.inj_mul. nia.
Qed.




(** ** Sentences, words and the score of a text *)

Lemma trimStart_spaces (s : str) :
  Forall (fun c => is_space c = true) s -> trimStart s = [].
Proof.
  induction 1 as [|c s Hc _ IH]; simpl; [reflexivity|].
  rewrite Hc. exact IH.
Qed.

Lemma sentences_of_white_space (text : str) :
  Forall (fun c => is_space c = true) text ->
  sentences (extractContentFromText text) = [].
Proof.
  intro H. unfold extractContentFromText. cbn [sentences].
  unfold trim at 2. rewrite (trimStart_spaces text H). cbn [rev trimStart].
  unfold split. cbn [List.length Nat.eqb].
  rewrite no_boundary_at_start. reflexivity.
Qed.

(** X3. A text has no sentence exactly when it is white space only, and
    then it has no word either: a text with a word has a sentence. *)
Theorem no_sentence_iff_white_space (text : str) :
  (sentences (extractContentFromText text) = []
   <-> Forall (fun c => is_space c = true) text)
  /\ (sentences (extractContentFromText text) = [] ->
      words (extractContentFromText text) = []).
Proof.
  split; [split|].
  - apply sentences_nil.
  - apply sentences_of_white_space.
  - intro H. apply words_of_white_space, sentences_nil, H.
Qed.

Lemma no_sentence_iff_white_space_witness :
  words (extractContentFromText (codes "   ")) = [].
Proof.
  apply (no_sentence_iff_white_space (codes "   ")).
  vm_compute. reflexivity.
Defined.

Lemma toFixed0_nonneg (q : Q) :
  (0 <= q)%Q -> exists q', (0 <= q')%Q /\ toFixed0 (Fin q) = Fin q'.
Proof.
  intro Hq. unfold toFixed0.
  destruct (Qle_bool _ _); [eauto|].
  assert (E : Qltb q 0 = false) by (apply Qltb_ge, Hq). rewrite E.
  eexists. split; [|reflexivity].
  unfold Qround_half_up, of_Z, Qle, inject_Z. cbn [Qnum Qden].
  rewrite !Z.mul_1_r.
  change 0%Z with (Qfloor 0). apply Qfloor_resp_le.
  apply Qle_trans with (y := q); [exact Hq|].
  rewrite <- (Qplus_0_r q) at 1. apply Qplus_le_r. discriminate.
Qed.

(** The score of counts with a word and a sentence is finite and not
    negative. *)
Lemma calculateLixFromStats_finite (w l s : nat) :
  0 < w -> 0 < s ->
  exists q, (0 <= q)%Q
            /\ calculateLixFromStats
                 {| word_count := w; long_word_count := l; sentence_count := s |}
               = Fin q.
Proof.
  intros Hw Hs. destruct w as [|m]; [lia|]. destruct s as [|n]; [lia|].
  unfold calculateLixFromStats.
  cbn [word_count long_word_count sentence_count].
  rewrite !div_by_length. unfold of_nat, of_Z. cbn [mul add].
  apply toFixed0_nonneg.
  apply (lix_value_nonneg (Pos.of_succ_nat m) (Pos.of_succ_nat n) (Z.of_nat l)).
  lia.
Qed.

(** X4. The score of an item is [NaN] or a finite number that is not
    negative: no text gives an infinite score, because a text without
    sentences has no words. *)
Theorem score_never_infinite (basename : str -> str) (item : SpineItem) :
  generated_lix (scoreItem basename item) = NaN
  \/ exists q, (0 <= q)%Q /\ generated_lix (scoreItem basename item) = Fin q.
Proof.
  destruct (word_count (contentStats (extractContentFromText (text item))))
    as [|w] eqn:Ew.
  - left. apply score_of_empty_item. right. exact Ew.
  - destruct (sentence_count (contentStats (extractContentFromText (text item))))
      as [|n] eqn:En.
    + left. apply score_of_empty_item. left. exact En.
    + right. unfold scoreItem. cbn [generated_lix].
      destruct (contentStats (extractContentFromText (text item)))
        as [w' l' s'] eqn:E.
      cbn [word_count sentence_count] in Ew, En. subst w' s'.
      apply calculateLixFromStats_finite; lia.
Qed.

(** ** Mean and standard deviation of finite numbers *)

Lemma fold_add_Fin (qs : list Q) (a : Q) :
  fold_left add (List.map Fin qs) (Fin a) = Fin (fold_left Qplus qs a).
Proof.
  revert a. induction qs as [|x qs IH]; intro a; cbn [fold_left List.map];
    [reflexivity|].
  cbn [add]. apply IH.
Qed.

Lemma fold_Qplus_sumQ (qs : list Q) (a : Q) :
  (fold_left Qplus qs a == a + sumQ qs)%Q.
Proof.
  revert a. induction qs as [|x qs IH]; intro a; cbn [fold_left sumQ fold_right].
  - ring.
  - rewrite IH. unfold sumQ. ring.
Qed.


Lemma sumQ_map_ext (f g : Q -> Q) (l : list Q) :
  (forall x, f x == g x)%Q ->
  (sumQ (List.map f l) == sumQ (List.map g l))%Q.
Proof.
  intro H. induction l as [|x l IH]; cbn [sumQ fold_right List.map].
  - reflexivity.
  - fold (sumQ (List.map f l)). fold (sumQ (List.map g l)).
    rewrite IH, (H x). reflexivity.
Qed.




Lemma getStandardDeviation_Q (qs : list Q) :
  qs <> [] ->
  exists v, getStandardDeviation (List.map Fin qs) = Math_sqrt (Fin v)
            /\ (v == varianceQ qs)%Q.
Proof.
  destruct qs as [|x l]; [congruence|]. intros _.
  unfold getStandardDeviation. cbn [List.map]. rewrite fold_add_Fin.
  change (List.length (Fin x :: List.map Fin l))
    with (S (List.length (List.map Fin l))).
  rewrite !div_by_length, length_map.
  set (mu := (fold_left Qplus l x / inject_Z (Z.of_nat (S (List.length l))))%Q).
  change (Fin x :: List.map Fin l) with (List.map Fin (x :: l)).
  rewrite !map_map. cbn [sub neg add mul].
  rewrite <- (map_map (fun y => ((y + - mu) * (y + - mu))%Q) Fin l).
  change (Fin ((x + - mu) * (x + - mu))
          :: List.map Fin (List.map (fun y => ((y + - mu) * (y + - mu))%Q) l))
    with (List.map Fin
            (List.map (fun y => ((y + - mu) * (y + - mu))%Q) (x :: l))).
  rewrite fold_add_Fin.
  eexists. split; [reflexivity|].
  unfold varianceQ. rewrite fold_Qplus_sumQ.
  assert (Emu : (mu == meanQ (x :: l))%Q).
  { unfold mu, meanQ. rewrite fold_Qplus_sumQ. cbn [List.length sumQ fold_right].
    reflexivity. }
  rewrite (sumQ_map_ext _ (fun y => (y - meanQ (x :: l)) * (y - meanQ (x :: l)))%Q).
  - cbn [List.length]. rewrite Qplus_0_l. reflexivity.
  - intro y. rewrite Emu. unfold Qminus. reflexivity.
Qed.

Lemma root_gt_compat (v v' : Q) (cap : number) :
  (v == v')%Q ->
  root_gt (Math_sqrt (Fin v)) cap = root_gt (Math_sqrt (Fin v')) cap.
Proof.
  intro E. unfold Math_sqrt.
  rewrite (Qltb_compat v v' 0 0 E (Qeq_refl 0)).
  destruct (Qltb v' 0); [reflexivity|].
  destruct cap as [| | |c]; try reflexivity. cbn [root_gt].
  rewrite (Qltb_compat (c * c) (c * c) v v' (Qeq_refl _) E). reflexivity.
Qed.


Lemma length_positive_Q {A} (l : list A) :
  l <> [] -> (0 < inject_Z (Z.of_nat (List.length l)))%Q.
Proof.
  intro H. destruct l; [congruence|].
  unfold Qlt, inject_Z. cbn [Qnum Qden List.length]. lia.
Qed.









(** ** The median again *)




(** X9. The median of finite numbers does not depend on their order. *)
Theorem getMedian_order (qs qs' : list Q) :
  qs <> [] ->
  Permutation qs qs' ->
  same_number (getMedian (List.map Fin qs)) (getMedian (List.map Fin qs')).
Proof.
  intros Hne Hp.
  assert (Hne' : qs' <> []).
  { intro E. subst qs'. apply Hne. apply Permutation_nil.
    apply Permutation_sym, Hp. }
  rewrite (getMedian_finite qs Hne), (getMedian_finite qs' Hne').
  unfold same_number, eqb. apply Qeq_bool_iff, middle_eqs, sort_permutation, Hp.
Qed.

Lemma getMedian_order_witness :
  same_number (getMedian (List.map Fin [31; 28; 35]%Q))
              (getMedian (List.map Fin [28; 31; 35]%Q)).
Proof.
  apply (getMedian_order [31; 28; 35]%Q [28; 31; 35]%Q).
  - discriminate.
  - apply perm_swap.
Defined.

(** ** The outlier filter again *)

Lemma subsequence_refl {A} (l : list A) : subsequence l l.
Proof. induction l; constructor; assumption. Qed.



(** The filter does nothing but sort when the deviation is within the
    cap. *)
Lemma filter_is_sort (items : list SpineItemContent) (maxStdDev : number) :
  items <> [] ->
  root_gt (stdDevOf items) maxStdDev = false ->
  filterItemsUsingStandardDeviation items maxStdDev
  = OK (sort compareLix items).
Proof.
  intros Hne Hle.
  destruct (middle_item items Hne) as (midItem & Hmid & _).
  unfold filterItemsUsingStandardDeviation. rewrite Hmid.
  fold (roundedScores items). fold (stdDevOf items).
  rewrite Hle. reflexivity.
Qed.

Lemma filter_kept_part (items : list SpineItemContent) (maxStdDev : number) :
  items <> [] ->
  exists kept,
    filterItemsUsingStandardDeviation items maxStdDev = OK kept
    /\ kept <> []
    /\ subsequence kept (sort compareLix items).
Proof.
  intro Hne. destruct (root_gt (stdDevOf items) maxStdDev) eqn:Egt.
  - destruct (filter_is_keptAround items maxStdDev Hne Egt) as [E Hk].
    eexists. split; [exact E|]. split; [exact Hk|].
    apply filter_subsequence.
  - eexists. split; [apply filter_is_sort; assumption|]. split.
    + intro E. apply Hne. eapply sort_nil_inv, E.
    + apply subsequence_refl.
Qed.

(** X10. The outlier filter throws exactly on the empty array; otherwise it
    returns a part of the sorted array, in order, that is never empty. *)
Theorem filterItemsUsingStandardDeviation_result
  (items : list SpineItemContent) (maxStdDev : number) :
  (filterItemsUsingStandardDeviation items maxStdDev = Throw TypeError
   <-> items = [])
  /\ (items <> [] ->
      exists kept,
        filterItemsUsingStandardDeviation items maxStdDev = OK kept
        /\ kept <> []
        /\ subsequence kept (sort compareLix items)).
Proof.
  split; [|apply filter_kept_part]. split.
  - intro H. destruct items as [|x l]; [reflexivity|].
    destruct (filter_kept_part (x :: l) maxStdDev) as (kept & E & _);
      [discriminate|].
    rewrite E in H. discriminate H.
  - intros ->. reflexivity.
Qed.

Lemma filterItemsUsingStandardDeviation_result_witness :
  exists kept,
    filterItemsUsingStandardDeviation two_low_two_high STANDARD_DEVIATION_FACTOR
    = OK kept
    /\ kept <> []
    /\ subsequence kept (sort compareLix two_low_two_high).
Proof.
  apply (filterItemsUsingStandardDeviation_result two_low_two_high
           STANDARD_DEVIATION_FACTOR).
  discriminate.
Defined.




Lemma sumQ_const (qs : list Q) (a : Q) :
  (forall x, In x qs -> x == a)%Q ->
  (sumQ qs == inject_Z (Z.of_nat (List.length qs)) * a)%Q.
Proof.
  induction qs as [|x qs IH]; intro H; cbn [sumQ fold_right List.length].
  - ring.
  - fold (sumQ qs). rewrite IH by (intros y Hy; apply H; right; exact Hy).
    rewrite (H x (or_introl eq_refl)), Nat2Z.inj_succ.
    unfold Z.succ. rewrite inject_Z_plus. ring.
Qed.

Lemma sumQ_zero (qs : list Q) :
  (forall x, In x qs -> x == 0)%Q -> (sumQ qs == 0)%Q.
Proof.
  intro H. rewrite (sumQ_const qs 0 H). ring.
Qed.

(** Numbers that are all equal have variance 0. *)
Lemma varianceQ_const (qs : list Q) (a : Q) :
  (forall x, In x qs -> x == a)%Q -> (varianceQ qs == 0)%Q.
Proof.
  intro H. destruct qs as [|x0 l]; [reflexivity|].
  assert (Hn := length_positive_Q (x0 :: l) ltac:(discriminate)).
  assert (Hm : (meanQ (x0 :: l) == a)%Q).
  { unfold meanQ. rewrite (sumQ_const _ a H). field.
    intro E. rewrite E in Hn. exact (Qlt_irrefl _ Hn). }
  unfold varianceQ. rewrite sumQ_zero.
  - unfold Qdiv. ring.
  - intros y Hy. apply in_map_iff in Hy. destruct Hy as (x & <- & Hx).
    rewrite Hm, (H x Hx). ring.
Qed.

Lemma sort_equal_scores (items : list SpineItemContent) (q : Q) :
  (forall item, In item items -> generated_lix item = Fin q) ->
  sort compareLix items = items.
Proof.
  induction items as [|x l IH]; intro H; cbn [sort]; [reflexivity|].
  rewrite IH by (intros y Hy; apply H; right; exact Hy).
  destruct l as [|y l]; cbn [insert]; [reflexivity|].
  unfold compareLix.
  rewrite (H x (or_introl eq_refl)), (H y (or_intror (or_introl eq_refl))).
  rewrite compare_finite, Qltb_irrefl. reflexivity.
Qed.

Lemma toFixed0_Fin (q : Q) : exists q', toFixed0 (Fin q) = Fin q'.
Proof.
  unfold toFixed0. destruct (Qle_bool _ _); [eauto|].
  destruct (Qltb q 0); unfold of_Z; eauto.
Qed.

(** X12. Items that all have the same finite score (a single item, for
    one) pass the filter unchanged, whatever the cap, as long as it is not
    negative: their standard deviation is 0. *)
Theorem filterItemsUsingStandardDeviation_equal_scores
  (items : list SpineItemContent) (q cap : Q) :
  items <> [] ->
  (forall item, In item items -> generated_lix item = Fin q) ->
  (0 <= cap)%Q ->
  filterItemsUsingStandardDeviation items (Fin cap) = OK items.
Proof.
  intros Hne Hq Hcap.
  assert (Hsort := sort_equal_scores items q Hq).
  rewrite <- Hsort at 2. apply filter_is_sort; [exact Hne|].
  unfold stdDevOf, roundedScores. rewrite Hsort.
  destruct (toFixed0_Fin q) as [q' Eq'].
  assert (Escores : List.map (fun item => toFixed0 (generated_lix item)) items
                    = List.map Fin (List.map (fun _ => q') items)).
  { rewrite map_map. apply map_ext_in. intros a Ha. rewrite (Hq a Ha). exact Eq'. }
  rewrite Escores.
  assert (Hne' : List.map (fun _ : SpineItemContent => q') items <> []).
  { destruct items; [congruence | discriminate]. }
  destruct (getStandardDeviation_Q _ Hne') as (v & -> & Hv).
  assert (Hv0 : (v == 0)%Q).
  { rewrite Hv. apply (varianceQ_const _ q').
    intros x Hx. apply in_map_iff in Hx. destruct Hx as (? & <- & _).
    reflexivity. }
  rewrite (root_gt_compat v 0 (Fin cap) Hv0).
  cbn [Math_sqrt root_gt]. change (Qltb 0 0) with false. cbn [root_gt].
  apply orb_false_iff. split; apply Qltb_ge; [exact Hcap|].
  unfold Qle, Qmult. cbn [Qnum Qden]. nia.
Qed.

Lemma filterItemsUsingStandardDeviation_equal_scores_witness :
  filterItemsUsingStandardDeviation [scored "only" 31] STANDARD_DEVIATION_FACTOR
  = OK [scored "only" 31].
Proof.
  apply (filterItemsUsingStandardDeviation_equal_scores
           [scored "only" 31] (inject_Z 31) 6).
  - discriminate.
  - intros item [<-|[]]. reflexivity.
  - discriminate.
Defined.

(** ** Searching for a printed LIX *)

Lemma skipn_nth_error {A} (l : list A) (i : nat) (x : A) :
  nth_error l i = Some x -> skipn i l = x :: skipn (S i) l.
Proof.
  revert i. induction l as [|a l IH]; intros [|i] H; try discriminate H.
  - injection H as ->. reflexivity.
  - cbn [nth_error] in H. cbn [skipn]. apply IH, H.
Qed.

Lemma search_match_at (ic : bool) (s : str) (r : regex) (fuel i start : nat)
  (st : state) :
  search ic s r fuel i = Some (start, st) -> match_at ic s r start = Some st.
Proof.
  revert i. induction fuel as [|fuel IH]; intros i H; cbn [search] in H;
    destruct (match_at ic s r i) as [st'|] eqn:E.
  - injection H as <- <-. exact E.
  - discriminate H.
  - injection H as <- <-. exact E.
  - exact (IH _ H).
Qed.

Lemma peel_Seq (ic : bool) (s : str) (r1 r2 : regex) (k : continuation)
  (i : nat) (cap : captures) (st : state) :
  i <= List.length s ->
  m ic s (Seq r1 r2) k i cap = Some st ->
  exists j c, j <= List.length s /\ m ic s r2 k j c = Some st.
Proof.
  intros Hi H. rewrite m_Seq in H.
  destruct (m_reaches ic s r1 _ _ _ _ Hi H) as (j & c & Hj & Hk).
  exists j, c. split; [lia | exact Hk].
Qed.

Lemma m_Digit (s : str) (k : continuation) (i : nat) (cap : captures)
  (st : state) :
  m true s (Class false [Digit]) k i cap = Some st ->
  exists d, nth_error s i = Some d /\ is_digit d = true
            /\ k (S i) cap = Some st.
Proof.
  rewrite m_Class. destruct (nth_error s i) as [d|]; [|discriminate].
  cbn [existsb in_item xorb]. rewrite orb_false_r.
  destruct (is_digit d) eqn:D; [|discriminate].
  intro H. exists d. split; [reflexivity|]. split; assumption.
Qed.

(** One or two digits in group 1, then a negative lookahead: the match ends
    after the digits and the group spans them. *)
Lemma group_digits (s : str) (la : regex) (i : nat) (cap : captures)
  (st : state) :
  m true s (Seq (Group (rep12 (Class false [Digit]))) (LookAhead true la))
    (fun j c => Some (j, c)) i cap = Some st ->
  exists j d1,
    snd st = Some (i, j) /\ nth_error s i = Some d1 /\ is_digit d1 = true
    /\ (j = S i
        \/ (j = S (S i)
            /\ exists d2, nth_error s (S i) = Some d2 /\ is_digit d2 = true)).
Proof.
  intro H. rewrite m_Seq in H. unfold rep12, opt in H.
  change (m true s (Group ?r) ?k i cap)
    with (m true s r (fun j _ => k j (Some (i, j))) i cap) in H.
  rewrite m_Seq in H. apply m_Digit in H. destruct H as (d1 & E1 & D1 & H).
  cbn beta in H.
  change (m true s (Alt ?a Empty) ?k (S i) cap)
    with (match m true s a k (S i) cap with
          | Some s0 => Some s0
          | None => k (S i) cap
          end) in H.
  destruct (m true s (Class false [Digit]) _ (S i) cap) as [st'|] eqn:E2.
  - injection H as ->. apply m_Digit in E2. destruct E2 as (d2 & E2 & D2 & H).
    cbn beta in H. cbn [m] in H.
    destruct (m true s la _ (S (S i)) _) as [[? ?]|]; [discriminate H|].
    injection H as <-. exists (S (S i)), d1. cbn [snd]. repeat split; eauto.
  - cbn beta in H. cbn [m] in H.
    destruct (m true s la _ (S i) _) as [[? ?]|]; [discriminate H|].
    injection H as <-. exists (S i), d1. cbn [snd]. repeat split; auto.
Qed.

Lemma LIX_REGEX_capture (s : str) (i : nat) (st : state) :
  i <= List.length s ->
  match_at true s LIX_REGEX i = Some st ->
  exists p j d1,
    snd st = Some (p, j) /\ nth_error s p = Some d1 /\ is_digit d1 = true
    /\ (j = S p
        \/ (j = S (S p)
            /\ exists d2, nth_error s (S p) = Some d2 /\ is_digit d2 = true)).
Proof.
  unfold match_at, LIX_REGEX. intros H0 H.
  destruct (peel_Seq _ _ _ _ _ _ _ _ H0 H) as (j1 & c1 & H1 & G1).
  destruct (peel_Seq _ _ _ _ _ _ _ _ H1 G1) as (j2 & c2 & H2 & G2).
  destruct (peel_Seq _ _ _ _ _ _ _ _ H2 G2) as (j3 & c3 & H3 & G3).
  destruct (peel_Seq _ _ _ _ _ _ _ _ H3 G3) as (j4 & c4 & H4 & G4).
  destruct (peel_Seq _ _ _ _ _ _ _ _ H4 G4) as (j5 & c5 & H5 & G5).
  destruct (peel_Seq _ _ _ _ _ _ _ _ H5 G5) as (j6 & c6 & H6 & G6).
  destruct (peel_Seq _ _ _ _ _ _ _ _ H6 G6) as (j7 & c7 & H7 & G7).
  exists j7. exact (group_digits _ _ _ _ _ G7).
Qed.

Lemma digit_value (d : N) :
  is_digit d = true -> (0 <= Z.of_N d - 48 <= 9)%Z.
Proof.
  unfold is_digit. intro H. apply andb_prop in H. destruct H as [H1 H2].
  apply N.leb_le in H1, H2. lia.
Qed.

(** The digits of group 1 read as a number from 0 to 99. *)
Lemma parsed_capture (s : str) (p j : nat) (d1 : N) :
  nth_error s p = Some d1 -> is_digit d1 = true ->
  j = S p
  \/ (j = S (S p)
      /\ exists d2, nth_error s (S p) = Some d2 /\ is_digit d2 = true) ->
  exists n : Z, (0 <= n <= 99)%Z /\ parseInt (substring s p j) = of_Z n.
Proof.
  intros E1 D1 [->|(-> & d2 & E2 & D2)]; unfold substring;
    rewrite (skipn_nth_error s p d1 E1).
  - replace (S p - p) with 1 by lia. cbn [firstn parseInt fold_left].
    eexists. split; [|reflexivity]. apply digit_value in D1. lia.
  - replace (S (S p) - p) with 2 by lia.
    rewrite (skipn_nth_error s (S p) d2 E2).
    cbn [firstn parseInt fold_left].
    eexists. split; [|reflexivity].
    apply digit_value in D1. apply digit_value in D2. lia.
Qed.

Lemma searchForLixInText_value (text : str) (v : number) :
  searchForLixInText text = Some v ->
  exists n : Z, (0 <= n <= 99)%Z /\ v = of_Z n.
Proof.
  unfold searchForLixInText.
  destruct (exec true text LIX_REGEX 0) as [[start [e cap]]|] eqn:E;
    [|discriminate].
  assert (Hb := exec_bounds _ _ _ _ _ _ _ E).
  unfold exec in E. destruct (List.length text <? 0); [discriminate E|].
  apply search_match_at in E.
  destruct (LIX_REGEX_capture text start (e, cap) ltac:(lia) E)
    as (p & j & d1 & Hc & E1 & D1 & Hj).
  cbn [snd] in Hc. subst cap. intro H. injection H as <-.
  destruct (parsed_capture text p j d1 E1 D1 Hj) as (n & Hn & ->).
  exists n. split; [exact Hn | reflexivity].
Qed.

(** X13. The LIX read from a text is [null] or a whole number from 0 to 99:
    the digits that were matched are at most two, so the value is never
    [NaN], never negative and never has three digits. *)
Theorem searchForLixInText_range (text : str) :
  searchForLixInText text = None
  \/ exists n : Z, (0 <= n <= 99)%Z /\ searchForLixInText text = Some (of_Z n).
Proof.
  destruct (searchForLixInText text) as [v|] eqn:E; [right | left; reflexivity].
  destruct (searchForLixInText_value text v E) as (n & Hn & ->).
  exists n. split; [exact Hn | reflexivity].
Qed.

Lemma found_value (text : str) (v : number) :
  found (searchForLixInText text) = Some v ->
  exists n : Z, (1 <= n <= 99)%Z /\ v = of_Z n.
Proof.
  unfold found. destruct (searchForLixInText text) as [v'|] eqn:E;
    [|discriminate].
  destruct (searchForLixInText_value text v' E) as (n & Hn & ->).
  destruct (truthy (of_Z n)) eqn:T; [|discriminate].
  intro H. injection H as <-. exists n. split; [|reflexivity].
  assert (n <> 0%Z); [|lia]. intros ->. discriminate T.
Qed.

Lemma searchItems_None (items : list SpineItem) :
  searchItems items = None
  <-> forall item, In item items -> found (searchForLixInText (text item)) = None.
Proof.
  induction items as [|x l IH]; cbn [searchItems].
  - split; [intros _ item [] | reflexivity].
  - destruct (found (searchForLixInText (text x))) as [v|] eqn:E.
    + split; [discriminate|]. intro H.
      rewrite (H x (or_introl eq_refl)) in E. discriminate E.
    + rewrite IH. split.
      * intros H item [<-|Hin]; [exact E | exact (H item Hin)].
      * intros H item Hin. apply H. right. exact Hin.
Qed.

Lemma searchItems_Some (items : list SpineItem) (v : number) :
  searchItems items = Some v ->
  exists item, In item items /\ found (searchForLixInText (text item)) = Some v.
Proof.
  induction items as [|x l IH]; cbn [searchItems]; [discriminate|].
  destruct (found (searchForLixInText (text x))) as [v'|] eqn:E.
  - intro H. injection H as <-. exists x. split; [left; reflexivity | exact E].
  - intro H. destruct (IH H) as (item & Hin & Hf).
    exists item. split; [right; exact Hin | exact Hf].
Qed.

Lemma searchForLixInItems_Some (items : list SpineItem) (v : number) :
  searchForLixInItems items = Some v ->
  exists item, In item items /\ found (searchForLixInText (text item)) = Some v.
Proof.
  unfold searchForLixInItems.
  destruct (List.find _ items) as [c|] eqn:Ec.
  - destruct (found (searchForLixInText (text c))) as [v'|] eqn:E.
    + intro H. injection H as <-. exists c. split; [|exact E].
      apply find_some in Ec. apply Ec.
    + apply searchItems_Some.
  - apply searchItems_Some.
Qed.

(** X14. The LIX found in the items is [null] exactly when no item prints a
    value that is truthy; otherwise it is the value of one of the items,
    a whole number from 1 to 99 (a printed 0 counts as not found). *)
Theorem searchForLixInItems_result (items : list SpineItem) :
  (searchForLixInItems items = None
   <-> forall item, In item items ->
                    found (searchForLixInText (text item)) = None)
  /\ (forall v, searchForLixInItems items = Some v ->
        (exists n : Z, (1 <= n <= 99)%Z /\ v = of_Z n)
        /\ exists item, In item items
                        /\ found (searchForLixInText (text item)) = Some v).
Proof.
  split.
  - split.
    + intros H item Hin.
      destruct (found (searchForLixInText (text item))) as [v|] eqn:E;
        [|reflexivity].
      unfold searchForLixInItems in H.
      assert (Hs : searchItems items = None).
      { destruct (List.find _ items) as [c|];
          [destruct (found (searchForLixInText (text c))); [discriminate H|]|];
          exact H. }
      rewrite (proj1 (searchItems_None items) Hs item Hin) in E. discriminate E.
    + intro H. unfold searchForLixInItems.
      destruct (List.find _ items) as [c|] eqn:Ec.
      * apply find_some in Ec. rewrite (H c (proj1 Ec)).
        apply searchItems_None, H.
      * apply searchItems_None, H.
  - intros v H. destruct (searchForLixInItems_Some items v H) as (item & Hin & Hf).
    split; [exact (found_value _ _ Hf) | exists item; split; assumption].
Qed.

(** ** The scores of the items and the analysis *)

Lemma toFixed0_truthy (q : Q) :
  (0 <= q)%Q -> truthy (toFixed0 (Fin q)) = true ->
  exists q', (1 <= q')%Q /\ toFixed0 (Fin q) = Fin q'.
Proof.
  intros Hq. unfold toFixed0.
  destruct (Qle_bool (inject_Z (10 ^ 21)) (Qabs q)) eqn:Big.
  - intros _. exists q. split; [|reflexivity].
    apply Qle_bool_iff in Big. rewrite (Qabs_pos q Hq) in Big.
    apply Qle_trans with (y := inject_Z (10 ^ 21)); [discriminate | exact Big].
  - assert (E : Qltb q 0 = false) by (apply Qltb_ge, Hq). rewrite E.
    intro T. eexists. split; [|reflexivity].
    assert (H0 : (0 <= Qround_half_up q)%Z).
    { unfold Qround_half_up. change 0%Z with (Qfloor 0). apply Qfloor_resp_le.
      apply Qle_trans with (y := q); [exact Hq|].
      rewrite <- (Qplus_0_r q) at 1. apply Qplus_le_r. discriminate. }
    assert (H1 : Qround_half_up q <> 0%Z).
    { intro Z0. unfold of_Z in T. rewrite Z0 in T. discriminate T. }
    unfold Qle, inject_Z. cbn [Qnum Qden]. lia.
Qed.

Lemma calculateLixFromStats_truthy (w l s : nat) :
  0 < w -> 0 < s ->
  truthy (calculateLixFromStats
            {| word_count := w; long_word_count := l; sentence_count := s |})
  = true ->
  exists q, (1 <= q)%Q
            /\ calculateLixFromStats
                 {| word_count := w; long_word_count := l; sentence_count := s |}
               = Fin q.
Proof.
  intros Hw Hs. destruct w as [|m]; [lia|]. destruct s as [|n]; [lia|].
  unfold calculateLixFromStats.
  cbn [word_count long_word_count sentence_count].
  rewrite !div_by_length. unfold of_nat, of_Z. cbn [mul add].
  apply toFixed0_truthy.
  apply (lix_value_nonneg (Pos.of_succ_nat m) (Pos.of_succ_nat n) (Z.of_nat l)).
  lia.
Qed.

(** What a truthy score says about the item it was computed from. *)
Lemma scoreItem_truthy (basename : str -> str) (item : SpineItem) :
  truthy (generated_lix (scoreItem basename item)) = true ->
  (exists q, (1 <= q)%Q /\ generated_lix (scoreItem basename item) = Fin q)
  /\ 0 < word_count (contentStats (extractContentFromText (text item)))
  /\ 0 < sentence_count (contentStats (extractContentFromText (text item)))
  /\ long_word_count (contentStats (extractContentFromText (text item)))
     <= word_count (contentStats (extractContentFromText (text item))).
Proof.
  intro T.
  assert (Hw : 0 < word_count (contentStats (extractContentFromText (text item)))).
  { destruct (word_count _) eqn:E; [|lia].
    rewrite (score_of_empty_item basename item (or_intror E)) in T.
    discriminate T. }
  assert (Hs : 0 < sentence_count (contentStats (extractContentFromText (text item)))).
  { destruct (sentence_count _) eqn:E; [|lia].
    rewrite (score_of_empty_item basename item (or_introl E)) in T.
    discriminate T. }
  split; [|split; [exact Hw|split; [exact Hs|]]].
  - unfold scoreItem in *. cbn [generated_lix] in *.
    destruct (contentStats (extractContentFromText (text item))) as [w l s].
    cbn [word_count sentence_count] in Hw, Hs.
    apply calculateLixFromStats_truthy; assumption.
  - unfold contentStats. cbn [long_word_count word_count].
    change (long_words (extractContentFromText (text item)))
      with (List.filter (fun word => 6 <? List.length word)
              (words (extractContentFromText (text item)))).
    apply filter_length_le.
Qed.

Lemma filteredSpineItemContent_In (basename : str -> str)
  (spineItems : list SpineItem) (c : SpineItemContent) :
  In c (filteredSpineItemContent basename spineItems)
  <-> exists item, In item (contentItems spineItems)
                   /\ c = scoreItem basename item
                   /\ truthy (generated_lix (scoreItem basename item)) = true.
Proof.
  unfold filteredSpineItemContent. rewrite filter_In, in_map_iff. split.
  - intros [(item & <- & Hin) T]. exists item. repeat split; assumption.
  - intros (item & Hin & -> & T). split; [|exact T].
    exists item. split; [reflexivity | exact Hin].
Qed.

Lemma getSpineItemStats_In (basename : str -> str)
  (localeCompare : str -> str -> number) (spineItems : list SpineItem)
  (stats : list SpineItemStats) :
  getSpineItemStats basename localeCompare spineItems = OK stats ->
  stats <> []
  /\ forall st, In st stats ->
       exists item, In item (contentItems spineItems)
                    /\ st = itemStats (scoreItem basename item)
                    /\ truthy (generated_lix (scoreItem basename item)) = true.
Proof.
  intro H. destruct (getSpineItemStats_inv _ _ _ _ H) as (kept & Hk & ->).
  assert (Hp := sort_perm (compareTitle localeCompare) (List.map itemStats kept)).
  split.
  - intro E. apply sort_nil_inv in E.
    apply (filterItemsUsingStandardDeviation_nonempty _ _ _ Hk).
    destruct kept; [reflexivity | discriminate E].
  - intros st Hin. apply (Permutation_in st Hp) in Hin.
    apply in_map_iff in Hin. destruct Hin as (c & <- & Hc).
    apply (filterItemsUsingStandardDeviation_incl _ _ _ Hk) in Hc.
    apply filteredSpineItemContent_In in Hc.
    destruct Hc as (item & Hin & -> & T). exists item. repeat split; assumption.
Qed.

Lemma getSpineItemStats_throws (basename : str -> str)
  (localeCompare : str -> str -> number) (spineItems : list SpineItem) :
  (exists e, getSpineItemStats basename localeCompare spineItems = Throw e)
  <-> filteredSpineItemContent basename spineItems = [].
Proof.
  unfold getSpineItemStats. split.
  - intros [e H].
    destruct (filteredSpineItemContent basename spineItems) as [|c l] eqn:E;
      [reflexivity|].
    destruct (filter_kept_part (c :: l) STANDARD_DEVIATION_FACTOR
                ltac:(discriminate)) as (kept & Hk & _).
    rewrite Hk in H. discriminate H.
  - intros ->. eexists. reflexivity.
Qed.

(** X15. [getSpineItemStats] throws exactly when no content item has a
    truthy score. Otherwise it returns at least one entry, and every entry
    belongs to a content item, carries the score computed from its own
    counts, a finite score of at least 1, and counts with at least one word,
    at least one sentence and no more long words than words. *)
Theorem getSpineItemStats_result (basename : str -> str)
  (localeCompare : str -> str -> number) (spineItems : list SpineItem) :
  ((exists e, getSpineItemStats basename localeCompare spineItems = Throw e)
   <-> forall item, In item (contentItems spineItems) ->
         truthy (generated_lix (scoreItem basename item)) = false)
  /\ (forall stats,
        getSpineItemStats basename localeCompare spineItems = OK stats ->
        stats <> []
        /\ forall st, In st stats ->
             (exists item, In item (contentItems spineItems)
                           /\ stats_title st = basename (path item))
             /\ stats_generated_lix st = calculateLixFromStats (counts st)
             /\ (exists q, (1 <= q)%Q /\ stats_generated_lix st = Fin q)
             /\ 0 < word_count (counts st)
             /\ 0 < sentence_count (counts st)
             /\ long_word_count (counts st) <= word_count (counts st)).
Proof.
  split.
  - rewrite getSpineItemStats_throws. split.
    + intros E item Hin.
      destruct (truthy (generated_lix (scoreItem basename item))) eqn:T;
        [|reflexivity].
      assert (Hc : In (scoreItem basename item)
                      (filteredSpineItemContent basename spineItems)).
      { apply filteredSpineItemContent_In. exists item. repeat split; assumption. }
      rewrite E in Hc. destruct Hc.
    + intro H.
      destruct (filteredSpineItemContent basename spineItems) as [|c l] eqn:E;
        [reflexivity|].
      assert (Hc : In c (filteredSpineItemContent basename spineItems))
        by (rewrite E; left; reflexivity).
      apply filteredSpineItemContent_In in Hc.
      destruct Hc as (item & Hin & _ & T). rewrite (H item Hin) in T.
      discriminate T.
  - intros stats H. destruct (getSpineItemStats_In _ _ _ _ H) as [Hne Hall].
    split; [exact Hne|]. intros st Hin.
    destruct (Hall st Hin) as (item & Hitem & -> & T).
    destruct (scoreItem_truthy basename item T) as (Hq & Hw & Hs & Hl).
    split; [exists item; split; [exact Hitem | reflexivity]|].
    split; [reflexivity|]. split; [exact Hq|].
    split; [exact Hw|]. split; [exact Hs | exact Hl].
Qed.

Lemma getSpineItemStats_result_witness :
  (exists e, getSpineItemStats whole_path no_order [dots_chapter] = Throw e)
  /\ exists stats,
       getSpineItemStats whole_path no_order [prose_chapter; colophon_item]
       = OK stats
       /\ stats <> [].
Proof.
  split.
  - apply (proj1 (getSpineItemStats_result whole_path no_order [dots_chapter])).
    intros item Hin. vm_compute in Hin. destruct Hin as [<-|[]].
    vm_compute. reflexivity.
  - destruct (getSpineItemStats whole_path no_order [prose_chapter; colophon_item])
      as [stats|e] eqn:E; [|vm_compute in E; discriminate E].
    exists stats. split; [reflexivity|].
    apply (proj2 (getSpineItemStats_result whole_path no_order
                    [prose_chapter; colophon_item]) stats E).
Defined.

Lemma finite_values (P : Q -> Prop) (values : list number) :
  (forall v, In v values -> exists q, P q /\ v = Fin q) ->
  exists qs, values = List.map Fin qs /\ forall q, In q qs -> P q.
Proof.
  induction values as [|v l IH]; intro H.
  - exists []. split; [reflexivity | intros q []].
  - destruct (H v (or_introl eq_refl)) as (q & Hq & ->).
    destruct IH as (qs & -> & Hqs); [intros x Hx; apply H; right; exact Hx|].
    exists (q :: qs). split; [reflexivity|].
    intros x [<-|Hx]; [exact Hq | exact (Hqs x Hx)].
Qed.

Lemma middle_lower (s : list Q) (lo : Q) :
  s <> [] ->
  (forall x, In x s -> lo <= x)%Q ->
  (lo <= middle s)%Q.
Proof.
  intros Hne H.
  assert (Hlen : 0 < List.length s) by (destruct s; [congruence | simpl; lia]).
  assert (Hmid : List.length s / 2 < List.length s) by (apply Nat.div_lt; lia).
  assert (Hin := nth_In s 0%Q Hmid).
  unfold middle. destruct (Nat.even (List.length s)).
  - assert (Hin' : In (nth (List.length s / 2 - 1) s 0%Q) s)
      by (apply nth_In; lia).
    apply Qle_shift_div_l; [reflexivity|].
    setoid_replace (lo * 2)%Q with (lo + lo)%Q by ring.
    apply Qplus_le_compat; apply H; assumption.
  - apply H, Hin.
Qed.

Lemma sumCounts_positive (count : TextContentStats -> nat)
  (items : list SpineItemStats) :
  items <> [] ->
  (forall st, In st items -> 0 < count (counts st)) ->
  0 < sumCounts count items.
Proof.
  destruct items as [|x l]; [congruence|]. intros _ H.
  unfold sumCounts, list_sum. cbn [List.map fold_right].
  assert (Hx := H x (or_introl eq_refl)). lia.
Qed.

Lemma sumCounts_le (f g : TextContentStats -> nat)
  (items : list SpineItemStats) :
  (forall st, In st items -> f (counts st) <= g (counts st)) ->
  sumCounts f items <= sumCounts g items.
Proof.
  induction items as [|x l IH]; intro H; unfold sumCounts, list_sum in *;
    cbn [List.map fold_right]; [lia|].
  assert (Hx := H x (or_introl eq_refl)).
  assert (Hl := IH (fun st Hst => H st (or_intror Hst))). lia.
Qed.

(** X16. A successful analysis reports a finite LIX of at least 1: the
    value found in the text when there is one, and otherwise the median of
    the item scores, which is never missing, so that the LIX generated from
    the totals is never the one reported. The totals hold at least one word
    and one sentence and no more long words than words, and the LIX
    generated from them is finite. *)
Theorem analyzeEpub_lix (basename : str -> str)
  (localeCompare : str -> str -> number) (bytes : N)
  (spineItems : list SpineItem) (a : Analysis) :
  analyzeEpub basename localeCompare bytes spineItems = OK a ->
  (exists q, (1 <= q)%Q /\ lix a = Fin q)
  /\ (lix_found (stats a) = Some (lix a)
      \/ (lix_found (stats a) = None /\ lix_median (stats a) = Some (lix a)))
  /\ 0 < word_count (totals (stats a))
  /\ 0 < sentence_count (totals (stats a))
  /\ long_word_count (totals (stats a)) <= word_count (totals (stats a))
  /\ exists g, (0 <= g)%Q /\ lix_generated (stats a) = Fin g.
Proof.
  intro Ha.
  destruct (analyzeEpub_inv _ _ _ _ _ Ha)
    as (st & Hst & _ & Ht & Hg & Hm & Hf & Hl).
  destruct (getSpineItemStats_In _ _ _ _ Hst) as [Hne Hall].
  assert (Hitems : forall x, In x st ->
            (exists q, (1 <= q)%Q /\ stats_generated_lix x = Fin q)
            /\ 0 < word_count (counts x) /\ 0 < sentence_count (counts x)
            /\ long_word_count (counts x) <= word_count (counts x)).
  { intros x Hx. destruct (Hall x Hx) as (item & _ & -> & T).
    exact (scoreItem_truthy basename item T). }
  assert (Hmed : exists q, (1 <= q)%Q /\ lix_median (stats a) = Some (Fin q)).
  { destruct (finite_values (fun q => 1 <= q)%Q (List.map stats_generated_lix st))
      as (qs & Eqs & Hqs).
    { intros v Hv. apply in_map_iff in Hv. destruct Hv as (x & <- & Hx).
      exact (proj1 (Hitems x Hx)). }
    assert (Hqne : qs <> []).
    { intros ->. destruct st; [congruence | discriminate Eqs]. }
    rewrite Hm, Eqs, (getMedian_finite qs Hqne). eexists. split; [|reflexivity].
    apply middle_lower.
    - intro E. apply Hqne. eapply sort_nil_inv, E.
    - intros x Hx. apply Hqs.
      exact (Permutation_in x (sort_perm compareQ qs) Hx). }
  destruct Hmed as (qm & Hqm & Em).
  assert (Hw : 0 < word_count (totals (stats a))).
  { rewrite Ht, getTotalStats_sumCounts. cbn [word_count].
    apply sumCounts_positive; [exact Hne|]. intros x Hx. apply (Hitems x Hx). }
  assert (Hs : 0 < sentence_count (totals (stats a))).
  { rewrite Ht, getTotalStats_sumCounts. cbn [sentence_count].
    apply sumCounts_positive; [exact Hne|]. intros x Hx. apply (Hitems x Hx). }
  split; [|split; [|split; [exact Hw|split; [exact Hs|split]]]].
  - rewrite Hl, Hf.
    destruct (searchForLixInItems spineItems) as [v|] eqn:Ef; cbn [nullish].
    + destruct (searchForLixInItems_Some _ _ Ef) as (item & _ & Hv).
      destruct (found_value _ _ Hv) as (n & Hn & ->).
      exists (inject_Z n). split; [|reflexivity].
      unfold Qle, inject_Z. cbn [Qnum Qden]. lia.
    + rewrite Em. cbn [nullish]. exists qm. split; [exact Hqm | reflexivity].
  - rewrite Hl. destruct (lix_found (stats a)) as [v|]; cbn [nullish].
    + left. reflexivity.
    + right. split; [reflexivity|]. rewrite Em. reflexivity.
  - rewrite Ht, getTotalStats_sumCounts. cbn [word_count long_word_count].
    apply sumCounts_le. intros x Hx. apply (Hitems x Hx).
  - rewrite Hg. rewrite Ht in Hw, Hs.
    destruct (getTotalStats st) as [w l s]. cbn [word_count sentence_count] in Hw, Hs.
    apply calculateLixFromStats_finite; assumption.
Qed.

Lemma analyzeEpub_lix_witness :
  exists a,
    analyzeEpub whole_path no_order 4096 [prose_chapter; title_chapter] = OK a
    /\ (exists q, (1 <= q)%Q /\ lix a = Fin q)
    /\ lix_found (stats a) = None
    /\ lix_median (stats a) = Some (lix a).
Proof.
  destruct (analyzeEpub whole_path no_order 4096 [prose_chapter; title_chapter])
    as [a|e] eqn:E; [|vm_compute in E; discriminate E].
  exists a. split; [reflexivity|].
  destruct (analyzeEpub_lix _ _ _ _ _ E) as (Hq & Hor & _).
  split; [exact Hq|].
  destruct Hor as [Hfound|Hmed]; [|exact Hmed].
  vm_compute in E. injection E as <-. discriminate Hfound.
Defined.

(** X17. The analysis fails exactly when no content item has a truthy
    score, whatever the items print: a LIX found in the text does not save
    a book without a scored item. *)
Theorem analyzeEpub_fails (basename : str -> str)
  (localeCompare : str -> str -> number) (bytes : N)
  (spineItems : list SpineItem) :
  (exists e, analyzeEpub basename localeCompare bytes spineItems = Throw e)
  <-> filteredSpineItemContent basename spineItems = [].
Proof.
  rewrite <- (getSpineItemStats_throws basename localeCompare spineItems).
  unfold analyzeEpub.
  destruct (getSpineItemStats basename localeCompare spineItems) as [st|e];
    cbn [bind rethrow].
  - split; intros [e H]; discriminate H.
  - split; intros _; eexists; reflexivity.
Qed.

(** ** getMedianWithStandardDeviation *)







(** ** getUniqueStrings and compareArrays *)

Lemma str_eqb_true (a b : str) : str_eqb a b = true <-> a = b.
Proof.
  unfold str_eqb. destruct (list_eq_dec N.eq_dec a b); split;
    congruence.
Qed.

Lemma includes_In (array : list str) (s : str) :
  includes array s = true <-> In s array.
Proof.
  unfold includes. rewrite existsb_exists. split.
  - intros (x & Hx & E). apply str_eqb_true in E. subst x. exact Hx.
  - intro H. exists s. split; [exact H | apply str_eqb_true; reflexivity].
Qed.

Lemma indexOf_In (array : list str) (s : str) :
  (indexOf array s =? -1)%Z = false <-> In s array.
Proof.
  induction array as [|x l IH]; cbn [indexOf In].
  - split; [discriminate | intros []].
  - destruct (str_eqb x s) eqn:E.
    + apply str_eqb_true in E. split; [intros _; left; exact E | reflexivity].
    + assert (Hne : x <> s).
      { intro H. apply str_eqb_true in H. congruence. }
      destruct (indexOf l s =? -1)%Z eqn:Ei.
      * split; [discriminate|]. intros [H|H]; [contradiction|].
        apply IH in H. discriminate H.
      * assert (Hl : In s l) by (apply IH; reflexivity).
        split; [intros _; right; exact Hl|]. intros _.
        apply Z.eqb_neq. apply Z.eqb_neq in Ei.
        assert (Hge : forall a, (-1 <= indexOf a s)%Z).
        { induction a as [|y a IHa]; cbn [indexOf]; [lia|].
          destruct (str_eqb y s); [lia|].
          destruct (indexOf a s =? -1)%Z; lia. }
        specialize (Hge l). lia.
Qed.

Lemma unique_loop (lower : str -> str) (strings acc : list str) :
  NoDup acc ->
  NoDup (fold_left
           (fun uniqueStrings string =>
              if negb (includes uniqueStrings (lower string))
              then uniqueStrings ++ [lower string]
              else uniqueStrings)
           strings acc)
  /\ forall x,
       In x (fold_left
               (fun uniqueStrings string =>
                  if negb (includes uniqueStrings (lower string))
                  then uniqueStrings ++ [lower string]
                  else uniqueStrings)
               strings acc)
       <-> In x acc \/ In x (List.map lower strings).
Proof.
  revert acc. induction strings as [|s l IH]; intros acc Hacc;
    cbn [fold_left List.map].
  - split; [exact Hacc|]. intro x. cbn [In]. tauto.
  - destruct (includes acc (lower s)) eqn:E; cbn [negb].
    + destruct (IH acc Hacc) as [Hn Hin]. split; [exact Hn|].
      intro x. rewrite Hin. cbn [In]. apply includes_In in E.
      split; [tauto|]. intros [H|[H|H]]; [tauto | subst x; tauto | tauto].
    + assert (Hnot : ~ In (lower s) acc).
      { intro H. apply includes_In in H. congruence. }
      assert (Hacc' : NoDup (acc ++ [lower s])).
      { apply NoDup_app; [exact Hacc | repeat constructor; intros [] |].
        intros x Hx [<-|[]]. exact (Hnot Hx). }
      destruct (IH _ Hacc') as [Hn Hin]. split; [exact Hn|].
      intro x. rewrite Hin, in_app_iff. cbn [In]. tauto.
Qed.

(** X19. [getUniqueStrings] returns the lower-cased strings without
    repetition: every lower-cased input occurs in the result, exactly once,
    and nothing else does, whatever order the comparison of the platform
    gives. *)
Theorem getUniqueStrings_unique (toLocaleLowerCase : str -> str)
  (localeCompare : str -> str -> number) (strings : list str) :
  NoDup (getUniqueStrings toLocaleLowerCase localeCompare strings)
  /\ (forall x,
        In x (getUniqueStrings toLocaleLowerCase localeCompare strings)
        <-> In x (List.map toLocaleLowerCase strings))
  /\ List.length (getUniqueStrings toLocaleLowerCase localeCompare strings)
     <= List.length strings.
Proof.
  unfold getUniqueStrings.
  destruct (unique_loop toLocaleLowerCase strings [] (NoDup_nil _)) as [Hn Hin].
  set (u := fold_left _ strings []) in *.
  assert (Hp := sort_perm localeCompare u).
  split; [|split].
  - exact (Permutation_NoDup (Permutation_sym Hp) Hn).
  - intro x. split.
    + intro Hx. apply (Permutation_in x Hp), Hin in Hx.
      destruct Hx as [[]|Hx]. exact Hx.
    + intro Hx. apply (Permutation_in x (Permutation_sym Hp)), Hin.
      right. exact Hx.
  - rewrite (Permutation_length Hp).
    rewrite <- (length_map toLocaleLowerCase strings).
    apply NoDup_incl_length; [exact Hn|].
    intros x Hx. apply Hin in Hx. destruct Hx as [[]|Hx]. exact Hx.
Qed.

Lemma compare_loop (prefix : str) (other array acc : list str) (line : str) :
  In line (fold_left
             (fun uniqueValues x =>
                if (indexOf other x =? -1)%Z
                then uniqueValues ++ [prefix ++ x]
                else uniqueValues)
             array acc)
  <-> In line acc
      \/ exists x, In x array /\ ~ In x other /\ line = prefix ++ x.
Proof.
  revert acc. induction array as [|y l IH]; intro acc; cbn [fold_left].
  - split; [tauto|]. intros [H|(x & [] & _)]. exact H.
  - rewrite IH. destruct (indexOf other y =? -1)%Z eqn:E.
    + assert (Hy : ~ In y other).
      { intro H. apply indexOf_In in H. congruence. }
      rewrite in_app_iff. cbn [In]. split.
      * intros [[H|[H|[]]]|(x & Hx & Hn & ->)].
        -- left. exact H.
        -- right. exists y. repeat split; auto.
        -- right. exists x. repeat split; auto.
      * intros [H|(x & [->|Hx] & Hn & ->)].
        -- left. left. exact H.
        -- left. right. left. reflexivity.
        -- right. exists x. repeat split; auto.
    + assert (Hy : In y other) by (apply indexOf_In, E).
      split.
      * intros [H|(x & Hx & Hn & ->)]; [left; exact H|].
        right. exists x. cbn [In]. repeat split; auto.
      * intros [H|(x & [->|Hx] & Hn & ->)]; [left; exact H | contradiction|].
        right. exists x. repeat split; auto.
Qed.

(** X20. [compareArrays] prints one line for a string of the first array
    that is not in the second, and for a string of the second that is not
    in the first; it prints nothing exactly when the two arrays hold the
    same strings, whatever their order and repetitions. *)
Theorem compareArrays_lines (array1 array2 : list str) :
  (forall line,
      In line (compareArrays array1 array2)
      <-> (exists x, In x array1 /\ ~ In x array2
                     /\ line = codes "only in new: " ++ x)
          \/ (exists x, In x array2 /\ ~ In x array1
                        /\ line = codes "only in old: " ++ x))
  /\ (compareArrays array1 array2 = []
      <-> forall x, In x array1 <-> In x array2).
Proof.
  assert (Hlines : forall line,
      In line (compareArrays array1 array2)
      <-> (exists x, In x array1 /\ ~ In x array2
                     /\ line = codes "only in new: " ++ x)
          \/ (exists x, In x array2 /\ ~ In x array1
                        /\ line = codes "only in old: " ++ x)).
  { intro line. unfold compareArrays. rewrite !compare_loop. cbn [In]. tauto. }
  split; [exact Hlines|]. split.
  - intros E x.
    assert (Hno : forall line, ~ In line (compareArrays array1 array2))
      by (rewrite E; intros line []).
    split; intro Hx.
    + destruct (in_dec str_dec x array2) as [H|H]; [exact H|].
      exfalso. apply (Hno (codes "only in new: " ++ x)). apply Hlines.
      left. exists x. repeat split; auto.
    + destruct (in_dec str_dec x array1) as [H|H]; [exact H|].
      exfalso. apply (Hno (codes "only in old: " ++ x)). apply Hlines.
      right. exists x. repeat split; auto.
  - intro Hsame.
    destruct (compareArrays array1 array2) as [|line l]; [reflexivity|].
    assert (Hin : In line (line :: l)) by (left; reflexivity).
    apply Hlines in Hin.
    destruct Hin as [(x & Hx & Hn & _)|(x & Hx & Hn & _)];
      exfalso; apply Hn, Hsame, Hx.
Qed.

(** ** The material identifier *)

Lemma search_None (ic : bool) (s : str) (r : regex) (fuel i : nat) :
  search ic s r fuel i = None
  <-> forall j, i <= j <= i + fuel -> match_at ic s r j = None.
Proof.
  revert i. induction fuel as [|fuel IH]; intro i; cbn [search];
    destruct (match_at ic s r i) as [st|] eqn:E.
  - split; [discriminate|]. intro H. rewrite (H i) in E by lia. discriminate E.
  - split; [|reflexivity]. intros _ j Hj. replace j with i by lia. exact E.
  - split; [discriminate|]. intro H. rewrite (H i) in E by lia. discriminate E.
  - rewrite IH. split.
    + intros H j Hj. destruct (Nat.eq_dec j i) as [->|Hne]; [exact E|].
      apply H. lia.
    + intros H j Hj. apply H. lia.
Qed.

Lemma test_true (ic : bool) (s : str) (r : regex) :
  test ic s r = true
  <-> exists j, j <= List.length s /\ match_at ic s r j <> None.
Proof.
  unfold test, exec. cbn [Nat.ltb Nat.leb]. rewrite Nat.sub_0_r.
  destruct (search ic s r (List.length s) 0) as [[start [e c]]|] eqn:E.
  - split; [intros _ | reflexivity].
    assert (Hb := search_bounds ic s r (List.length s) 0 start e c
                    (Nat.le_refl (List.length s)) E).
    apply search_match_at in E. exists start. split; [lia | congruence].
  - split; [discriminate|]. intros (j & Hj & Hm).
    exfalso. apply Hm. apply (proj1 (search_None ic s r _ 0) E). lia.
Qed.

Lemma m_digit (s : str) (k : continuation) (i : nat) (cap : captures) :
  m false s (Class false [Range (code "0") (code "9")]) k i cap
  = if digit_at s i then k (S i) cap else None.
Proof.
  rewrite m_Class. unfold digit_at.
  destruct (nth_error s i) as [ch|]; [|reflexivity].
  cbn [existsb in_item xorb]. rewrite orb_false_r. reflexivity.
Qed.

Lemma m_times_digit (s : str) (n : nat) (k : continuation) (i : nat)
  (cap : captures) :
  m false s (times n (Class false [Range (code "0") (code "9")])) k i cap
  = if forallb (digit_at s) (seq i n) then k (i + n) cap else None.
Proof.
  revert i. induction n as [|n IH]; intro i; cbn [times seq forallb].
  - cbn [m]. rewrite Nat.add_0_r. reflexivity.
  - rewrite m_Seq, m_digit. destruct (digit_at s i); cbn [andb]; [|reflexivity].
    rewrite IH. replace (S i + n) with (i + S n) by lia. reflexivity.
Qed.

(** A digit ends at [i] exactly when there is one at [i - 1]. *)
Lemma digit_behind (s : str) (i : nat) (cap : captures) :
  existsb
    (fun q =>
       match m false s (Class false [Range (code "0") (code "9")])
               (fun j c => if j =? i then Some (j, c) else None) q cap with
       | Some _ => true
       | None => false
       end)
    (seq 0 (S i))
  = match i with
    | O => false
    | S p => digit_at s p
    end.
Proof.
  apply eq_iff_eq_true. rewrite existsb_exists. split.
  - intros (q & Hq & H). rewrite m_digit in H.
    destruct (digit_at s q) eqn:D; [|discriminate H].
    destruct (Nat.eqb_spec (S q) i) as [<-|]; [exact D | discriminate H].
  - destruct i as [|p]; [discriminate|]. intro D. exists p. split.
    + apply in_seq. lia.
    + rewrite m_digit, D, Nat.eqb_refl. reflexivity.
Qed.

Lemma MATERIAL_REGEX_at (s : str) (i : nat) :
  match_at false s MATERIAL_REGEX i
  = if negb (match i with O => false | S p => digit_at s p end)
       && forallb (digit_at s) (seq i 13)
       && negb (digit_at s (i + 13))
    then Some (i + 13, None)
    else None.
Proof.
  unfold match_at, MATERIAL_REGEX. rewrite m_Seq.
  change (m false s (LookBehind true ?r) ?k i None)
    with (if xorb true
               (existsb
                  (fun q =>
                     match m false s r
                             (fun j c => if j =? i then Some (j, c) else None)
                             q None with
                     | Some _ => true
                     | None => false
                     end)
                  (seq 0 (S i)))
          then k i None else None).
  rewrite digit_behind. cbn [xorb].
  destruct (match i with O => false | S p => digit_at s p end);
    cbn [negb andb]; [reflexivity|].
  rewrite m_Seq, m_times_digit.
  destruct (forallb (digit_at s) (seq i 13)); cbn [andb]; [|reflexivity].
  cbn [m]. unfold digit_at.
  destruct (nth_error s (i + 13)) as [ch|]; [|reflexivity].
  cbn [existsb in_item xorb]. rewrite orb_false_r.
  change ((code "0" <=? ch)%N && (ch <=? code "9")%N) with (is_digit ch).
  destruct (is_digit ch); reflexivity.
Qed.

Lemma isolated_run_at (s : str) (i : nat) :
  match_at false s MATERIAL_REGEX i <> None <-> isolated_run s i.
Proof.
  rewrite MATERIAL_REGEX_at. unfold isolated_run. split.
  - destruct (negb _ && _ && _) eqn:E; [intros _ | congruence].
    apply andb_true_iff in E. destruct E as [E H3].
    apply andb_true_iff in E. destruct E as [H1 H2].
    split; [|split].
    + intros j Hj. apply (proj1 (forallb_forall _ _) H2). apply in_seq. lia.
    + destruct i as [|p]; [left; reflexivity | right].
      apply negb_true_iff in H1. cbn [Nat.sub]. rewrite Nat.sub_0_r. exact H1.
    + apply negb_true_iff, H3.
  - intros (H2 & H1 & H3).
    assert (E1 : negb (match i with O => false | S p => digit_at s p end) = true).
    { destruct i as [|p]; [reflexivity|]. destruct H1 as [H1|H1]; [discriminate|].
      cbn [Nat.sub] in H1. rewrite Nat.sub_0_r in H1. rewrite H1. reflexivity. }
    assert (E2 : forallb (digit_at s) (seq i 13) = true).
    { apply forallb_forall. intros j Hj. apply in_seq in Hj.
      replace j with (i + (j - i)) by lia. apply H2. lia. }
    rewrite E1, E2, H3. discriminate.
Qed.

(** X21. [handleAnalyzeEpubAPI] lets a material identifier pass exactly
    when it contains thirteen decimal digits in a row that have no digit
    directly before or after them; the identifier does not have to consist
    of these digits only. *)
Theorem materialIdRejected_iff (material_id : option str) :
  materialIdRejected material_id = false
  <-> exists id i, material_id = Some id /\ isolated_run id i.
Proof.
  destruct material_id as [id|]; cbn [materialIdRejected].
  - rewrite orb_false_iff, !negb_false_iff, test_true. split.
    + intros (_ & j & _ & Hj). exists id, j. split; [reflexivity|].
      apply isolated_run_at, Hj.
    + intros (id' & i & E & Hrun). injection E as <-.
      assert (D0 : digit_at id i = true).
      { replace i with (i + 0) by lia. apply (proj1 Hrun). lia. }
      assert (Hi : i < List.length id).
      { unfold digit_at in D0. apply nth_error_Some.
        destruct (nth_error id i); [discriminate | discriminate D0]. }
      split; [apply Nat.ltb_lt; lia|].
      exists i. split; [lia | apply isolated_run_at, Hrun].
  - split; [discriminate|]. intros (id & i & E & _). discriminate E.
Qed.

(** ** Replacing *)

Lemma consuming_advances (ic : bool) (s : str) (r : regex) :
  consuming r = true ->
  forall k i cap st,
    i <= List.length s -> m ic s r k i cap = Some st ->
    exists j c, i < j <= List.length s /\ k j c = Some st.
Proof.
  induction r as [|negated items|r1 IH1 r2 IH2|r1 IH1 r2 IH2|r1 IH1|r1 IH1
                  |negated r1 IH1|negated r1 IH1];
    cbn [consuming]; intro Hc; try discriminate Hc; intros k i cap st Hi H.
  - rewrite m_Class in H. destruct (nth_error s i) as [ch|] eqn:E;
      [|discriminate H].
    assert (i < List.length s) by (apply nth_error_Some; congruence).
    destruct (xorb _ _); [|discriminate H].
    exists (S i), cap. split; [lia | exact H].
  - rewrite m_Seq in H. destruct (consuming r1) eqn:C1.
    + destruct (IH1 eq_refl _ _ _ _ Hi H) as (j & c & Hj & H2).
      destruct (m_reaches ic s r2 _ _ _ _ (proj2 Hj) H2) as (j' & c' & Hj' & Hk).
      exists j', c'. split; [lia | exact Hk].
    + cbn [orb] in Hc.
      destruct (m_reaches ic s r1 _ _ _ _ Hi H) as (j & c & Hj & H2).
      destruct (IH2 Hc _ _ _ _ (proj2 Hj) H2) as (j' & c' & Hj' & Hk).
      exists j', c'. split; [lia | exact Hk].
  - apply andb_true_iff in Hc. destruct Hc as [C1 C2]. cbn [m] in H.
    destruct (m ic s r1 k i cap) as [s0|] eqn:E.
    + injection H as ->. exact (IH1 C1 _ _ _ _ Hi E).
    + exact (IH2 C2 _ _ _ _ Hi H).
  - cbn [m] in H. destruct (IH1 Hc _ _ _ _ Hi H) as (j & c & Hj & Hk).
    exists j, (Some (i, j)). split; [exact Hj | exact Hk].
Qed.

Lemma substring_beyond (s : str) (p : nat) :
  List.length s <= p -> substring s p (List.length s) = [].
Proof.
  intro H. unfold substring. replace (List.length s - p) with 0 by lia.
  reflexivity.
Qed.

Lemma substring_cons (s : str) (p j : nat) (a : N) :
  nth_error s p = Some a -> p < j ->
  substring s p j = a :: substring s (S p) j.
Proof.
  intros E H. unfold substring. rewrite (skipn_nth_error s p a E).
  replace (j - p) with (S (j - S p)) by lia. reflexivity.
Qed.

Section ReplaceFacts.
Variable ic : bool.
Variable s : str.
Variable r : regex.
Variable replacer : str -> str.
Hypothesis Hcons : consuming r = true.

Lemma match_nonempty (i e : nat) (c : captures) :
  i <= List.length s -> match_at ic s r i = Some (e, c) ->
  i < e <= List.length s.
Proof.
  intros Hi H.
  destruct (consuming_advances ic s r Hcons _ _ _ _ Hi H) as (j & c' & Hj & E).
  injection E as -> _. exact Hj.
Qed.

(** The loop read from left to right: behind the end of the input nothing
    is left; a character at which the pattern does not match is kept; a
    match is replaced. *)
Lemma replace_loop_ind (P : nat -> str -> Prop) :
  (forall p, List.length s <= p -> P p []) ->
  (forall p a out,
      nth_error s p = Some a -> match_at ic s r p = None ->
      P (S p) out -> P p (a :: out)) ->
  (forall p e c out,
      match_at ic s r p = Some (e, c) -> p < e <= List.length s ->
      P e out -> P p (replacer (substring s p e) ++ out)) ->
  forall n fuel p,
    S (List.length s) - p <= n -> S (List.length s) - p <= fuel ->
    P p (replace_loop ic s r replacer fuel p p).
Proof.
  intros Hend Hkeep Hrepl.
  assert (Hout : forall fuel p, List.length s < p ->
                   P p (replace_loop ic s r replacer fuel p p)).
  { intros fuel p Hp.
    assert (E : replace_loop ic s r replacer fuel p p = []).
    { destruct fuel; cbn [replace_loop]; [apply substring_beyond; lia|].
      unfold exec. rewrite (proj2 (Nat.ltb_lt _ _) Hp).
      apply substring_beyond. lia. }
    rewrite E. apply Hend. lia. }
  induction n as [|n IH]; intros fuel p Hn Hf; [apply Hout; lia|].
  destruct (Nat.leb_spec p (List.length s)) as [Hp|Hp]; [|apply Hout; lia].
  destruct fuel as [|fuel]; [lia|].
  assert (Hlt : (List.length s <? p) = false) by (apply Nat.ltb_ge; lia).
  destruct (match_at ic s r p) as [[e c]|] eqn:Em.
  - destruct (match_nonempty p e c Hp Em) as [He1 He2].
    assert (Eexec : exec ic s r p = Some (p, (e, c))).
    { unfold exec. rewrite Hlt.
      destruct (List.length s - p); cbn [search]; rewrite Em; reflexivity. }
    cbn [replace_loop]. rewrite Eexec.
    assert (Es : substring s p p = []).
    { unfold substring. rewrite Nat.sub_diag. reflexivity. }
    rewrite Es. cbn [app].
    rewrite (proj2 (Nat.eqb_neq e p)) by lia.
    apply (Hrepl p e c); [exact Em | lia|]. apply IH; lia.
  - destruct (Nat.eq_dec p (List.length s)) as [->|Hne].
    + cbn [replace_loop]. unfold exec. rewrite Hlt, Nat.sub_diag.
      cbn [search]. rewrite Em. rewrite substring_beyond by lia.
      apply Hend. lia.
    + destruct (nth_error s p) as [a|] eqn:Ea;
        [|apply nth_error_None in Ea; lia].
      assert (Eexec : exec ic s r p = exec ic s r (S p)).
      { unfold exec. rewrite Hlt.
        rewrite (proj2 (Nat.ltb_ge (List.length s) (S p))) by lia.
        replace (List.length s - p) with (S (List.length s - S p)) by lia.
        cbn [search]. rewrite Em. reflexivity. }
      assert (Estep : replace_loop ic s r replacer (S fuel) p p
                      = a :: replace_loop ic s r replacer (S fuel) (S p) (S p)).
      { cbn [replace_loop]. rewrite Eexec.
        destruct (exec ic s r (S p)) as [[start [e c]]|] eqn:E2.
        - apply exec_bounds in E2.
          rewrite (substring_cons s p start a Ea) by lia. reflexivity.
        - apply substring_cons; [exact Ea | lia]. }
      rewrite Estep. apply (Hkeep p a); [exact Ea | exact Em|].
      apply IH; lia.
Qed.

(** Any fuel from [length s + 1 - lastIndex] on gives the same string. *)
Lemma replace_loop_fuel (f1 f2 p lastIndex : nat) :
  S (List.length s) - lastIndex <= f1 ->
  S (List.length s) - lastIndex <= f2 ->
  replace_loop ic s r replacer f1 p lastIndex
  = replace_loop ic s r replacer f2 p lastIndex.
Proof.
  assert (Hend : forall f p i, List.length s < i ->
             replace_loop ic s r replacer f p i
             = substring s p (List.length s)).
  { intros [|f] p' i Hi; cbn [replace_loop]; [reflexivity|].
    unfold exec. destruct (Nat.ltb_spec (List.length s) i); [reflexivity | lia]. }
  revert f2 p lastIndex. induction f1 as [|f1 IH]; intros f2 p i H1 H2.
  - rewrite !Hend by lia. reflexivity.
  - destruct f2 as [|f2]; [rewrite !Hend by lia; reflexivity|].
    cbn [replace_loop].
    destruct (exec ic s r i) as [[start [e c]]|] eqn:E; [|reflexivity].
    apply exec_bounds in E. do 2 f_equal.
    destruct (Nat.eqb_spec e start); apply IH; lia.
Qed.

Lemma replace_ind (P : nat -> str -> Prop) :
  (forall p, List.length s <= p -> P p []) ->
  (forall p a out,
      nth_error s p = Some a -> match_at ic s r p = None ->
      P (S p) out -> P p (a :: out)) ->
  (forall p e c out,
      match_at ic s r p = Some (e, c) -> p < e <= List.length s ->
      P e out -> P p (replacer (substring s p e) ++ out)) ->
  P 0 (replace ic s r replacer).
Proof.
  intros H1 H2 H3. unfold replace.
  apply (replace_loop_ind P H1 H2 H3 (S (List.length s))); lia.
Qed.

(** Characters come from the input or from a replacement. *)
Lemma replace_keeps (bad : N -> bool) :
  (forall c, In c s -> bad c = false) ->
  (forall x c, In c (replacer x) -> bad c = false) ->
  forall c, In c (replace ic s r replacer) -> bad c = false.
Proof.
  intros Hs Hr.
  apply (replace_ind (fun _ out => forall c, In c out -> bad c = false)).
  - intros p _ c [].
  - intros p a out Ea _ IH c [<-|Hc]; [|exact (IH c Hc)].
    apply Hs. eapply nth_error_In, Ea.
  - intros p e c0 out _ _ IH c Hc. apply in_app_or in Hc.
    destruct Hc as [Hc|Hc]; [exact (Hr _ c Hc) | exact (IH c Hc)].
Qed.

(** No character is left at which the pattern matches. *)
Lemma replace_removes (bad : N -> bool) :
  (forall q ch, nth_error s q = Some ch -> bad ch = true ->
                match_at ic s r q <> None) ->
  (forall x c, In c (replacer x) -> bad c = false) ->
  forall c, In c (replace ic s r replacer) -> bad c = false.
Proof.
  intros Hm Hr.
  apply (replace_ind (fun _ out => forall c, In c out -> bad c = false)).
  - intros p _ c [].
  - intros p a out Ea Em IH c [<-|Hc]; [|exact (IH c Hc)].
    destruct (bad a) eqn:B; [|reflexivity].
    exfalso. exact (Hm p a Ea B Em).
  - intros p e c0 out _ _ IH c Hc. apply in_app_or in Hc.
    destruct Hc as [Hc|Hc]; [exact (Hr _ c Hc) | exact (IH c Hc)].
Qed.

Lemma replace_length :
  (forall x, List.length (replacer x) <= 1) ->
  List.length (replace ic s r replacer) <= List.length s.
Proof.
  intro Hr.
  assert (H : List.length (replace ic s r replacer) <= List.length s - 0);
    [|lia].
  apply (replace_ind (fun p out => List.length out <= List.length s - p)).
  - intros p _. cbn [List.length]. lia.
  - intros p a out Ea _ IH. cbn [List.length].
    assert (p < List.length s) by (apply nth_error_Some; congruence). lia.
  - intros p e c out _ He IH. rewrite length_app.
    specialize (Hr (substring s p e)). lia.
Qed.
End ReplaceFacts.

(** ** cleanUpFormatting *)

Lemma class_matches (s : str) (items : list citem) (q : nat) (ch : N) :
  nth_error s q = Some ch ->
  existsb (in_item false ch) items = true ->
  match_at false s (Class false items) q <> None.
Proof.
  intros E B. unfold match_at. rewrite m_Class, E, B. discriminate.
Qed.

Lemma class_opt_matches (s : str) (items : list citem) (r2 : regex)
  (q : nat) (ch : N) :
  nth_error s q = Some ch ->
  existsb (in_item false ch) items = true ->
  match_at false s (Seq (Class false items) (opt r2)) q <> None.
Proof.
  intros E B. unfold match_at, opt. rewrite m_Seq, m_Class, E, B.
  cbn [xorb m]. destruct (m false s r2 _ (S q) None); discriminate.
Qed.

Lemma m_space (s : str) (k : continuation) (i : nat) (cap : captures) :
  m false s (Class false [Space]) k i cap
  = if space_at s i then k (S i) cap else None.
Proof.
  rewrite m_Class. unfold space_at.
  destruct (nth_error s i) as [ch|]; [|reflexivity].
  cbn [existsb in_item xorb]. rewrite orb_false_r. reflexivity.
Qed.

(** The greedy star of white space stops in front of a character that is
    not white space, or at the end. *)
Lemma spaces_end (s : str) (fuel i : nat) (cap : captures) :
  List.length s - i <= fuel ->
  exists e,
    star_loop (m false s (Class false [Space])) (fun j c => Some (j, c))
      fuel i cap = Some (e, cap)
    /\ space_at s e = false.
Proof.
  revert i. induction fuel as [|fuel IH]; intros i Hf; cbn [star_loop].
  - exists i. split; [reflexivity|]. unfold space_at.
    replace (nth_error s i) with (@None N); [reflexivity|].
    symmetry. apply nth_error_None. lia.
  - rewrite m_space. destruct (space_at s i) eqn:E.
    + rewrite (proj2 (Nat.eqb_neq (S i) i)) by lia.
      destruct (IH (S i) ltac:(lia)) as (e & -> & He).
      exists e. split; [reflexivity | exact He].
    + exists i. split; [reflexivity | exact E].
Qed.

Lemma two_spaces_at (s : str) (q : nat) :
  match match_at false s
          (Seq (Class false [Space])
               (Seq (Class false [Space]) (Star (Class false [Space])))) q with
  | Some (e, _) =>
      space_at s q = true /\ space_at s (S q) = true /\ space_at s e = false
  | None => space_at s q = true -> space_at s (S q) = false
  end.
Proof.
  unfold match_at. rewrite m_Seq, m_space.
  destruct (space_at s q); [|discriminate].
  rewrite m_Seq, m_space. destruct (space_at s (S q)); [|reflexivity].
  change (m false s (Star (Class false [Space])) (fun j c => Some (j, c))
            (S (S q)) None)
    with (star_loop (m false s (Class false [Space])) (fun j c => Some (j, c))
            (List.length s - S (S q)) (S (S q)) None).
  destruct (spaces_end s (List.length s - S (S q)) (S (S q)) None (Nat.le_refl _))
    as (e & -> & He).
  repeat split. exact He.
Qed.

Lemma trimStart_length (s : str) : List.length (trimStart s) <= List.length s.
Proof.
  induction s as [|c s IH]; cbn [trimStart List.length]; [lia|].
  destruct (is_space c); cbn [List.length]; lia.
Qed.

Lemma trim_length (s : str) : List.length (trim s) <= List.length s.
Proof.
  unfold trim. rewrite length_rev.
  eapply Nat.le_trans; [apply trimStart_length|].
  rewrite length_rev. apply trimStart_length.
Qed.

(** X22. The text that [cleanUpFormatting] returns holds no line feed, no
    typographic apostrophe or quotation mark, no soft hyphen and no en
    dash; it never has two white spaces in a row; and it is never longer
    than the text given. *)
Theorem cleanUpFormatting_clean (text : str) :
  (forall c, In c (cleanUpFormatting text) -> ~ In c REPLACED)
  /\ double_space (cleanUpFormatting text) = false
  /\ List.length (cleanUpFormatting text) <= List.length text.
Proof.
  unfold cleanUpFormatting. cbv zeta.
  set (R1 := Class false [Chr 10%N]).
  set (R2 := Class false [Chr 8216%N; Chr 8217%N]).
  set (R3 := Class false [Chr 171%N; Chr 187%N; Chr 8222%N; Chr 8221%N;
                          Chr 8220%N]).
  set (R4 := Seq (Class false [Chr 173%N; Chr 8211%N])
                 (opt (Class false [Space]))).
  set (R5 := Seq (LookBehind false (Class false [Space])) (lit ":'(")).
  set (R6 := Seq (Class false [Space])
                 (Seq (Class false [Space]) (Star (Class false [Space])))).
  set (s1 := replace false (trim text) R1 (fun _ => codes " ")).
  set (s2 := replace false s1 R2 (fun _ => codes "'")).
  set (s3 := replace false s2 R3 (fun _ => [34%N])).
  set (s4 := replace false s3 R4 (fun _ => [])).
  set (s5 := replace false s4 R5 (fun _ => [])).
  set (bad := fun ch : N =>
                existsb (in_item false ch)
                  [Chr 10%N; Chr 8216%N; Chr 8217%N; Chr 171%N; Chr 187%N;
                   Chr 8222%N; Chr 8221%N; Chr 8220%N; Chr 173%N; Chr 8211%N]).
  set (bad1 := fun ch : N => existsb (in_item false ch) [Chr 10%N]).
  set (bad2 := fun ch : N => existsb (in_item false ch) [Chr 8216%N; Chr 8217%N]).
  set (bad3 := fun ch : N =>
                 existsb (in_item false ch)
                   [Chr 171%N; Chr 187%N; Chr 8222%N; Chr 8221%N; Chr 8220%N]).
  set (bad4 := fun ch : N => existsb (in_item false ch) [Chr 173%N; Chr 8211%N]).
  assert (Hrep : forall (b : N -> bool) (rep : str),
             forallb (fun c => negb (b c)) rep = true ->
             forall (x : str) c, In c ((fun _ : str => rep) x) -> b c = false).
  { intros b rep H _ c Hc.
    apply negb_true_iff. exact (proj1 (forallb_forall _ _) H c Hc). }
  assert (H1 : forall c, In c s1 -> bad1 c = false).
  { apply replace_removes; [reflexivity | | apply Hrep; reflexivity].
    intros q ch E B. exact (class_matches _ _ q ch E B). }
  assert (H12 : forall c, In c s2 -> bad1 c = false /\ bad2 c = false).
  { intros c Hc. split.
    - revert c Hc. apply replace_keeps;
        [reflexivity | exact H1 | apply Hrep; reflexivity].
    - revert c Hc. apply replace_removes;
        [reflexivity | | apply Hrep; reflexivity].
      intros q ch E B. exact (class_matches _ _ q ch E B). }
  assert (H123 : forall c, In c s3 ->
                   bad1 c = false /\ bad2 c = false /\ bad3 c = false).
  { intros c Hc. split; [|split].
    - revert c Hc. apply replace_keeps;
        [reflexivity | apply H12 | apply Hrep; reflexivity].
    - revert c Hc. apply replace_keeps;
        [reflexivity | apply H12 | apply Hrep; reflexivity].
    - revert c Hc. apply replace_removes;
        [reflexivity | | apply Hrep; reflexivity].
      intros q ch E B. exact (class_matches _ _ q ch E B). }
  assert (H4 : forall c, In c s4 ->
                 bad1 c = false /\ bad2 c = false /\ bad3 c = false
                 /\ bad4 c = false).
  { intros c Hc. split; [|split; [|split]].
    - revert c Hc. apply replace_keeps;
        [reflexivity | apply H123 | apply Hrep; reflexivity].
    - revert c Hc. apply replace_keeps;
        [reflexivity | apply H123 | apply Hrep; reflexivity].
    - revert c Hc. apply replace_keeps;
        [reflexivity | apply H123 | apply Hrep; reflexivity].
    - revert c Hc. apply replace_removes;
        [reflexivity | | apply Hrep; reflexivity].
      intros q ch E B. exact (class_opt_matches _ _ _ q ch E B). }
  assert (Hkeep : forall (b : N -> bool),
             (forall c, In c s4 -> b c = false) ->
             b 32%N = false ->
             forall c, In c (replace false s5 R6 (fun _ => codes " ")) ->
                       b c = false).
  { intros b Hb H32. apply replace_keeps; [reflexivity| |].
    - apply replace_keeps; [reflexivity | exact Hb | intros _ c []].
    - intros _ c [<-|[]]. exact H32. }
  split; [|split].
  - intros c Hc Hin.
    assert (B1 := Hkeep bad1 (fun c Hc => proj1 (H4 c Hc)) eq_refl c Hc).
    assert (B2 := Hkeep bad2 (fun c Hc => proj1 (proj2 (H4 c Hc))) eq_refl c Hc).
    assert (B3 := Hkeep bad3 (fun c Hc => proj1 (proj2 (proj2 (H4 c Hc))))
                    eq_refl c Hc).
    assert (B4 := Hkeep bad4 (fun c Hc => proj2 (proj2 (proj2 (H4 c Hc))))
                    eq_refl c Hc).
    unfold REPLACED in Hin. cbn [In] in Hin.
    repeat (destruct Hin as [<-|Hin]; [discriminate|]). exact Hin.
  - apply (replace_ind false s5 R6 (fun _ => codes " ") eq_refl
             (fun p out => double_space out = false
                           /\ (space_at s5 p = false ->
                               starts_with_space out = false))).
    + intros p _. split; reflexivity.
    + intros p a out Ea Em [IH1 IH2].
      assert (Ha : space_at s5 p = is_space a) by (unfold space_at; rewrite Ea; reflexivity).
      assert (H2 := two_spaces_at s5 p). fold R6 in H2. rewrite Em in H2.
      split.
      * cbn [double_space]. rewrite IH1, orb_false_r.
        destruct (is_space a) eqn:Sa; [|reflexivity].
        rewrite IH2; [reflexivity|]. apply H2. rewrite Ha. reflexivity.
      * intro Hs. cbn [starts_with_space]. rewrite <- Ha. exact Hs.
    + intros p e c out Em _ [IH1 IH2].
      assert (H2 := two_spaces_at s5 p). fold R6 in H2. rewrite Em in H2.
      destruct H2 as (Sp & _ & Se). split.
      * change (codes " " ++ out) with (32%N :: out). cbn [double_space].
        rewrite IH1, (IH2 Se). reflexivity.
      * intro Hs. congruence.
  - eapply Nat.le_trans; [apply replace_length; [reflexivity | intros _; cbn; lia]|].
    eapply Nat.le_trans; [apply replace_length; [reflexivity | intros _; cbn; lia]|].
    eapply Nat.le_trans; [apply replace_length; [reflexivity | intros _; cbn; lia]|].
    eapply Nat.le_trans; [apply replace_length; [reflexivity | intros _; cbn; lia]|].
    eapply Nat.le_trans; [apply replace_length; [reflexivity | intros _; cbn; lia]|].
    eapply Nat.le_trans; [apply replace_length; [reflexivity | intros _; cbn; lia]|].
    apply trim_length.
Qed.

(** ** expandAbbreviations *)

Lemma m_class_at (s : str) (items : list citem) (k : continuation) (i : nat)
  (cap : captures) :
  m false s (Class false items) k i cap
  = if class_at s items i then k (S i) cap else None.
Proof.
  rewrite m_Class. unfold class_at.
  destruct (nth_error s i) as [ch|]; reflexivity.
Qed.

Lemma m_ahead (s : str) (items : list citem) (k : continuation) (i : nat)
  (cap : captures) :
  m false s (LookAhead false (Class false items)) k i cap
  = if class_at s items i then k i cap else None.
Proof.
  cbn [m]. unfold class_at. destruct (nth_error s i) as [ch|]; [|reflexivity].
  cbn [xorb]. destruct (existsb (in_item false ch) items); reflexivity.
Qed.

(** A member of the class ends at [i] exactly when there is one at
    [i - 1]. *)
Lemma class_behind (s : str) (items : list citem) (i : nat) (cap : captures) :
  existsb
    (fun q =>
       match m false s (Class false items)
               (fun j c => if j =? i then Some (j, c) else None) q cap with
       | Some _ => true
       | None => false
       end)
    (seq 0 (S i))
  = match i with
    | O => false
    | S p => class_at s items p
    end.
Proof.
  apply eq_iff_eq_true. rewrite existsb_exists. split.
  - intros (q & Hq & H). rewrite m_class_at in H.
    destruct (class_at s items q) eqn:D; [|discriminate H].
    destruct (Nat.eqb_spec (S q) i) as [<-|]; [exact D | discriminate H].
  - destruct i as [|p]; [discriminate|]. intro D. exists p. split.
    + apply in_seq. lia.
    + rewrite m_class_at, D, Nat.eqb_refl. reflexivity.
Qed.

Lemma m_literal (s : str) (l : list ascii) (k : continuation) (i : nat)
  (cap : captures) :
  m false s (fold_right (fun c r => Seq (chr c) r) Empty l) k i cap
  = if has_at s i (List.map N_of_ascii l)
    then k (i + List.length l) cap
    else None.
Proof.
  revert i. induction l as [|a l IH]; intro i;
    cbn [fold_right List.map has_at List.length].
  - cbn [m]. rewrite Nat.add_0_r. reflexivity.
  - rewrite m_Seq. unfold chr. rewrite m_Class.
    destruct (nth_error s i) as [ch|]; [|reflexivity].
    cbn [existsb in_item xorb Canonicalize]. rewrite orb_false_r.
    change (code a) with (N_of_ascii a).
    destruct (N_of_ascii a =? ch)%N; cbn [andb]; [|reflexivity].
    rewrite IH. replace (S i + List.length l) with (i + S (List.length l)) by lia.
    reflexivity.
Qed.

Lemma m_lit (s : str) (w : string) (k : continuation) (i : nat)
  (cap : captures) :
  m false s (lit w) k i cap
  = if has_at s i (codes w) then k (i + List.length (codes w)) cap else None.
Proof.
  unfold lit, codes. rewrite m_literal, length_map. reflexivity.
Qed.

Lemma m_alternation_Some (s : str) (ws : list string) (k : continuation)
  (i : nat) (cap : captures) (st : state) :
  ws <> [] ->
  m false s (alternation ws) k i cap = Some st ->
  exists w, In w ws /\ has_at s i (codes w) = true
            /\ k (i + List.length (codes w)) cap = Some st.
Proof.
  induction ws as [|w ws IH]; intros Hne H; [congruence|].
  destruct ws as [|w' ws].
  - cbn [alternation] in H. rewrite m_lit in H.
    destruct (has_at s i (codes w)) eqn:E; [|discriminate H].
    exists w. repeat split; [left; reflexivity | exact E | exact H].
  - change (alternation (w :: w' :: ws))
      with (Alt (lit w) (alternation (w' :: ws))) in H.
    cbn [m] in H. fold (lit w) in H.
    destruct (m false s (lit w) k i cap) as [st'|] eqn:E1.
    + injection H as ->. rewrite m_lit in E1.
      destruct (has_at s i (codes w)) eqn:E; [|discriminate E1].
      exists w. repeat split; [left; reflexivity | exact E | exact E1].
    + destruct (IH ltac:(discriminate) H) as (x & Hx & Hh & Hk).
      exists x. repeat split; [right; exact Hx | exact Hh | exact Hk].
Qed.

Lemma m_alternation_matches (s : str) (ws : list string) (k : continuation)
  (i : nat) (cap : captures) (w : string) :
  In w ws -> has_at s i (codes w) = true ->
  k (i + List.length (codes w)) cap <> None ->
  m false s (alternation ws) k i cap <> None.
Proof.
  induction ws as [|w0 ws IH]; intros Hin Hh Hk; [destruct Hin|].
  destruct ws as [|w' ws].
  - destruct Hin as [->|[]]. cbn [alternation]. rewrite m_lit, Hh. exact Hk.
  - change (alternation (w0 :: w' :: ws))
      with (Alt (lit w0) (alternation (w' :: ws))).
    cbn [m]. fold (lit w0).
    destruct (m false s (lit w0) k i cap) as [st'|] eqn:E1; [discriminate|].
    destruct Hin as [->|Hin].
    + rewrite m_lit, Hh in E1. congruence.
    + exact (IH Hin Hh Hk).
Qed.

Lemma abbreviationRegex_at (s : str) (i e : nat) (c : captures) :
  match_at false s abbreviationRegex i = Some (e, c) ->
  exists w, abbreviation_at s i w /\ e = i + List.length (codes w).
Proof.
  unfold match_at, abbreviationRegex. rewrite m_Seq.
  change (m false s (LookBehind false ?r) ?k i None)
    with (if xorb false
               (existsb
                  (fun q =>
                     match m false s r
                             (fun j c => if j =? i then Some (j, c) else None)
                             q None with
                     | Some _ => true
                     | None => false
                     end)
                  (seq 0 (S i)))
          then k i None else None).
  rewrite class_behind. cbn [xorb].
  destruct i as [|p]; [discriminate|].
  destruct (class_at s BEHIND p) eqn:Hb; [|discriminate].
  rewrite m_Seq.
  change (m false s (Group ?r) ?k (S p) None)
    with (m false s r (fun j _ => k j (Some (S p, j))) (S p) None).
  intro H. apply m_alternation_Some in H; [|discriminate].
  destruct H as (w & Hw & Hh & Hk). cbn beta in Hk.
  rewrite m_ahead in Hk.
  destruct (class_at s AHEAD (S p + List.length (codes w))) eqn:Ha;
    [|discriminate Hk].
  injection Hk as <- _. exists w. split; [|reflexivity].
  unfold abbreviation_at. cbn [Nat.sub]. rewrite Nat.sub_0_r.
  repeat split; [exact Hw | lia | exact Hb | exact Hh | exact Ha].
Qed.

Lemma abbreviationRegex_matches (s : str) (i : nat) (w : string) :
  abbreviation_at s i w -> match_at false s abbreviationRegex i <> None.
Proof.
  intros (Hw & Hi & Hb & Hh & Ha).
  unfold match_at, abbreviationRegex. rewrite m_Seq.
  change (m false s (LookBehind false ?r) ?k i None)
    with (if xorb false
               (existsb
                  (fun q =>
                     match m false s r
                             (fun j c => if j =? i then Some (j, c) else None)
                             q None with
                     | Some _ => true
                     | None => false
                     end)
                  (seq 0 (S i)))
          then k i None else None).
  rewrite class_behind. cbn [xorb].
  destruct i as [|p]; [lia|]. cbn [Nat.sub] in Hb. rewrite Nat.sub_0_r in Hb.
  rewrite Hb, m_Seq.
  change (m false s (Group ?r) ?k (S p) None)
    with (m false s r (fun j _ => k j (Some (S p, j))) (S p) None).
  apply (m_alternation_matches s _ _ _ _ w Hw Hh).
  rewrite m_ahead, Ha. discriminate.
Qed.

Lemma has_at_skipn (s : str) (l : str) (i : nat) :
  has_at s i l = true ->
  skipn i s = l ++ skipn (i + List.length l) s
  /\ substring s i (i + List.length l) = l.
Proof.
  revert i. induction l as [|c l IH]; intros i H; cbn [has_at] in H.
  - cbn [List.length app]. rewrite Nat.add_0_r. split; [reflexivity|].
    unfold substring. rewrite Nat.sub_diag. reflexivity.
  - destruct (nth_error s i) as [ch|] eqn:E; [|discriminate H].
    apply andb_true_iff in H. destruct H as [Hc H].
    apply N.eqb_eq in Hc. subst ch.
    destruct (IH (S i) H) as [Hs Hsub].
    cbn [List.length]. replace (i + S (List.length l)) with (S i + List.length l) by lia.
    split.
    + rewrite (skipn_nth_error s i c E), Hs. reflexivity.
    + rewrite (substring_cons s i _ c E) by lia. rewrite Hsub. reflexivity.
Qed.

(** Every key is looked up to its own full term, which is longer than the
    key and differs from it within the length of the key. *)
Lemma abbreviation_of_key (w : string) :
  In w (List.map fst ABBREVIATIONS_LIST) ->
  List.length (codes w) <= List.length (abbreviation (codes w))
  /\ firstn (List.length (codes w)) (abbreviation (codes w)) <> codes w.
Proof.
  intro H. unfold ABBREVIATIONS_LIST in H. cbn [List.map fst In] in H.
  repeat (destruct H as [<-|H];
          [split; [apply Nat.leb_le; vm_compute; reflexivity
                  | vm_compute; discriminate]|]).
  destruct H.
Qed.

(** X23. [expandAbbreviations] returns the text unchanged exactly when no
    abbreviation of the list stands in it directly behind a white space or
    an opening parenthesis and directly in front of a white space or one
    of the characters $ , . ! ? and the closing parenthesis; an
    abbreviation at the very start or the very end of the text is
    therefore never expanded. The text never gets shorter. *)
Theorem expandAbbreviations_unchanged (text : str) :
  (expandAbbreviations text = text
   <-> forall i w, ~ abbreviation_at text i w)
  /\ List.length text <= List.length (expandAbbreviations text).
Proof.
  unfold expandAbbreviations.
  assert (H : (replace false text abbreviationRegex abbreviation = skipn 0 text
               <-> forall q, 0 <= q <= List.length text ->
                     match_at false text abbreviationRegex q = None)
              /\ List.length text - 0
                 <= List.length (replace false text abbreviationRegex abbreviation)).
  { apply (replace_ind false text abbreviationRegex abbreviation eq_refl
             (fun p out =>
                (out = skipn p text
                 <-> forall q, p <= q <= List.length text ->
                       match_at false text abbreviationRegex q = None)
                /\ List.length text - p <= List.length out)).
    - intros p Hp. split; [|cbn [List.length]; lia].
      rewrite skipn_all2 by exact Hp. split; [|reflexivity].
      intros _ q Hq. assert (q = List.length text) by lia. subst q.
      destruct (match_at false text abbreviationRegex (List.length text))
        as [[e c]|] eqn:E; [|reflexivity].
      apply (match_nonempty false text abbreviationRegex eq_refl) in E; lia.
    - intros p a out Ea Em [IH Hlen].
      assert (Hp : p < List.length text) by (apply nth_error_Some; congruence).
      split; [|cbn [List.length]; lia].
      rewrite (skipn_nth_error text p a Ea). split.
      + intros E q Hq. injection E as E.
        destruct (Nat.eq_dec q p) as [->|Hne]; [exact Em|].
        apply (proj1 IH E). lia.
      + intro Hall. f_equal. apply IH. intros q Hq. apply Hall. lia.
    - intros p e c out Em He [IH Hlen].
      destruct (abbreviationRegex_at text p e c Em) as (w & Hw & ->).
      destruct Hw as (Hin & Hi & Hb & Hh & Ha).
      destruct (has_at_skipn text (codes w) p Hh) as [Hskip Hsub].
      destruct (abbreviation_of_key w Hin) as [Hlonger Hdiff].
      rewrite Hsub. split.
      + split.
        * intro E. exfalso. apply Hdiff. rewrite Hskip in E.
          apply (f_equal (firstn (List.length (codes w)))) in E.
          rewrite firstn_app, firstn_app, firstn_all in E.
          rewrite Nat.sub_diag in E. cbn [firstn] in E. rewrite app_nil_r in E.
          replace (List.length (codes w) - List.length (abbreviation (codes w)))
            with 0 in E by lia.
          cbn [firstn] in E. rewrite app_nil_r in E. exact E.
        * intro Hall. rewrite (Hall p) in Em by lia. discriminate Em.
      + rewrite length_app. lia. }
  destruct H as [Hiff Hlen]. cbn [skipn] in Hiff. split; [|lia].
  rewrite Hiff. split.
  - intros Hall i w Hw.
    assert (Hm := abbreviationRegex_matches text i w Hw).
    apply Hm, Hall. split; [lia|].
    destruct Hw as (_ & _ & _ & _ & Ha). unfold class_at in Ha.
    destruct (nth_error text (i + List.length (codes w))) eqn:E;
      [|discriminate Ha].
    assert (i + List.length (codes w) < List.length text)
      by (apply nth_error_Some; congruence).
    lia.
  - intros Hno q _.
    destruct (match_at false text abbreviationRegex q) as [[e c]|] eqn:E;
      [|reflexivity].
    destruct (abbreviationRegex_at text q e c E) as (w & Hw & _).
    exfalso. exact (Hno q w Hw).
Qed.

(** ** The shape of a word *)

Section Triples.
Variable ic : bool.
Variable s : str.

Lemma triple_Class (negated : bool) (items : list citem)
  (Pre Post : nat -> Prop) :
  (forall i ch, nth_error s i = Some ch ->
                xorb negated (existsb (in_item ic ch) items) = true ->
                Pre i -> Post (S i)) ->
  triple s Pre Post (m ic s (Class negated items)).
Proof.
  intros H k i cap st Hi Hpre Hm. rewrite m_Class in Hm.
  destruct (nth_error s i) as [ch|] eqn:E; [|discriminate Hm].
  assert (i < List.length s) by (apply nth_error_Some; congruence).
  destruct (xorb _ _) eqn:X; [|discriminate Hm].
  exists (S i), cap. split; [lia|]. split; [exact (H i ch E X Hpre) | exact Hm].
Qed.

Lemma triple_Seq (r1 r2 : regex) (P Q R : nat -> Prop) :
  triple s P Q (m ic s r1) -> triple s Q R (m ic s r2) ->
  triple s P R (m ic s (Seq r1 r2)).
Proof.
  intros H1 H2 k i cap st Hi Hpre Hm. rewrite m_Seq in Hm.
  destruct (H1 _ _ _ _ Hi Hpre Hm) as (j & c & Hj & HQ & Hk).
  exact (H2 _ _ _ _ Hj HQ Hk).
Qed.

Lemma triple_star_loop
  (step : continuation -> nat -> captures -> option state) (I : nat -> Prop) :
  triple s I I step -> forall fuel, triple s I I (fun k => star_loop step k fuel).
Proof.
  intros Hstep fuel. induction fuel as [|fuel IH]; intros k i cap st Hi Hpre H;
    cbn [star_loop] in H.
  - exists i, cap. repeat split; assumption.
  - destruct (step _ i cap) as [s0|] eqn:E.
    + injection H as ->.
      destruct (Hstep _ _ _ _ Hi Hpre E) as (j & c & Hj & HI & Hk).
      destruct (j =? i); [discriminate Hk|].
      exact (IH k j c st Hj HI Hk).
    + exists i, cap. repeat split; assumption.
Qed.

Lemma triple_Star (r1 : regex) (I : nat -> Prop) :
  triple s I I (m ic s r1) -> triple s I I (m ic s (Star r1)).
Proof.
  intros H k i cap st Hi Hpre Hm. cbn [m] in Hm.
  exact (triple_star_loop _ I H _ k i cap st Hi Hpre Hm).
Qed.
End Triples.

Lemma class_at_In (s : str) (items : list citem) (i : nat) (ch : N) :
  nth_error s i = Some ch -> existsb (in_item false ch) items = true ->
  class_at s items i = true.
Proof. intros E H. unfold class_at. rewrite E. exact H. Qed.

Lemma inner_span_step (s : str) (start i : nat) (ch : N) :
  nth_error s i = Some ch ->
  existsb (in_item false ch) INNER_CHARS = true ->
  inner_span s start i -> inner_span s start (S i).
Proof.
  intros E H (Hlt & Hfirst & Hall). split; [lia|]. split; [exact Hfirst|].
  intros q Hq. destruct (Nat.eq_dec q i) as [->|Hne].
  - exact (class_at_In s _ i ch E H).
  - apply Hall. lia.
Qed.

Lemma word_char_inner (ch : N) :
  existsb (in_item false ch) WORD_CHARS = true ->
  existsb (in_item false ch) INNER_CHARS = true.
Proof.
  intro H. unfold INNER_CHARS. rewrite existsb_app, H. reflexivity.
Qed.

Lemma letter_word_char (ch : N) :
  existsb (in_item false ch)
    [Range (code "a") (code "z"); Range (code "A") (code "Z"); Range 192 255]
  = true ->
  existsb (in_item false ch) WORD_CHARS = true.
Proof.
  unfold WORD_CHARS. cbn [existsb]. intro H.
  rewrite !orb_false_r in H. rewrite !orb_assoc. rewrite !orb_assoc in H.
  rewrite H. reflexivity.
Qed.

Lemma word_span_step (s : str) (start i : nat) (ch : N) :
  nth_error s i = Some ch ->
  existsb (in_item false ch) WORD_CHARS = true ->
  inner_span s start i -> word_span s start (S i).
Proof.
  intros E H Hspan. split.
  - exact (inner_span_step s start i ch E (word_char_inner ch H) Hspan).
  - cbn [Nat.sub]. rewrite Nat.sub_0_r. exact (class_at_In s _ i ch E H).
Qed.

(** A match of [WORD_REGEX] that starts at [start] ends at an index [e]
    with [word_span s start e]. *)
Lemma WORD_REGEX_span (s : str) (start e : nat) (c : captures) :
  start <= List.length s ->
  match_at false s WORD_REGEX start = Some (e, c) ->
  word_span s start e /\ e <= List.length s.
Proof.
  intros Hstart H.
  assert (T1 : triple s (fun i => i = start) (word_span s start)
                 (m false s (Class false WORD_CHARS))).
  { apply triple_Class. intros i ch E X ->. cbn [xorb] in X.
    split; [split; [lia|split]|].
    - exact (class_at_In s _ start ch E X).
    - intros q Hq. replace q with start by lia.
      exact (class_at_In s _ start ch E (word_char_inner ch X)).
    - cbn [Nat.sub]. rewrite Nat.sub_0_r. exact (class_at_In s _ start ch E X). }
  assert (T2 : triple s (word_span s start) (word_span s start)
                 (m false s (Class false WORD_CHARS))).
  { apply triple_Class. intros i ch E X [Hs _]. cbn [xorb] in X.
    exact (word_span_step s start i ch E X Hs). }
  assert (T3 : triple s (word_span s start) (inner_span s start)
                 (m false s (Class false [Chr (code "."); Chr (code "'")]))).
  { apply triple_Class. intros i ch E X [Hs _]. cbn [xorb] in X.
    apply (inner_span_step s start i ch E); [|exact Hs].
    unfold INNER_CHARS. rewrite existsb_app, X. apply orb_true_r. }
  assert (T4 : triple s (inner_span s start) (word_span s start)
                 (m false s (Class false [Range (code "a") (code "z");
                                          Range (code "A") (code "Z");
                                          Range 192 255]))).
  { apply triple_Class. intros i ch E X Hs. cbn [xorb] in X.
    exact (word_span_step s start i ch E (letter_word_char ch X) Hs). }
  assert (T5 : triple s (word_span s start) (word_span s start)
                 (m false s (Class false [Range (code "a") (code "z");
                                          Range (code "A") (code "Z");
                                          Range 192 255]))).
  { intros k i cap st Hi [Hs _]. exact (T4 k i cap st Hi Hs). }
  assert (T : triple s (fun i => i = start) (word_span s start)
                (m false s WORD_REGEX)).
  { unfold WORD_REGEX, plus. fold WORD_CHARS.
    apply (triple_Seq false s _ _ _ (word_span s start)).
    - apply (triple_Seq false s _ _ _ (word_span s start)); [exact T1|].
      apply triple_Star. exact T2.
    - apply triple_Star.
      apply (triple_Seq false s _ _ _ (inner_span s start)); [exact T3|].
      apply (triple_Seq false s _ _ _ (word_span s start)); [exact T4|].
      apply triple_Star. exact T5. }
  destruct (T _ _ _ _ Hstart eq_refl H) as (j & c' & Hj & HW & Hk).
  injection Hk as <- _. split; [exact HW | exact Hj].
Qed.

Lemma match_loop_In (ic : bool) (s : str) (r : regex) (fuel lastIndex : nat)
  (w : str) :
  In w (match_loop ic s r fuel lastIndex) ->
  exists start e c,
    start <= List.length s
    /\ match_at ic s r start = Some (e, c)
    /\ w = substring s start e.
Proof.
  revert lastIndex. induction fuel as [|fuel IH]; intros i H;
    cbn [match_loop] in H; [destruct H|].
  destruct (exec ic s r i) as [[start [e c]]|] eqn:E; [|destruct H].
  destruct H as [<-|H]; [|exact (IH _ H)].
  assert (Hb := exec_bounds ic s r _ _ _ _ E).
  unfold exec in E. destruct (List.length s <? i); [discriminate E|].
  apply search_match_at in E.
  exists start, e, c. split; [lia|]. split; [exact E | reflexivity].
Qed.

Lemma substring_nth (s : str) (i j q : nat) :
  j <= List.length s -> q < j - i ->
  nth_error (substring s i j) q = nth_error s (i + q)
  /\ List.length (substring s i j) = j - i.
Proof.
  intros Hj Hq. unfold substring. split.
  - rewrite nth_error_firstn, nth_error_skipn.
    rewrite (proj2 (Nat.ltb_lt q (j - i)) Hq). reflexivity.
  - rewrite length_firstn, length_skipn. lia.
Qed.

(** X24. Every word that [extractContentFromText] counts starts and ends
    with a letter or digit of the ranges of [WORD_REGEX] and holds nothing
    but these, periods and apostrophes. In particular no word is empty, and
    a closing period, as in an abbreviation at the end of a sentence, is
    never part of the word. *)
Theorem words_shape (text w : str) :
  In w (words (extractContentFromText text)) ->
  w <> []
  /\ class_at w WORD_CHARS 0 = true
  /\ class_at w WORD_CHARS (List.length w - 1) = true
  /\ forall q, q < List.length w -> class_at w INNER_CHARS q = true.
Proof.
  intro H.
  assert (Hin : In w (match_loop false text WORD_REGEX
                        (S (List.length text)) 0)).
  { change (words (extractContentFromText text))
      with (match match_global false text WORD_REGEX with
            | Some found => List.filter (fun word => 0 <? List.length word) found
            | None => []
            end) in H.
    unfold match_global in H.
    destruct (match_loop false text WORD_REGEX (S (List.length text)) 0)
      as [|x l]; [destruct H|].
    apply filter_In in H. exact (proj1 H). }
  destruct (match_loop_In _ _ _ _ _ _ Hin) as (start & e & c & Hs & Hm & ->).
  destruct (WORD_REGEX_span text start e c Hs Hm)
    as [[(Hlt & Hfirst & Hall) Hlast] He].
  assert (Hlen : List.length (substring text start e) = e - start)
    by (apply (substring_nth text start e 0); lia).
  assert (Hnth : forall q, q < e - start ->
            nth_error (substring text start e) q = nth_error text (start + q)).
  { intros q Hq. apply (substring_nth text start e q); lia. }
  split; [|split; [|split]].
  - intro E. rewrite E in Hlen. cbn [List.length] in Hlen. lia.
  - unfold class_at in *. rewrite Hnth by lia. rewrite Nat.add_0_r.
    exact Hfirst.
  - unfold class_at in *. rewrite Hlen, Hnth by lia.
    replace (start + (e - start - 1)) with (e - 1) by lia. exact Hlast.
  - intros q Hq. rewrite Hlen in Hq. unfold class_at in *.
    rewrite Hnth by lia. apply Hall. lia.
Qed.

Lemma words_shape_witness :
  codes "Mr" <> []
  /\ class_at (codes "Mr") WORD_CHARS 0 = true
  /\ class_at (codes "Mr") WORD_CHARS (List.length (codes "Mr") - 1) = true
  /\ forall q, q < List.length (codes "Mr") ->
               class_at (codes "Mr") INNER_CHARS q = true.
Proof.
  apply (words_shape (codes "Mr. Smith went home.") (codes "Mr")).
  vm_compute. left. reflexivity.
Defined.

(** ** The score grows with the long words and falls with the sentences *)

Lemma toFixed0_monotone (x y : Q) :
  (0 <= x)%Q -> (x <= y)%Q ->
  exists a b, toFixed0 (Fin x) = Fin a /\ toFixed0 (Fin y) = Fin b
              /\ (a <= b)%Q.
Proof.
  intros Hx Hxy.
  assert (Hy : (0 <= y)%Q) by (eapply Qle_trans; eassumption).
  assert (Eabs : forall z, (0 <= z)%Q ->
            Qle_bool (inject_Z (10 ^ 21)) (Qabs z)
            = Qle_bool (inject_Z (10 ^ 21)) z).
  { intros z Hz. apply eq_iff_eq_true. rewrite !Qle_bool_iff.
    rewrite (Qabs_pos z Hz). reflexivity. }
  unfold toFixed0. rewrite (Eabs x Hx), (Eabs y Hy).
  assert (Ex : Qltb x 0 = false) by (apply Qltb_ge, Hx).
  assert (Ey : Qltb y 0 = false) by (apply Qltb_ge, Hy).
  rewrite Ex, Ey.
  assert (Hfloor : (inject_Z (Qround_half_up x) <= x + (1 # 2))%Q)
    by (apply Qfloor_le).
  destruct (Qle_bool (inject_Z (10 ^ 21)) x) eqn:Bx;
    destruct (Qle_bool (inject_Z (10 ^ 21)) y) eqn:By.
  - exists x, y. repeat split. exact Hxy.
  - exfalso. apply Qle_bool_iff in Bx.
    assert (Hb : Qle_bool (inject_Z (10 ^ 21)) y = true)
      by (apply Qle_bool_iff; eapply Qle_trans; eassumption).
    congruence.
  - eexists. exists y. split; [reflexivity|]. split; [reflexivity|].
    apply Qle_bool_iff in By.
    apply Qle_trans with (y := inject_Z (10 ^ 21)); [|exact By].
    unfold of_Z. rewrite <- Zle_Qle. unfold Qround_half_up.
    assert (Hlt : (x < inject_Z (10 ^ 21))%Q).
    { apply Qnot_le_lt. intro H. apply Qle_bool_iff in H. congruence. }
    assert (Hf : (Qfloor (x + (1 # 2)) <= Qfloor (inject_Z (10 ^ 21) + (1 # 2)))%Z).
    { apply Qfloor_resp_le. apply Qplus_le_l. apply Qlt_le_weak, Hlt. }
    eapply Z.le_trans; [exact Hf|]. vm_compute. discriminate.
  - eexists. eexists. split; [reflexivity|]. split; [reflexivity|].
    unfold of_Z. rewrite <- Zle_Qle. unfold Qround_half_up.
    apply Qfloor_resp_le. apply Qplus_le_l. exact Hxy.
Qed.

Lemma lix_value_monotone (pw ps ps' : positive) (L L' : Z) :
  (ps <= ps')%positive -> (0 <= L <= L')%Z ->
  ((Z.pos pw # 1) / (Z.pos ps' # 1)
   + (inject_Z L * inject_Z 100) / (Z.pos pw # 1)
   <= (Z.pos pw # 1) / (Z.pos ps # 1)
      + (inject_Z L' * inject_Z 100) / (Z.pos pw # 1))%Q.
Proof.
  intros Hs HL. apply Qplus_le_compat.
  - unfold Qle, Qdiv, Qinv, Qmult, inject_Z. cbn [Qnum Qden].
    rewrite !Pos2Z.inj_mul. nia.
  - unfold Qle, Qdiv, Qinv, Qmult, inject_Z. cbn [Qnum Qden].
    rewrite !Pos2Z.inj_mul. nia.
Qed.

(** X25. For the same number of words, a text with no fewer long words and
    no more sentences never gets a lower score. *)
Theorem calculateLixFromStats_monotone (w l l' s s' : nat) :
  0 < w -> 0 < s -> s <= s' -> l <= l' ->
  exists lower higher,
    calculateLixFromStats
      {| word_count := w; long_word_count := l; sentence_count := s' |}
    = Fin lower
    /\ calculateLixFromStats
         {| word_count := w; long_word_count := l'; sentence_count := s |}
       = Fin higher
    /\ (lower <= higher)%Q.
Proof.
  intros Hw Hs Hss Hl.
  destruct w as [|m]; [lia|]. destruct s as [|n]; [lia|].
  destruct s' as [|n']; [lia|].
  unfold calculateLixFromStats.
  cbn [word_count long_word_count sentence_count].
  rewrite !div_by_length. unfold of_nat, of_Z. cbn [mul add].
  apply toFixed0_monotone.
  - apply (lix_value_nonneg (Pos.of_succ_nat m) (Pos.of_succ_nat n')
             (Z.of_nat l)). lia.
  - apply (lix_value_monotone (Pos.of_succ_nat m) (Pos.of_succ_nat n)
             (Pos.of_succ_nat n') (Z.of_nat l) (Z.of_nat l')); lia.
Qed.

Lemma calculateLixFromStats_monotone_witness :
  exists lower higher,
    calculateLixFromStats
      {| word_count := 120; long_word_count := 30; sentence_count := 12 |}
    = Fin lower
    /\ calculateLixFromStats
         {| word_count := 120; long_word_count := 40; sentence_count := 8 |}
       = Fin higher
    /\ (lower <= higher)%Q.
Proof.
  apply (calculateLixFromStats_monotone 120 30 40 8 12); lia.
Defined.
